(** * Dynamic context pruning: a shallow embedding and its properties

    The development follows the TypeScript sources:
    - [StateManager]  the per-session store of pruned identifiers (lib/state.ts),
    - [Host]          the host's structured messages and the mutator [prune],
    - [Janitor]       the background analysis [Janitor.run] (lib/janitor.ts),
    - [Bedrock]       the Bedrock format descriptor and its helpers.

    The model comes first, one module per source file; the properties follow. *)

From Stdlib Require Import ZArith Ascii String.
From stdpp Require Import gmap strings list fin_maps.

Local Open Scope string_scope.
Local Open Scope list_scope.
Set Warnings "-register-all".

(** ** JavaScript strings and values *)

Module JS.

(** [String.prototype.toLowerCase]. The case mapping is the host's (the
    Unicode default case conversion); the development takes it as a
    parameter, so that what is proved of an operation that lowers
    identifiers holds for the mapping the code runs with. *)
Class Lowercase := toLowerCase : string → string.

(** The mapping on ASCII strings, where it sends [A]-[Z] to [a]-[z] and
    keeps every other character: the instance the examples run with. *)
Definition lower_ascii (c : ascii) : ascii :=
  let n := nat_of_ascii c in
  if (65 <=? n)%nat && (n <=? 90)%nat then ascii_of_nat (n + 32) else c.

Fixpoint toLowerCase_ascii (s : string) : string :=
  match s with
  | EmptyString => EmptyString
  | String c s' => String (lower_ascii c) (toLowerCase_ascii s')
  end.

Definition ascii_case : Lowercase := toLowerCase_ascii.

(** [s.length]: the number of UTF-16 code units of [s]. A string is held as
    the bytes of its UTF-8 encoding: a character below U+10000 has one
    leading byte and is one code unit, a character from U+10000 on has a
    leading byte from [0xF0] and is two (a surrogate pair), and the
    continuation bytes [0x80]-[0xBF] count nothing. *)
Definition code_units (c : ascii) : nat :=
  let n := nat_of_ascii c in
  if (n <? 128)%nat then 1%nat
  else if (n <? 192)%nat then 0%nat
  else if (n <? 240)%nat then 1%nat
  else 2%nat.

Fixpoint str_length (s : string) : nat :=
  match s with
  | EmptyString => 0%nat
  | String c s' => (code_units c + str_length s')%nat
  end.

(** [s.startsWith(p)] *)
Definition startsWith (s p : string) : bool := String.prefix p s.

(** [s.includes(sub)] *)
Fixpoint includes (s sub : string) : bool :=
  String.prefix sub s ||
  match s with
  | EmptyString => false
  | String _ s' => includes s' sub
  end.

(** The separator ["\n\n"] *)
Definition two_newlines : string :=
  String "010"%char (String "010"%char EmptyString).

(** A truthy string is a non-empty one. *)
Definition truthy_string (s : string) : bool :=
  match s with EmptyString => false | _ => true end.

(** JSON-like values: the payloads the code copies around or inspects only at
    their top level. An object keeps its own properties in insertion order. *)
Inductive value :=
| VUndef
| VNull
| VBool (b : bool)
| VNum (n : Z)
| VStr (s : string)
| VArr (xs : list value)
| VObj (fields : list (string * value)).

Abbreviation obj := (list (string * value)).

(** [o[k]] on an object: [undefined] when [k] is not an own property. *)
Fixpoint lookup_field (k : string) (o : obj) : value :=
  match o with
  | [] => VUndef
  | (k', v) :: o' => if decide (k = k') then v else lookup_field k o'
  end.

(** [v?.k] for a property name [k] that no built-in prototype defines:
    [undefined] on everything but an object that owns [k]. *)
Definition get_prop (v : value) (k : string) : value :=
  match v with
  | VObj o => lookup_field k o
  | _ => VUndef
  end.

(** [o[k] = v] on an object that already owns [k]: the property keeps its
    place. On an object without [k] the property is added at the end. *)
Fixpoint set_field (k : string) (v : value) (o : obj) : obj :=
  match o with
  | [] => [(k, v)]
  | (k', v') :: o' =>
      if decide (k = k') then (k, v) :: o' else (k', v') :: set_field k v o'
  end.

Definition is_undefined (v : value) : bool :=
  match v with VUndef => true | _ => false end.

Definition isArray (v : value) : bool :=
  match v with VArr _ => true | _ => false end.

End JS.

Import JS.

(** ** lib/state.ts: the State Store *)

Module StateManager.

Record PruningMetadata := {
  prunedIds : list string;
  lastPruneCount : Z  (* number of identifiers pruned in the last operation *)
}.

(** [private state: Map<string, PruningMetadata>] *)
Abbreviation t := (gmap string PruningMetadata).

Definition empty : t := ∅.

Definition get (st : t) (sessionID : string) : list string :=
  match st !! sessionID with
  | Some m => prunedIds m
  | None => []
  end.

Definition set (st : t) (sessionID : string) (ids : list string) : t :=
  let existing := st !! sessionID in
  let previousCount :=
    match existing with
    | Some m => Z.of_nat (length (prunedIds m))
    | None => 0%Z
    end in
  let newCount := (Z.of_nat (length ids) - previousCount)%Z in
  <[sessionID := {| prunedIds := ids; lastPruneCount := newCount |}]> st.

Definition getLastPruneCount (st : t) (sessionID : string) : Z :=
  match st !! sessionID with
  | Some m => lastPruneCount m
  | None => 0%Z
  end.

Definition resetLastPruneCount (st : t) (sessionID : string) : t :=
  alter (fun m => {| prunedIds := prunedIds m; lastPruneCount := 0 |})
        sessionID st.

Definition clear (st : t) (sessionID : string) : t := delete sessionID st.

(** The operations a client can issue, and their effect on the store. *)
Inductive op :=
| OpGet (sessionID : string)
| OpSet (sessionID : string) (ids : list string)
| OpGetLastPruneCount (sessionID : string)
| OpResetLastPruneCount (sessionID : string)
| OpClear (sessionID : string).

Definition step (st : t) (o : op) : t :=
  match o with
  | OpGet _ => st
  | OpSet s ids => set st s ids
  | OpGetLastPruneCount _ => st
  | OpResetLastPruneCount s => resetLastPruneCount st s
  | OpClear s => clear st s
  end.

Definition run (ops : list op) (st : t) : t := foldl step st ops.

(** The session an operation names. *)
Definition session_of (o : op) : string :=
  match o with
  | OpGet s | OpSet s _ | OpGetLastPruneCount s
  | OpResetLastPruneCount s | OpClear s => s
  end.

(** No operation of [ops] names the session [s]. *)
Definition leaves_alone (s : string) (ops : list op) : bool :=
  forallb (fun o => bool_decide (session_of o ≠ s)) ops.

Definition is_clear (o : op) : bool :=
  match o with OpClear _ => true | _ => false end.

(** No teardown among the operations. *)
Definition no_teardown (ops : list op) : bool := forallb (fun o => negb (is_clear o)) ops.

(** [ids] holds every identifier of [old]. *)
Definition covers (ids old : list string) : bool :=
  forallb (fun x => bool_decide (x ∈ ids)) old.

(** No teardown, and every [set] is handed a list that holds what the store
    has for that session at that moment (the way a [Janitor.run] calls it
    when nothing is written to the session between its read and its commit). *)
Fixpoint merging (st : t) (ops : list op) : bool :=
  match ops with
  | [] => true
  | o :: ops' =>
      match o with
      | OpSet s ids => covers ids (get st s)
      | OpClear _ => false
      | _ => true
      end && merging (step st o) ops'
  end.

End StateManager.

(** ** The host's structured messages and the Structural Mutator *)

Module Host.

(** [ToolStatus] of lib/state/types.ts *)
Inductive ToolStatus := pending | running | completed | error.

#[global] Instance ToolStatus_eq_dec : EqDecision ToolStatus.
Proof. solve_decision. Defined.

(** [part.state] of a tool part. [output] is present on completed calls;
    [state_rest] holds the properties the plugin never touches (title, time,
    metadata, error, ...). *)
Record ToolState := {
  status : ToolStatus;
  input : value;
  output : option string;
  state_rest : obj
}.

Record ToolPart := {
  callID : string;
  tool : string;
  state : ToolState;
  part_rest : obj
}.

(** [Part] of the SDK is a union discriminated by [type]; only the ["tool"]
    variant carries [callID], [tool] and [state]. *)
Inductive Part :=
| PTool (p : ToolPart)
| POther (type : string) (fields : obj).

Definition part_type (p : Part) : string :=
  match p with
  | PTool _ => "tool"
  | POther ty _ => ty
  end.

(** [WithParts] of lib/state/types.ts *)
Record WithParts := {
  info : obj;
  parts : list Part
}.

(** The slice of [SessionState] that the mutator reads: [state.prune.toolIds]. *)
Record Prune := { toolIds : list string }.
Record SessionState := { prune_ : Prune }.

Definition PRUNED_TOOL_INPUT_REPLACEMENT : string :=
  "[content removed to save context, this is not what was written to the file, but a placeholder]".
Definition PRUNED_TOOL_OUTPUT_REPLACEMENT : string :=
  "[Output removed to save context - information superseded or no longer needed]".
Definition PRUNED_TOOL_ERROR_INPUT_REPLACEMENT : string :=
  "[input removed due to failed tool call]".

Definition with_state (p : ToolPart) (s : ToolState) : ToolPart :=
  {| callID := callID p; tool := tool p; state := s; part_rest := part_rest p |}.

Definition with_output (s : ToolState) (o : option string) : ToolState :=
  {| status := status s; input := input s; output := o; state_rest := state_rest s |}.

Definition with_input (s : ToolState) (i : value) : ToolState :=
  {| status := status s; input := i; output := output s; state_rest := state_rest s |}.

(** [if (input?.k !== undefined) input.k = replacement] *)
Definition redact_field (k : string) (i : value) : value :=
  match i with
  | VObj o =>
      if is_undefined (lookup_field k o) then i
      else VObj (set_field k (VStr PRUNED_TOOL_INPUT_REPLACEMENT) o)
  | _ => i
  end.

(** Prune Outputs (skip write/edit) *)
Definition pruneOutput (p : ToolPart) : ToolPart :=
  if bool_decide (tool p ≠ "write") && bool_decide (tool p ≠ "edit") then
    if decide (status (state p) = completed) then
      with_state p (with_output (state p) (Some PRUNED_TOOL_OUTPUT_REPLACEMENT))
    else p
  else p.

(** Prune Inputs (only write/edit) *)
Definition pruneInput (p : ToolPart) : ToolPart :=
  if bool_decide (tool p = "write") || bool_decide (tool p = "edit") then
    if decide (status (state p) = completed) then
      let i0 := input (state p) in
      let i1 := if decide (tool p = "write") then redact_field "content" i0 else i0 in
      let i2 :=
        if decide (tool p = "edit")
        then redact_field "newString" (redact_field "oldString" i1)
        else i1 in
      with_state p (with_input (state p) i2)
    else p
  else p.

Definition redact_string (v : value) : value :=
  match v with
  | VStr _ => VStr PRUNED_TOOL_ERROR_INPUT_REPLACEMENT
  | _ => v
  end.

(** [for (const key of Object.keys(input)) if (typeof input[key] === "string") ...]
    on a truthy [input] of type "object": an object or an array. *)
Definition redact_error_input (i : value) : value :=
  match i with
  | VObj o => VObj (map (fun kv => (kv.1, redact_string kv.2)) o)
  | VArr xs => VArr (map redact_string xs)
  | _ => i
  end.

(** Prune Errors *)
Definition pruneError (p : ToolPart) : ToolPart :=
  if decide (status (state p) = error) then
    with_state p (with_input (state p) (redact_error_input (input (state p))))
  else p.

Definition prunePart (st : SessionState) (part : Part) : Part :=
  match part with
  | POther _ _ => part
  | PTool p =>
      if bool_decide (callID p ∈ toolIds (prune_ st))
      then PTool (pruneError (pruneInput (pruneOutput p)))
      else part
  end.

(** [i'] is [i] with the properties named in [ks] overwritten by the input
    placeholder wherever they were defined, and nothing else changed. *)
Definition overwritten_only (ks : list string) (i i' : value) : Prop :=
  match i with
  | VObj o =>
      ∃ o', i' = VObj o' ∧ map fst o' = map fst o ∧
        ∀ k, lookup_field k o' =
             if bool_decide (k ∈ ks) && negb (is_undefined (lookup_field k o))
             then VStr PRUNED_TOOL_INPUT_REPLACEMENT
             else lookup_field k o
  | _ => i' = i
  end.

(** [i'] is [i] with every string-valued property (or element, for an
    array) overwritten by the failed-call placeholder. *)
Definition strings_redacted (i i' : value) : Prop :=
  match i with
  | VObj o =>
      ∃ o', i' = VObj o' ∧ map fst o' = map fst o ∧
        ∀ k, lookup_field k o' =
             match lookup_field k o with
             | VStr _ => VStr PRUNED_TOOL_ERROR_INPUT_REPLACEMENT
             | v => v
             end
  | VArr xs =>
      ∃ xs', i' = VArr xs' ∧ length xs' = length xs ∧
        ∀ n v, xs !! n = Some v →
               xs' !! n = Some match v with
                               | VStr _ => VStr PRUNED_TOOL_ERROR_INPUT_REPLACEMENT
                               | _ => v
                               end
  | _ => i' = i
  end.

Section Mutator.
(** [isMessageCompacted] lives in lib/shared-utils, outside these sources. *)
Variable isMessageCompacted : SessionState → WithParts → bool.

Definition pruneMessage (st : SessionState) (msg : WithParts) : WithParts :=
  if isMessageCompacted st msg then msg
  else {| info := info msg; parts := map (prunePart st) (parts msg) |}.

Definition pruneMessages (st : SessionState) (messages : list WithParts)
  : list WithParts :=
  map (pruneMessage st) messages.

Definition prune (st : SessionState) (messages : list WithParts) : list WithParts :=
  pruneMessages st messages.
End Mutator.

End Host.

(** ** lib/janitor.ts: the Semantic Janitor *)

Module Janitor.
Import Host.

(** *** What a run can do to the outside world *)

Inductive level := Info | Debug | Error.

Inductive event :=
| EvLog (l : level) (message : string)            (* this.logger.info/debug/error *)
| EvFetch (sessionID : string)                    (* client.session.messages *)
| EvOracle (unpruned : list string)               (* generateObject *)
| EvSet (sessionID : string) (ids : list string)  (* stateManager.set *)
| EvToast (count tokens : nat).                   (* client.tui.showToast *)

(** [result.object] of the oracle call. *)
Record OracleResult := {
  pruned_tool_call_ids : list string;
  reasoning : string
}.

(** The external collaborators. A call that rejects, throws or, for the
    oracle, yields an object that does not match the schema (which makes
    [generateObject] throw) is [None] / [false]; what is thrown is an
    [Error], whose [message] the handlers log. *)
Record Env := {
  session_messages : string → option (list WithParts);
  generateObject : list string → list WithParts → option OracleResult;
  showToast : nat → nat → bool
}.

Record World := {
  store : StateManager.t;
  trace : list event
}.

(** How a block of statements ends. *)
Inductive completion (A : Type) :=
| Normal (a : A)
| Throws (message : string).
Arguments Normal {A} a.
Arguments Throws {A} message.

Definition M (A : Type) : Type := World → completion A * World.

Definition ret {A} (a : A) : M A := fun w => (Normal a, w).

Definition bind {A B} (m : M A) (k : A → M B) : M B :=
  fun w =>
    match m w with
    | (Normal a, w') => k a w'
    | (Throws e, w') => (Throws e, w')
    end.

Definition throw {A} (e : string) : M A := fun w => (Throws e, w).

(** [try { m } catch (error) { handler(error) }] *)
Definition try_catch {A} (m : M A) (handler : string → M A) : M A :=
  fun w =>
    match m w with
    | (Normal a, w') => (Normal a, w')
    | (Throws e, w') => handler e w'
    end.

#[global] Instance M_ret : MRet M := @ret.
#[global] Instance M_bind : MBind M := fun A B k m => bind m k.

Notation "m ;; k" := (bind m (fun _ => k))
  (at level 100, k at level 200, right associativity, only parsing).

Definition emit (e : event) : M unit :=
  fun w => (Normal tt, {| store := store w; trace := trace w ++ [e] |}).

Definition log (l : level) (message : string) : M unit := emit (EvLog l message).

Definition emit_all (es : list event) : M unit :=
  fun w => (Normal tt, {| store := store w; trace := trace w ++ es |}).

(** *** Other tasks

    [run] is an [async] function: at each [await] it is suspended and the
    other tasks of the process run, among them other runs for the same
    session, since nothing holds back the idle event that starts a run
    while one is in flight. What they do to the State Store goes through
    its operations. [Others] gives, for each [await] of [run], the
    operations that fall into that suspension; no loop of [run] awaits, so
    each is reached at most once. *)
Record Others := {
  during_fetch : list StateManager.op;   (* await this.client.session.messages(...) *)
  during_get : list StateManager.op;     (* await this.stateManager.get(sessionID) *)
  during_oracle : list StateManager.op;  (* await generateObject(...) *)
  during_set : list StateManager.op;     (* await this.stateManager.set(...) *)
  during_toast : list StateManager.op    (* await this.client.tui.showToast(...) *)
}.

(** No other task touches the store while the run is suspended. *)
Definition alone : Others :=
  {| during_fetch := []; during_get := []; during_oracle := [];
     during_set := []; during_toast := [] |}.

(** The suspension at an [await]: the callee has done its synchronous part,
    the operations of the other tasks take effect, then the run resumes. *)
Definition suspended (meanwhile : list StateManager.op) : M unit :=
  fun w => (Normal tt, {| store := StateManager.run meanwhile (store w);
                          trace := trace w |}).

Definition fetch (env : Env) (sessionID : string) (meanwhile : list StateManager.op)
  : M (list WithParts) :=
  emit (EvFetch sessionID);;
  suspended meanwhile;;
  match session_messages env sessionID with
  | Some messages => ret messages
  | None => throw "session.messages failed"
  end.

Definition oracle (env : Env) (unpruned : list string) (messages : list WithParts)
    (meanwhile : list StateManager.op) : M OracleResult :=
  emit (EvOracle unpruned);;
  suspended meanwhile;;
  match generateObject env unpruned messages with
  | Some r => ret r
  | None => throw "generateObject failed"
  end.

Definition toast (env : Env) (count tokens : nat) (meanwhile : list StateManager.op)
  : M unit :=
  emit (EvToast count tokens);;
  suspended meanwhile;;
  if showToast env count tokens then ret tt else throw "showToast failed".

(** [await this.stateManager.get(sessionID)]: the list is read when the
    method is called, and handed over when the run resumes. *)
Definition stateManager_get (sessionID : string) (meanwhile : list StateManager.op)
  : M (list string) :=
  prunedIds ← (fun w => (Normal (StateManager.get (store w) sessionID), w));
  suspended meanwhile;;
  ret prunedIds.

(** [await this.stateManager.set(sessionID, ids)]: the entry is written when
    the method is called. *)
Definition stateManager_set (sessionID : string) (ids : list string)
    (meanwhile : list StateManager.op) : M unit :=
  (fun w =>
     (Normal tt,
      {| store := StateManager.set (store w) sessionID ids;
         trace := trace w ++ [EvSet sessionID ids] |}));;
  suspended meanwhile.

(** *** The scan of the history

    The locals of the loop over the messages; [scan_log] collects the
    logger calls the loop makes on its way. *)

Record Scan := {
  toolCallIds : list string;
  toolOutputs : gmap string string;                (* callID -> output *)
  batchToolChildren : gmap string (list string);   (* batchID -> [childIDs] *)
  currentBatchId : option string;
  scan_log : list event
}.

Definition scan_start : Scan :=
  {| toolCallIds := []; toolOutputs := ∅; batchToolChildren := ∅;
     currentBatchId := None; scan_log := [] |}.

(** One tool part with a truthy [callID]. [currentBatchId] is only ever set
    to such a [callID], so [Some b] is the truthy case of the source; and
    [b] is then a key of [batchToolChildren] (see [current_batch_recorded]),
    so the [alter] below is the source's [children.push]. *)
Definition scan_tool (sc : Scan) (p : ToolPart) : Scan :=
  let ids := toolCallIds sc ++ [callID p] in
  let outs :=
    match status (state p), output (state p) with
    | completed, Some o =>
        if truthy_string o then <[callID p := o]> (toolOutputs sc) else toolOutputs sc
    | _, _ => toolOutputs sc
    end in
  if decide (tool p = "batch") then
    {| toolCallIds := ids; toolOutputs := outs;
       batchToolChildren := <[callID p := []]> (batchToolChildren sc);
       currentBatchId := Some (callID p);
       scan_log := scan_log sc ++ [EvLog Debug "Found batch tool"] |}
  else
    match currentBatchId sc with
    | Some b =>
        if startsWith (callID p) "prt_" then
          {| toolCallIds := ids; toolOutputs := outs;
             batchToolChildren :=
               alter (fun children => children ++ [callID p]) b (batchToolChildren sc);
             currentBatchId := Some b;
             scan_log := scan_log sc ++ [EvLog Debug "Added child to batch tool"] |}
        else
          {| toolCallIds := ids; toolOutputs := outs;
             batchToolChildren := batchToolChildren sc;
             currentBatchId := None;
             scan_log := scan_log sc ++ [EvLog Debug "Batch tool ended"] |}
    | None =>
        {| toolCallIds := ids; toolOutputs := outs;
           batchToolChildren := batchToolChildren sc;
           currentBatchId := None;
           scan_log := scan_log sc |}
    end.

(** [if (part.type === "tool" && part.callID) ...] *)
Definition scan_part (sc : Scan) (part : Part) : Scan :=
  match part with
  | PTool p => if truthy_string (callID p) then scan_tool sc p else sc
  | POther _ _ => sc
  end.

Definition scan_message (sc : Scan) (msg : WithParts) : Scan :=
  foldl scan_part sc (parts msg).

Definition scan (messages : list WithParts) : Scan :=
  foldl scan_message scan_start messages.

(** *** Sets of identifiers, in insertion order *)

(** [Set.prototype.add] *)
Definition set_add (s : list string) (x : string) : list string :=
  if decide (x ∈ s) then s else s ++ [x].

(** [new Set(xs)], read back with the spread or [Array.from] *)
Definition set_of (xs : list string) : list string := foldl set_add [] xs.

(** Expand batch tool IDs to include their children. *)
Definition expand_step (children : gmap string (list string))
    (expanded : list string) (prunedId : string) : list string :=
  let expanded1 := set_add expanded prunedId in
  match children !! prunedId with
  | Some kids => foldl set_add expanded1 kids
  | None => expanded1
  end.

Definition expand (children : gmap string (list string)) (ids : list string)
  : list string :=
  foldl (expand_step children) [] ids.

(** The logger calls of the expansion loop: one for each identifier of the
    oracle that names a recorded batch. *)
Definition expand_log (children : gmap string (list string)) (ids : list string)
  : list event :=
  concat (map (fun prunedId =>
                 match children !! prunedId with
                 | Some _ => [EvLog Debug "Expanding batch tool to include children"]
                 | None => []
                 end) ids).

(** Characters of the cached outputs of the newly pruned identifiers. *)
Definition totalCharsSaved (outs : gmap string string) (ids : list string) : nat :=
  foldl (fun total id =>
           match outs !! id with
           | Some o => if truthy_string o then total + str_length o else total
           | None => total
           end) 0 ids.

(** [Math.round(n / 4)] on a natural number [n]. *)
Definition round_div4 (n : nat) : nat := (n + 2) / 4.

(** *** Janitor.run *)

Definition unprunedToolCallIds (already ids : list string) : list string :=
  filter (fun id => id ∉ already) ids.

Definition run_body (others : Others) (env : Env) (sessionID : string) : M unit :=
  log Debug "Fetching session messages";;
  messages ← fetch env sessionID (during_fetch others);
  log Debug "Retrieved messages";;
  if (length messages <? 3)%nat then
    log Debug "Too few messages to analyze, skipping"
  else
    let sc := scan messages in
    emit_all (scan_log sc);;
    (if (0 <? size (batchToolChildren sc))%nat
     then log Debug "Batch tool summary" else ret tt);;
    alreadyPrunedIds ← stateManager_get sessionID (during_get others);
    let unpruned := unprunedToolCallIds alreadyPrunedIds (toolCallIds sc) in
    log Debug "Found tool calls in session";;
    if (length unpruned =? 0)%nat then
      log Debug "No unpruned tool calls found, skipping analysis"
    else
      log Debug "Starting shadow inference";;
      result ← oracle env unpruned messages (during_oracle others);
      let finalPrunedIds := expand (batchToolChildren sc) (pruned_tool_call_ids result) in
      emit_all (expand_log (batchToolChildren sc) (pruned_tool_call_ids result));;
      log Info "Analysis complete";;
      let estimatedTokensSaved :=
        round_div4 (totalCharsSaved (toolOutputs sc) finalPrunedIds) in
      let allPrunedIds := set_of (alreadyPrunedIds ++ finalPrunedIds) in
      stateManager_set sessionID allPrunedIds (during_set others);;
      log Debug "Updated state manager";;
      if (0 <? length finalPrunedIds)%nat then
        try_catch
          (toast env (length finalPrunedIds) estimatedTokensSaved
             (during_toast others);;
           log Info "Toast notification shown")
          (fun _ => log Error "Failed to show toast notification")
      else ret tt.

(** [run], among the other tasks of the process. *)
Definition run_among (others : Others) (env : Env) (sessionID : string) : M unit :=
  log Info "Starting analysis";;
  try_catch (run_body others env sessionID)
    (fun _ => log Error "Analysis failed").

(** A run that no other task overlaps. *)
Definition run (env : Env) (sessionID : string) : M unit :=
  run_among alone env sessionID.

(** What the scan maintains. The last two hold for a history in which no
    call identifier occurs twice. *)
Record scan_inv (sc : Scan) : Prop := {
  inv_current :
    ∀ b, currentBatchId sc = Some b → is_Some (batchToolChildren sc !! b);
  inv_parent_seen :
    ∀ q, is_Some (batchToolChildren sc !! q) → q ∈ toolCallIds sc;
  inv_child_seen :
    ∀ q kids c, batchToolChildren sc !! q = Some kids → c ∈ kids →
                c ∈ toolCallIds sc;
  inv_disjoint :
    NoDup (toolCallIds sc) →
    ∀ q q' kids kids' c,
      q ≠ q' →
      batchToolChildren sc !! q = Some kids →
      batchToolChildren sc !! q' = Some kids' →
      c ∈ kids → c ∉ kids';
  inv_parent_not_child :
    NoDup (toolCallIds sc) →
    ∀ q kids q',
      batchToolChildren sc !! q = Some kids →
      is_Some (batchToolChildren sc !! q') → q' ∉ kids
}.

(** The store a run among [others] reads its session's list from, and the
    store it commits to. *)
Definition store_at_read (others : Others) (st : StateManager.t) : StateManager.t :=
  StateManager.run (during_fetch others) st.

Definition store_at_commit (others : Others) (st : StateManager.t) : StateManager.t :=
  StateManager.run (during_oracle others)
    (StateManager.run (during_get others) (store_at_read others st)).

(** Everything the other tasks do during a run that reaches all its
    [await]s, in order. *)
Definition all_others (others : Others) : list StateManager.op :=
  during_fetch others ++ during_get others ++ during_oracle others ++
  during_set others ++ during_toast others.

(** The events that reach the oracle, the State Store or the user. *)
Definition is_effect (e : event) : bool :=
  match e with
  | EvOracle _ | EvSet _ _ | EvToast _ _ => true
  | EvLog _ _ | EvFetch _ => false
  end.

(** The parts of a history, in the order the scan meets them. *)
Definition history_parts (messages : list WithParts) : list Part :=
  concat (map parts messages).

(** The call identifier a part contributes to the scan, if any. *)
Definition tool_id (part : Part) : option string :=
  match part with
  | PTool p => if truthy_string (callID p) then Some (callID p) else None
  | POther _ _ => None
  end.

Definition is_oracle_call (e : event) : bool :=
  match e with EvOracle _ => true | _ => false end.

(** How many times the oracle was called. *)
Definition oracle_calls (es : list event) : nat :=
  length (List.filter is_oracle_call es).

(** A call that belongs to a running batch: a parallel call that is not
    itself a batch. *)
Definition is_batch_child (p : ToolPart) : bool :=
  bool_decide (tool p ≠ "batch") && startsWith (callID p) "prt_".

(** The tool part the scan takes from a part, if any. *)
Definition scanned (part : Part) : option ToolPart :=
  match part with
  | PTool p => if truthy_string (callID p) then Some p else None
  | POther _ _ => None
  end.

(** The parts [rest] that follow a batch and its children close the batch
    [bid]: the first tool call among them is not a child, and none of them
    is a batch call with the identifier [bid] again. *)
Definition closes_batch (bid : string) (rest : list Part) : bool :=
  match omap scanned rest with
  | [] => true
  | e :: _ => negb (is_batch_child e)
  end &&
  forallb (fun p => negb (bool_decide (tool p = "batch") &&
                          bool_decide (callID p = bid)))
          (omap scanned rest).

(** Where a cached output comes from. *)
Definition output_of (ps : list Part) (cid o : string) : Prop :=
  ∃ p, PTool p ∈ ps ∧ callID p = cid ∧ status (state p) = completed ∧
       output (state p) = Some o ∧ truthy_string o = true.

(** What the scan has recorded after the parts [seen]. *)
Definition batches_sound (seen : list Part) (sc : Scan) : Prop :=
  ∀ q kids,
    batchToolChildren sc !! q = Some kids →
    (∃ p, PTool p ∈ seen ∧ tool p = "batch" ∧ callID p = q) ∧
    ∀ c, c ∈ kids →
         ∃ p, PTool p ∈ seen ∧ callID p = c ∧ is_batch_child p = true.

(** No oracle call, no write to the State Store, no notification. *)
Definition quiet (es : list event) : Prop :=
  Forall (fun e => is_effect e = false) es.

End Janitor.

(** ** The Bedrock format descriptor (lib/fetch-wrapper/formats/bedrock.ts) *)

Module Bedrock.

(** *** The wire format, as far as the descriptor reads it

    The request body is parsed JSON in the shape of the Converse API: the
    messages are objects, the elements of a content array are objects, and
    identifiers are strings. Every record names the properties the code reads and keeps the others
    in a [_rest] object, so that a spread copy is a record update. An
    optional property that is absent (or [undefined]) is [None]. *)

Record ToolUse := {
  tu_toolUseId : option string;
  tu_name : string;
  tu_input : value;
  tu_rest : obj
}.

Record ToolResult := {
  tr_toolUseId : option string;
  tr_content : value;
  tr_rest : obj        (* status, ... *)
}.

(** An element of a message's [content] array: a Bedrock block ([toolUse],
    [toolResult]) or, for the helpers shared with the chat-completions
    format, a typed part ([type], [text], [tool_use_id]). *)
Record Block := {
  b_type : option string;
  b_text : option string;         (* [Some] when [typeof part.text === 'string'] *)
  tool_use_id : option string;
  toolUse : option ToolUse;
  toolResult : option ToolResult;
  block_rest : obj                (* cachePoint, ... *)
}.

Inductive Content :=
| CString (s : string)
| CArray (blocks : list Block)
| COther (v : value).             (* neither a string nor an array *)

Record Message := {
  role : string;
  content : Content;
  tool_call_id : option string;
  message_rest : obj
}.

(** [messages] is [Some] exactly when [body.messages] is an array. *)
Record Body := {
  system : value;
  inferenceConfig : value;
  messages : option (list Message);
  body_rest : obj
}.

(** [ToolParameterEntry] of lib/state/types.ts *)
Record ToolParameterEntry := {
  tool : string;
  parameters : value;
  status : option Host.ToolStatus;
  error : option string
}.

(** The slice of [PluginState] the descriptor touches. *)
Record PluginState := {
  toolParameters : gmap string ToolParameterEntry
}.

Record ToolOutput := {
  id : string;
  toolName : option string
}.

Record ToolTracker := {
  seenToolResultIds : gset string;
  toolResultCount : nat;
  getToolName : option (string → option string)
}.

(** A property that is present and truthy. *)
Definition truthy (o : option string) : bool :=
  match o with
  | Some s => truthy_string s
  | None => false
  end.

(** *** Format-specific injection helpers *)

Definition isNudgeMessage (msg : Message) (nudgeText : string) : bool :=
  match content msg with
  | CString s => bool_decide (s = nudgeText)
  | _ => false
  end.

Definition with_content (m : Message) (c : Content) : Message :=
  {| role := role m; content := c; tool_call_id := tool_call_id m;
     message_rest := message_rest m |}.

(** [{ type: 'text', text: instruction }] *)
Definition text_part (instruction : string) : Block :=
  {| b_type := Some "text"; b_text := Some instruction; tool_use_id := None;
     toolUse := None; toolResult := None; block_rest := [] |}.

Definition has_instruction (instruction : string) (part : Block) : bool :=
  match b_type part, b_text part with
  | Some ty, Some t => bool_decide (ty = "text") && includes t instruction
  | _, _ => false
  end.

(** The loop [for (let i = messages.length - 1; i >= 0; i--)], entered with
    [n = i + 1]. The index is always in range. *)
Fixpoint injectSynth_loop (n : nat) (messages : list Message)
    (instruction nudgeText : string) : list Message * bool :=
  match n with
  | O => (messages, false)
  | S i =>
      match messages !! i with
      | None => (messages, false)
      | Some msg =>
          if decide (role msg = "user") then
            if isNudgeMessage msg nudgeText then
              injectSynth_loop i messages instruction nudgeText
            else
              match content msg with
              | CString s =>
                  if includes s instruction then (messages, false)
                  else
                    (<[i := with_content msg
                              (CString (s +:+ two_newlines +:+ instruction))]> messages,
                     true)
              | CArray parts =>
                  if existsb (has_instruction instruction) parts
                  then (messages, false)
                  else
                    (<[i := with_content msg
                              (CArray (parts ++ [text_part instruction]))]> messages,
                     true)
              | COther _ => (messages, true)
              end
          else injectSynth_loop i messages instruction nudgeText
      end
  end.

Definition injectSynth (messages : list Message) (instruction nudgeText : string)
  : list Message * bool :=
  injectSynth_loop (length messages) messages instruction nudgeText.

(** One result identifier met by [trackNewToolResults]; the second component
    is [newCount]. *)
Definition track_id (protectedTools : gset string)
    (acc : ToolTracker * nat) (rid : string) : ToolTracker * nat :=
  let '(tracker, newCount) := acc in
  if decide (rid ∈ seenToolResultIds tracker) then acc
  else
    let seen := {[rid]} ∪ seenToolResultIds tracker in
    let name :=
      match getToolName tracker with
      | Some f => f rid
      | None => None
      end in
    if negb (truthy name) ||
       match name with Some n => bool_decide (n ∉ protectedTools) | None => true end
    then
      ({| seenToolResultIds := seen;
          toolResultCount := S (toolResultCount tracker);
          getToolName := getToolName tracker |}, S newCount)
    else
      ({| seenToolResultIds := seen;
          toolResultCount := toolResultCount tracker;
          getToolName := getToolName tracker |}, newCount).

Definition track_part (protectedTools : gset string)
    (acc : ToolTracker * nat) (part : Block) : ToolTracker * nat :=
  match b_type part, tool_use_id part with
  | Some ty, Some rid =>
      if bool_decide (ty = "tool_result") && truthy_string rid
      then track_id protectedTools acc rid
      else acc
  | _, _ => acc
  end.

Definition track_message (protectedTools : gset string)
    (acc : ToolTracker * nat) (m : Message) : ToolTracker * nat :=
  if bool_decide (role m = "tool") && truthy (tool_call_id m) then
    match tool_call_id m with
    | Some rid => track_id protectedTools acc rid
    | None => acc
    end
  else if decide (role m = "user") then
    match content m with
    | CArray parts => foldl (track_part protectedTools) acc parts
    | _ => acc
    end
  else acc.

Definition trackNewToolResults (messages : list Message) (tracker : ToolTracker)
    (protectedTools : gset string) : ToolTracker * nat :=
  foldl (track_message protectedTools) (tracker, 0) messages.

(** [injectPrunableList]: nothing for an empty injection, else one more
    user message whose content is the injection. *)
Definition injectPrunableList (messages : list Message) (injection : string)
  : list Message * bool :=
  if truthy_string injection then
    (messages ++ [{| role := "user"; content := CString injection;
                     tool_call_id := None; message_rest := [] |}], true)
  else (messages, false).

(** *** Format descriptor *)

Section Lowering.
(** The host's [toLowerCase]. *)
Context {host_case : Lowercase}.

Definition detect (body : Body) : bool :=
  isArray (system body) &&
  negb (is_undefined (inferenceConfig body)) &&
  bool_decide (is_Some (messages body)).

Definition getDataArray (body : Body) : option (list Message) := messages body.

(** The body after its [messages] array was updated in place to [data]. *)
Definition with_messages (body : Body) (data : list Message) : Body :=
  {| system := system body; inferenceConfig := inferenceConfig body;
     messages := Some data; body_rest := body_rest body |}.

Definition cache_block (st : PluginState) (block : Block) : PluginState :=
  match toolUse block with
  | Some tu =>
      match tu_toolUseId tu with
      | Some tid =>
          if truthy_string tid then
            {| toolParameters :=
                 <[toLowerCase tid :=
                     {| tool := tu_name tu; parameters := tu_input tu;
                        status := None; error := None |}]> (toolParameters st) |}
          else st
      | None => st
      end
  | None => st
  end.

Definition cache_message (st : PluginState) (m : Message) : PluginState :=
  if decide (role m = "assistant") then
    match content m with
    | CArray blocks => foldl cache_block st blocks
    | _ => st
    end
  else st.

Section Cache.
(** The generic message caching of lib/state/tool-cache, outside these
    sources. *)
Variable cacheToolParametersFromMessages :
  list Message → PluginState → PluginState.

Definition cacheToolParameters (data : list Message) (st : PluginState)
  : PluginState :=
  cacheToolParametersFromMessages data (foldl cache_message st data).
End Cache.

Definition extract_block (st : PluginState) (outputs : list ToolOutput)
    (block : Block) : list ToolOutput :=
  match toolResult block with
  | Some tr =>
      match tr_toolUseId tr with
      | Some tid =>
          if truthy_string tid then
            let toolUseId := toLowerCase tid in
            let metadata := toolParameters st !! toolUseId in
            outputs ++ [{| id := toolUseId; toolName := tool <$> metadata |}]
          else outputs
      | None => outputs
      end
  | None => outputs
  end.

Definition extract_message (st : PluginState) (outputs : list ToolOutput)
    (m : Message) : list ToolOutput :=
  if decide (role m = "user") then
    match content m with
    | CArray blocks => foldl (extract_block st) outputs blocks
    | _ => outputs
    end
  else outputs.

Definition extractToolOutputs (data : list Message) (st : PluginState)
  : list ToolOutput :=
  foldl (extract_message st) [] data.

(** [block.toolResult && block.toolResult.toolUseId?.toLowerCase() === toolIdLower] *)
Definition is_result_for (toolIdLower : string) (block : Block) : bool :=
  match toolResult block with
  | Some tr =>
      match tr_toolUseId tr with
      | Some tid => bool_decide (toLowerCase tid = toolIdLower)
      | None => false
      end
  | None => false
  end.

(** [{ ...block, toolResult: { ...block.toolResult, content: [{ text: prunedMessage }] } }] *)
Definition pruned_result (prunedMessage : string) (tr : ToolResult) : ToolResult :=
  {| tr_toolUseId := tr_toolUseId tr;
     tr_content := VArr [VObj [("text", VStr prunedMessage)]];
     tr_rest := tr_rest tr |}.

Definition pruned_block (prunedMessage : string) (block : Block) : Block :=
  {| b_type := b_type block; b_text := b_text block;
     tool_use_id := tool_use_id block; toolUse := toolUse block;
     toolResult := pruned_result prunedMessage <$> toolResult block;
     block_rest := block_rest block |}.

Definition replace_block (toolIdLower prunedMessage : string) (block : Block) : Block :=
  if is_result_for toolIdLower block then pruned_block prunedMessage block else block.

(** One turn of the loop: the new [data[i]] and whether it was modified. *)
Definition replace_message (toolIdLower prunedMessage : string) (m : Message)
  : Message * bool :=
  if decide (role m = "user") then
    match content m with
    | CArray blocks =>
        let messageModified := existsb (is_result_for toolIdLower) blocks in
        let newContent := map (replace_block toolIdLower prunedMessage) blocks in
        if messageModified then (with_content m (CArray newContent), true)
        else (m, false)
    | _ => (m, false)
    end
  else (m, false).

Fixpoint replace_loop (toolIdLower prunedMessage : string) (data : list Message)
  : list Message * bool :=
  match data with
  | [] => ([], false)
  | m :: rest =>
      let '(m', modified) := replace_message toolIdLower prunedMessage m in
      let '(rest', replaced) := replace_loop toolIdLower prunedMessage rest in
      (m' :: rest', modified || replaced)
  end.

Definition replaceToolOutput (data : list Message) (toolId prunedMessage : string)
  : list Message * bool :=
  replace_loop (toLowerCase toolId) prunedMessage data.

Definition hasToolOutputs (data : list Message) : bool :=
  existsb (fun m =>
             bool_decide (role m = "user") &&
             match content m with
             | CArray blocks => existsb (fun b => bool_decide (is_Some (toolResult b))) blocks
             | _ => false
             end) data.

(** *** Vocabulary for the properties *)

(** The result identifiers [trackNewToolResults] meets, in order. *)
Definition part_result_id (part : Block) : option string :=
  match b_type part, tool_use_id part with
  | Some ty, Some rid =>
      if bool_decide (ty = "tool_result") && truthy_string rid then Some rid else None
  | _, _ => None
  end.

Definition message_result_ids (m : Message) : list string :=
  if bool_decide (role m = "tool") && truthy (tool_call_id m) then
    option_list (tool_call_id m)
  else if decide (role m = "user") then
    match content m with
    | CArray parts => omap part_result_id parts
    | _ => []
    end
  else [].

Definition result_ids (messages : list Message) : list string :=
  concat (map message_result_ids messages).

(** The identifier a [toolUse] block is cached under, if it is cached. *)
Definition cache_key (block : Block) : option string :=
  match toolUse block with
  | Some tu =>
      match tu_toolUseId tu with
      | Some tid => if truthy_string tid then Some (toLowerCase tid) else None
      | None => None
      end
  | None => None
  end.

(** The blocks of the content arrays of the messages with role [r]. *)
Definition blocks_of (r : string) (data : list Message) : list Block :=
  concat (map (fun m =>
                 if decide (role m = r) then
                   match content m with CArray blocks => blocks | _ => [] end
                 else []) data).

(** [block] is a [toolResult] block whose [toolUseId] equals [toolId] up to
    case. *)
Definition names_result (toolId : string) (block : Block) : Prop :=
  ∃ tr tid,
    toolResult block = Some tr ∧ tr_toolUseId tr = Some tid ∧
    toLowerCase tid = toLowerCase toolId.

(** [block'] is [block] with the content of its [toolResult] replaced by the
    single text [text] and every other property as it was. *)
Definition overwritten_block (text : string) (block block' : Block) : Prop :=
  b_type block' = b_type block ∧ b_text block' = b_text block ∧
  tool_use_id block' = tool_use_id block ∧ toolUse block' = toolUse block ∧
  block_rest block' = block_rest block ∧
  ∃ tr tr',
    toolResult block = Some tr ∧ toolResult block' = Some tr' ∧
    tr_toolUseId tr' = tr_toolUseId tr ∧ tr_rest tr' = tr_rest tr ∧
    tr_content tr' = VArr [VObj [("text", VStr text)]].

(** A user turn the injection does not skip. *)
Definition genuine_user (nudgeText : string) (m : Message) : Prop :=
  role m = "user" ∧ isNudgeMessage m nudgeText = false.

(** *** Identifiers up to case *)

Definition lower_id (o : option string) : option string := toLowerCase <$> o.

Definition lower_block (b : Block) : Block :=
  {| b_type := b_type b; b_text := b_text b; tool_use_id := tool_use_id b;
     toolUse :=
       (fun tu => {| tu_toolUseId := lower_id (tu_toolUseId tu);
                     tu_name := tu_name tu; tu_input := tu_input tu;
                     tu_rest := tu_rest tu |}) <$> toolUse b;
     toolResult :=
       (fun tr => {| tr_toolUseId := lower_id (tr_toolUseId tr);
                     tr_content := tr_content tr; tr_rest := tr_rest tr |})
         <$> toolResult b;
     block_rest := block_rest b |}.

Definition lower_message (m : Message) : Message :=
  match content m with
  | CArray blocks => with_content m (CArray (map lower_block blocks))
  | _ => m
  end.

(** The same data with every [toolUseId] in lower case: two arrays with the
    same image differ only in the case of these identifiers. *)
Definition lower_ids (data : list Message) : list Message := map lower_message data.

End Lowering.

End Bedrock.

(** ** lib/tokenizer.ts *)

Module Tokenizer.

Section Encode.
(** [encode] of gpt-tokenizer; [None] when it throws. *)
Variable encode : string → option (list nat).

(** [texts.map(text => encode(text).length)]: the first throw ends the map. *)
Fixpoint count_all (texts : list string) : option (list nat) :=
  match texts with
  | [] => Some []
  | text :: rest =>
      match encode text with
      | None => None
      | Some tokens =>
          match count_all rest with
          | None => None
          | Some counts => Some (length tokens :: counts)
          end
      end
  end.

(** [estimateTokensBatch], called without a logger. The fallback of the
    catch block estimates every text by its length. *)
Definition estimateTokensBatch (texts : list string) : list nat :=
  match count_all texts with
  | Some results => results
  | None => map (fun text => Janitor.round_div4 (str_length text)) texts
  end.
End Encode.

End Tokenizer.

(** ** Sample inputs *)

Module Samples.
Import Host.

Definition never_compacted : SessionState → WithParts → bool := fun _ _ => false.

Definition tool_part (cid name : string) (st : ToolStatus) (i : value)
    (o : option string) : ToolPart :=
  {| callID := cid; tool := name;
     state := {| status := st; input := i; output := o; state_rest := [] |};
     part_rest := [] |}.

Definition write_part : ToolPart :=
  tool_part "call_1" "write" completed
    (VObj [("filePath", VStr "notes.txt"); ("content", VStr "a long text")])
    (Some "written").

Definition failed_bash_part : ToolPart :=
  tool_part "call_2" "bash" error
    (VObj [("command", VStr "make test"); ("timeout", VNum 60)]) None.

Definition message_of (ps : list ToolPart) : WithParts :=
  {| info := []; parts := map PTool ps |}.

Definition pruned (ids : list string) : SessionState :=
  {| prune_ := {| toolIds := ids |} |}.

(** A history with a batch of two parallel reads followed by a plain read. *)
Definition batch_part : ToolPart :=
  tool_part "call_b" "batch" completed (VObj []) (Some "done").
Definition child_part_1 : ToolPart :=
  tool_part "prt_1" "read" completed (VObj []) (Some "12345678").
Definition child_part_2 : ToolPart :=
  tool_part "prt_2" "read" completed (VObj []) (Some "abc").
Definition read_part : ToolPart :=
  tool_part "call_r" "read" completed (VObj []) (Some "xyz").

Definition history : list WithParts :=
  [message_of [batch_part; child_part_1; child_part_2];
   message_of [read_part];
   message_of []].

Definition short_history : list WithParts := [message_of [read_part]].

(** An orchestrator that serves [h], with the given oracle answer. *)
Definition env_of (h : list WithParts) (answer : option Janitor.OracleResult)
  : Janitor.Env :=
  {| Janitor.session_messages := fun _ => Some h;
     Janitor.generateObject := fun _ _ => answer;
     Janitor.showToast := fun _ _ => true |}.

Definition names_batch : Janitor.OracleResult :=
  {| Janitor.pruned_tool_call_ids := ["call_b"]; Janitor.reasoning := "superseded" |}.

(** Wire messages. *)
Definition result_block (tid text : string) : Bedrock.Block :=
  {| Bedrock.b_type := None; Bedrock.b_text := None; Bedrock.tool_use_id := None;
     Bedrock.toolUse := None;
     Bedrock.toolResult :=
       Some {| Bedrock.tr_toolUseId := Some tid;
               Bedrock.tr_content := VArr [VObj [("text", VStr text)]];
               Bedrock.tr_rest := [("status", VStr "success")] |};
     Bedrock.block_rest := [] |}.

Definition use_block (tid name : string) : Bedrock.Block :=
  {| Bedrock.b_type := None; Bedrock.b_text := None; Bedrock.tool_use_id := None;
     Bedrock.toolUse :=
       Some {| Bedrock.tu_toolUseId := Some tid; Bedrock.tu_name := name;
               Bedrock.tu_input := VObj [("path", VStr "a.txt")];
               Bedrock.tu_rest := [] |};
     Bedrock.toolResult := None;
     Bedrock.block_rest := [] |}.

Definition message (r : string) (c : Bedrock.Content) (rid : option string)
  : Bedrock.Message :=
  {| Bedrock.role := r; Bedrock.content := c; Bedrock.tool_call_id := rid;
     Bedrock.message_rest := [] |}.

Definition user_text (s : string) : Bedrock.Message :=
  message "user" (Bedrock.CString s) None.

Definition tool_message (rid : string) : Bedrock.Message :=
  message "tool" (Bedrock.CString "ok") (Some rid).

Definition conversation : list Bedrock.Message :=
  [message "user" (Bedrock.CArray [Bedrock.text_part "read a.txt"]) None;
   message "assistant" (Bedrock.CArray [use_block "tooluse_AbC" "read"]) None;
   message "user" (Bedrock.CArray [result_block "tooluse_AbC" "file body"]) None].

(** The same conversation with the identifiers in another case. *)
Definition conversation_upper : list Bedrock.Message :=
  [message "user" (Bedrock.CArray [Bedrock.text_part "read a.txt"]) None;
   message "assistant" (Bedrock.CArray [use_block "TOOLUSE_ABC" "read"]) None;
   message "user" (Bedrock.CArray [result_block "TOOLUSE_abc" "file body"]) None].

Definition bedrock_body (data : list Bedrock.Message) : Bedrock.Body :=
  {| Bedrock.system := VArr [VObj [("text", VStr "be brief")]];
     Bedrock.inferenceConfig := VObj [("maxTokens", VNum 1024)];
     Bedrock.messages := Some data;
     Bedrock.body_rest := [] |}.

Definition no_state : Bedrock.PluginState := {| Bedrock.toolParameters := ∅ |}.

Definition tracker_seen (ids : list string) : Bedrock.ToolTracker :=
  {| Bedrock.seenToolResultIds := list_to_set ids;
     Bedrock.toolResultCount := length ids;
     Bedrock.getToolName := None |}.

Definition names_read : Janitor.OracleResult :=
  {| Janitor.pruned_tool_call_ids := ["call_r"]; Janitor.reasoning := "read again" |}.

(** Another run for the session [ses_1], which names [call_r], starts and
    commits while this one awaits the oracle. *)
Definition overlapped : Janitor.Others :=
  {| Janitor.during_fetch := []; Janitor.during_get := [];
     Janitor.during_oracle := [StateManager.OpSet "ses_1" ["call_r"]];
     Janitor.during_set := []; Janitor.during_toast := [] |}.

(** A run for another session commits while this one awaits the oracle. *)
Definition busy_elsewhere : Janitor.Others :=
  {| Janitor.during_fetch := []; Janitor.during_get := [];
     Janitor.during_oracle := [StateManager.OpSet "ses_2" ["call_z"]];
     Janitor.during_set := []; Janitor.during_toast := [] |}.
Definition fresh_world : Janitor.World :=
  {| Janitor.store := ∅; Janitor.trace := [] |}.

Definition world_with (sessionID : string) (ids : list string) : Janitor.World :=
  {| Janitor.store := StateManager.set ∅ sessionID ids; Janitor.trace := [] |}.

End Samples.

(** * Properties *)

(** ** The State Store *)

Section StateManagerFacts.
Import StateManager.

Lemma get_set_same (st : t) s ids : get (set st s ids) s = ids.
Proof. unfold get, set. by rewrite lookup_insert_eq. Qed.

Lemma get_set_other (st : t) s s' ids : s ≠ s' → get (set st s ids) s' = get st s'.
Proof. intros Hne. unfold get, set. by rewrite lookup_insert_ne. Qed.

Lemma get_reset (st : t) s s' : get (resetLastPruneCount st s) s' = get st s'.
Proof.
  unfold get, resetLastPruneCount. rewrite lookup_alter.
  case_decide; subst; [|done]. by destruct (st !! s').
Qed.

Lemma covers_spec ids old : covers ids old = true ↔ ∀ x, x ∈ old → x ∈ ids.
Proof.
  unfold covers. rewrite forallb_forall. split.
  - intros H x Hx. apply list_elem_of_In, H in Hx. by apply bool_decide_eq_true in Hx.
  - intros H x Hx. apply bool_decide_eq_true, H, list_elem_of_In, Hx.
Qed.

(** One operation of a merging sequence keeps every stored identifier. *)
Lemma step_keeps (st : t) o ops s x :
  merging st (o :: ops) = true → x ∈ get st s → x ∈ get (step st o) s.
Proof.
  simpl. intros [Ho _]%andb_true_iff Hx.
  destruct o as [s'|s' ids|s'|s'|s']; simpl; try done.
  - destruct (decide (s' = s)) as [->|Hne].
    + rewrite get_set_same. by eapply covers_spec.
    + by rewrite get_set_other.
  - by rewrite get_reset.
Qed.

Lemma merging_app (st : t) ops1 ops2 :
  merging st (ops1 ++ ops2) = true →
  merging st ops1 = true ∧ merging (run ops1 st) ops2 = true.
Proof.
  revert st. induction ops1 as [|o ops1 IH]; intros st; simpl; [done|].
  intros [Ho Hrest]%andb_true_iff. destruct (IH _ Hrest) as [H1 H2].
  split; [|done]. by rewrite Ho, H1.
Qed.

Lemma run_keeps (st : t) ops s x :
  merging st ops = true → x ∈ get st s → x ∈ get (run ops st) s.
Proof.
  revert st. induction ops as [|o ops IH]; intros st Hm Hx; [done|].
  simpl. apply IH.
  - simpl in Hm. by apply andb_true_iff in Hm as [_ ?].
  - by eapply step_keeps.
Qed.

(** C1, as amended. [set] replaces the stored list, so the result of [get]
    is non-decreasing along the sequences of operations without teardown
    in which every [set] is handed a list that holds the identifiers stored
    for the session at that moment: an identifier returned by [get] after
    a prefix of such a sequence is returned by [get] after every extension
    of the prefix. Setting again what is stored changes the result of no
    [get]; no operation fails. *)
Theorem get_monotone_under_merging_sets (st : t) (ops1 ops2 : list op) (s x : string) :
  merging st (ops1 ++ ops2) = true →
  x ∈ get (run ops1 st) s →
  x ∈ get (run (ops1 ++ ops2) st) s ∧
  (∀ s', get (set (run ops1 st) s (get (run ops1 st) s)) s' = get (run ops1 st) s').
Proof.
  intros Hm Hx. apply merging_app in Hm as [_ Hm2]. split.
  - unfold run. rewrite foldl_app. by apply run_keeps.
  - intros s'. destruct (decide (s = s')) as [->|Hne].
    + by rewrite get_set_same.
    + by rewrite get_set_other.
Qed.

Lemma get_monotone_under_merging_sets_witness :
  "a" ∈ get (run ([OpSet "s" ["a"]] ++ [OpSet "s" ["a"; "b"]; OpResetLastPruneCount "s"]) ∅) "s" ∧
  (∀ s', get (set (run [OpSet "s" ["a"]] ∅) "s" (get (run [OpSet "s" ["a"]] ∅) "s")) s'
         = get (run [OpSet "s" ["a"]] ∅) s').
Proof.
  apply (get_monotone_under_merging_sets ∅ [OpSet "s" ["a"]]
           [OpSet "s" ["a"; "b"]; OpResetLastPruneCount "s"] "s" "a").
  - vm_compute. reflexivity.
  - apply (bool_decide_unpack _). vm_compute. exact I.
Defined.

(** C1 as stated fails: a later [set] with a shorter list drops an
    identifier that an earlier [get] returned, with no teardown between. *)
Lemma set_overwrite_drops_identifier :
  ¬ (∀ (st : t) (ops1 ops2 : list op) (s x : string),
       no_teardown (ops1 ++ ops2) = true →
       x ∈ get (run ops1 st) s →
       x ∈ get (run (ops1 ++ ops2) st) s).
Proof.
  intros H.
  specialize (H ∅ [OpSet "s" ["a"]] [OpSet "s" []] "s" "a" eq_refl).
  simpl in H. rewrite !get_set_same in H.
  specialize (H ltac:(by apply list_elem_of_singleton)).
  by apply elem_of_nil in H.
Qed.
End StateManagerFacts.

(** ** The State Store: an operation touches one entry *)

Section StoreEntries.
Import StateManager.

(** What an operation does to the entry of a session depends on that entry
    only. *)
Lemma step_entry_local (st1 st2 : t) o s :
  st1 !! s = st2 !! s → step st1 o !! s = step st2 o !! s.
Proof.
  intros Heq. destruct o as [s'|s' ids|s'|s'|s']; simpl; try done.
  - unfold set. destruct (decide (s' = s)) as [->|Hne].
    + by rewrite !lookup_insert_eq, Heq.
    + by rewrite !lookup_insert_ne.
  - unfold resetLastPruneCount. destruct (decide (s' = s)) as [->|Hne].
    + by rewrite !lookup_alter_eq, Heq.
    + by rewrite !lookup_alter_ne.
  - unfold clear. destruct (decide (s' = s)) as [->|Hne].
    + by rewrite !lookup_delete_eq.
    + by rewrite !lookup_delete_ne.
Qed.

Lemma run_entry_local ops (st1 st2 : t) s :
  st1 !! s = st2 !! s → run ops st1 !! s = run ops st2 !! s.
Proof.
  revert st1 st2. induction ops as [|o ops IH]; intros st1 st2 Heq; [done|].
  change (run ops (step st1 o) !! s = run ops (step st2 o) !! s).
  apply IH. by apply step_entry_local.
Qed.

Lemma step_leaves_entry (st : t) o s :
  session_of o ≠ s → step st o !! s = st !! s.
Proof.
  intros Hne. destruct o as [s'|s' ids|s'|s'|s']; simpl in *; try done.
  - unfold set. by rewrite lookup_insert_ne.
  - unfold resetLastPruneCount. by rewrite lookup_alter_ne.
  - unfold clear. by rewrite lookup_delete_ne.
Qed.

Lemma run_leaves_entry ops (st : t) s :
  leaves_alone s ops = true → run ops st !! s = st !! s.
Proof.
  revert st. induction ops as [|o ops IH]; intros st Hal; [done|].
  simpl in Hal. apply andb_true_iff in Hal as [Ho Hrest].
  apply bool_decide_eq_true in Ho.
  change (run ops (step st o) !! s = st !! s).
  rewrite IH by done. by apply step_leaves_entry.
Qed.

Lemma run_app ops1 ops2 (st : t) : run (ops1 ++ ops2) st = run ops2 (run ops1 st).
Proof. unfold run. apply foldl_app. Qed.

Lemma leaves_alone_app s ops1 ops2 :
  leaves_alone s (ops1 ++ ops2) = leaves_alone s ops1 && leaves_alone s ops2.
Proof. unfold leaves_alone. apply forallb_app. Qed.

Lemma same_entry (st1 st2 : t) s :
  st1 !! s = st2 !! s →
  get st1 s = get st2 s ∧ getLastPruneCount st1 s = getLastPruneCount st2 s.
Proof. intros Heq. unfold get, getLastPruneCount. by rewrite Heq. Qed.

Lemma set_other_entry (st : t) s s' ids : s ≠ s' → set st s ids !! s' = st !! s'.
Proof. intros Hne. unfold set. by rewrite lookup_insert_ne. Qed.
End StoreEntries.

(** ** The Structural Mutator *)

Section FieldFacts.

Lemma lookup_set_field k k' v (o : obj) :
  lookup_field k (set_field k' v o) = if decide (k = k') then v else lookup_field k o.
Proof.
  induction o as [|[k0 v0] o IH]; simpl.
  - repeat case_decide; congruence.
  - repeat (case_decide; simpl; subst); try congruence.
Qed.

Lemma keys_set_field k v (o : obj) :
  is_undefined (lookup_field k o) = false → map fst (set_field k v o) = map fst o.
Proof.
  induction o as [|[k0 v0] o IH]; simpl; [done|].
  case_decide; simpl; subst; [done|]. intros Hu. by rewrite IH.
Qed.

Lemma lookup_map_values (f : value → value) k (o : obj) :
  f VUndef = VUndef →
  lookup_field k (map (fun kv => (kv.1, f kv.2)) o) = f (lookup_field k o).
Proof.
  intros Hf. induction o as [|[k0 v0] o IH]; simpl; [done|]. by case_decide.
Qed.

End FieldFacts.

Section MutatorFacts.
Import Host.
Variable isMessageCompacted : SessionState → WithParts → bool.

Lemma redact_field_spec k i : overwritten_only [k] i (redact_field k i).
Proof.
  unfold overwritten_only.
  destruct i as [| | | | | |o]; simpl; try done.
  destruct (is_undefined (lookup_field k o)) eqn:Hu.
  - exists o. repeat split. intros k'.
    case_bool_decide as Hk; simpl; [|done].
    apply list_elem_of_singleton in Hk as ->. by rewrite Hu.
  - eexists. split; [done|]. split; [by apply keys_set_field|].
    intros k'. rewrite lookup_set_field.
    case_decide as Hk; subst.
    + rewrite bool_decide_eq_true_2 by apply list_elem_of_singleton, eq_refl.
      by rewrite Hu.
    + rewrite bool_decide_eq_false_2; [done|].
      by intros ->%list_elem_of_singleton.
Qed.

Lemma redact_two_fields_spec k1 k2 i :
  overwritten_only [k1; k2] i (redact_field k2 (redact_field k1 i)).
Proof.
  pose proof (redact_field_spec k1 i) as H1.
  unfold overwritten_only in *.
  destruct i as [| | | | | |o]; try (rewrite H1; done).
  destruct H1 as (o1 & -> & Hk1 & Hl1).
  pose proof (redact_field_spec k2 (VObj o1)) as H2.
  unfold overwritten_only in H2. destruct H2 as (o2 & -> & Hk2 & Hl2).
  exists o2. split; [done|]. split; [congruence|].
  intros k. rewrite Hl2, !Hl1.
  destruct (is_undefined (lookup_field k o)) eqn:Hu;
    repeat case_bool_decide; simpl; rewrite ?Hu; simpl; try reflexivity;
    exfalso; set_unfold; intuition congruence.
Qed.

Lemma redact_error_input_spec i : strings_redacted i (redact_error_input i).
Proof.
  unfold strings_redacted.
  destruct i as [| | | | |xs|o]; simpl; try done.
  - eexists. split; [done|]. split; [by rewrite length_map|].
    intros n v Hn. rewrite list_lookup_fmap. rewrite Hn. simpl. by destruct v.
  - eexists. split; [done|]. split.
    + rewrite map_map. simpl. done.
    + intros k. rewrite (lookup_map_values redact_string) by done.
      by destruct (lookup_field k o).
Qed.

(** Where a part of a message that is not compacted ends up. *)
Lemma prune_lookup st msgs i msg j part :
  msgs !! i = Some msg →
  isMessageCompacted st msg = false →
  parts msg !! j = Some part →
  ∃ msg', prune isMessageCompacted st msgs !! i = Some msg' ∧
          info msg' = info msg ∧
          length (parts msg') = length (parts msg) ∧
          parts msg' !! j = Some (prunePart st part).
Proof.
  intros Hi Hc Hj. exists (pruneMessage isMessageCompacted st msg).
  unfold prune, pruneMessages. rewrite list_lookup_fmap, Hi. split; [done|].
  unfold pruneMessage. rewrite Hc. simpl. split; [done|].
  split; [by rewrite length_map|]. by rewrite list_lookup_fmap, Hj.
Qed.


Lemma prunePart_pruned st p :
  callID p ∈ toolIds (prune_ st) →
  prunePart st (PTool p) = PTool (pruneError (pruneInput (pruneOutput p))).
Proof. intros Hin. simpl. by rewrite bool_decide_eq_true_2. Qed.

Lemma prunePart_unpruned st p :
  callID p ∉ toolIds (prune_ st) → prunePart st (PTool p) = PTool p.
Proof. intros Hin. simpl. by rewrite bool_decide_eq_false_2. Qed.

Lemma pruneOutput_content_tool p :
  tool p = "write" ∨ tool p = "edit" → pruneOutput p = p.
Proof.
  intros [Ht|Ht]; unfold pruneOutput; rewrite Ht; reflexivity.
Qed.

Lemma pruneOutput_other_tool p :
  tool p ≠ "write" → tool p ≠ "edit" → status (state p) = completed →
  pruneOutput p =
  with_state p (with_output (state p) (Some PRUNED_TOOL_OUTPUT_REPLACEMENT)).
Proof.
  intros Hw He Hst. unfold pruneOutput.
  rewrite (bool_decide_eq_true_2 _ Hw), (bool_decide_eq_true_2 _ He). simpl.
  by rewrite decide_True.
Qed.

Lemma pruneOutput_not_completed p :
  status (state p) ≠ completed → pruneOutput p = p.
Proof.
  intros Hst. unfold pruneOutput. rewrite decide_False by done.
  by destruct (_ && _).
Qed.

Lemma pruneInput_write p :
  tool p = "write" → status (state p) = completed →
  pruneInput p =
  with_state p (with_input (state p) (redact_field "content" (input (state p)))).
Proof.
  intros Hw Hst. unfold pruneInput.
  rewrite (bool_decide_eq_true_2 _ Hw). simpl.
  rewrite (decide_True _ _ Hst), (decide_True _ _ Hw).
  rewrite decide_False; [done|]. by rewrite Hw.
Qed.

Lemma pruneInput_edit p :
  tool p = "edit" → status (state p) = completed →
  pruneInput p =
  with_state p
    (with_input (state p)
       (redact_field "newString" (redact_field "oldString" (input (state p))))).
Proof.
  intros He Hst. unfold pruneInput.
  rewrite (bool_decide_eq_true_2 _ He), orb_true_r.
  rewrite (decide_True _ _ Hst), (decide_True _ _ He).
  rewrite decide_False; [done|]. by rewrite He.
Qed.

Lemma pruneInput_other_tool p :
  tool p ≠ "write" → tool p ≠ "edit" → pruneInput p = p.
Proof.
  intros Hw He. unfold pruneInput.
  by rewrite (bool_decide_eq_false_2 _ Hw), (bool_decide_eq_false_2 _ He).
Qed.

Lemma pruneInput_not_completed p :
  status (state p) ≠ completed → pruneInput p = p.
Proof.
  intros Hst. unfold pruneInput. rewrite decide_False by done.
  by destruct (_ || _).
Qed.

Lemma pruneError_not_error p : status (state p) ≠ error → pruneError p = p.
Proof. intros Hst. unfold pruneError. by rewrite decide_False. Qed.

(** C6. In a message that is not compacted, a completed tool part whose
    call identifier is in the pruned set keeps its identifier, tool, status
    and remaining properties, and
    - for a tool other than write and edit, its output becomes the output
      placeholder and its input is unchanged;
    - for write, its output is unchanged and, of its input, only [content]
      is overwritten (where it was defined);
    - for edit, its output is unchanged and, of its input, only [oldString]
      and [newString] are overwritten (where they were defined). *)
Theorem prune_completed_part st msgs i msg j p :
  msgs !! i = Some msg →
  isMessageCompacted st msg = false →
  parts msg !! j = Some (PTool p) →
  callID p ∈ toolIds (prune_ st) →
  status (state p) = completed →
  ∃ msg' p',
    prune isMessageCompacted st msgs !! i = Some msg' ∧
    parts msg' !! j = Some (PTool p') ∧
    callID p' = callID p ∧ tool p' = tool p ∧ part_rest p' = part_rest p ∧
    status (state p') = completed ∧
    state_rest (state p') = state_rest (state p) ∧
    (tool p ≠ "write" → tool p ≠ "edit" →
       output (state p') = Some PRUNED_TOOL_OUTPUT_REPLACEMENT ∧
       input (state p') = input (state p)) ∧
    (tool p = "write" →
       output (state p') = output (state p) ∧
       overwritten_only ["content"] (input (state p)) (input (state p'))) ∧
    (tool p = "edit" →
       output (state p') = output (state p) ∧
       overwritten_only ["oldString"; "newString"] (input (state p)) (input (state p'))).
Proof.
  intros Hi Hc Hj Hin Hst.
  destruct (prune_lookup st msgs i msg j _ Hi Hc Hj) as (msg' & Hi' & _ & _ & Hj').
  rewrite prunePart_pruned in Hj' by done.
  exists msg', (pruneError (pruneInput (pruneOutput p))).
  split; [done|]. split; [done|].
  destruct (decide (tool p = "write")) as [Hw|Hw];
    [|destruct (decide (tool p = "edit")) as [He|He]].
  - (* write *)
    rewrite pruneOutput_content_tool, pruneInput_write by auto.
    rewrite pruneError_not_error by (simpl; congruence). simpl.
    repeat split; try done; try congruence. apply redact_field_spec.
  - (* edit *)
    rewrite pruneOutput_content_tool, pruneInput_edit by auto.
    rewrite pruneError_not_error by (simpl; congruence). simpl.
    repeat split; try done; try congruence. apply redact_two_fields_spec.
  - (* any other tool *)
    rewrite pruneOutput_other_tool by done.
    rewrite pruneInput_other_tool by done.
    rewrite pruneError_not_error by (simpl; congruence). simpl.
    repeat split; try done.
Qed.

(** C2, as amended. In a message that is not compacted, a tool part whose
    status is error and whose call identifier is in the pruned set has
    every string-valued property of its input object overwritten with the
    failed-call placeholder; nothing else of the part changes. *)
Theorem prune_error_part st msgs i msg j p :
  msgs !! i = Some msg →
  isMessageCompacted st msg = false →
  parts msg !! j = Some (PTool p) →
  callID p ∈ toolIds (prune_ st) →
  status (state p) = error →
  ∃ msg' p',
    prune isMessageCompacted st msgs !! i = Some msg' ∧
    parts msg' !! j = Some (PTool p') ∧
    callID p' = callID p ∧ tool p' = tool p ∧ part_rest p' = part_rest p ∧
    status (state p') = error ∧
    output (state p') = output (state p) ∧
    state_rest (state p') = state_rest (state p) ∧
    strings_redacted (input (state p)) (input (state p')).
Proof.
  intros Hi Hc Hj Hin Hst.
  destruct (prune_lookup st msgs i msg j _ Hi Hc Hj) as (msg' & Hi' & _ & _ & Hj').
  rewrite prunePart_pruned in Hj' by done.
  exists msg', (pruneError (pruneInput (pruneOutput p))).
  split; [done|]. split; [done|].
  rewrite pruneOutput_not_completed, pruneInput_not_completed by congruence.
  unfold pruneError. rewrite Hst. simpl.
  repeat split; try done. apply redact_error_input_spec.
Qed.
End MutatorFacts.

Section MutatorExamples.
Import Host Samples.

Lemma prune_completed_part_witness :
  ∃ msg' p',
    prune never_compacted (pruned ["call_1"]) [message_of [write_part]] !! 0 = Some msg' ∧
    parts msg' !! 0 = Some (PTool p') ∧
    output (state p') = Some "written" ∧
    overwritten_only ["content"] (input (state write_part)) (input (state p')).
Proof.
  destruct (prune_completed_part never_compacted (pruned ["call_1"])
              [message_of [write_part]] 0 (message_of [write_part]) 0 write_part)
    as (msg' & p' & H1 & H2 & _ & _ & _ & _ & _ & _ & Hw & _).
  - reflexivity.
  - reflexivity.
  - reflexivity.
  - apply (bool_decide_unpack _). vm_compute. exact I.
  - reflexivity.
  - exists msg', p'. destruct (Hw eq_refl) as [Ho Hi]. auto.
Defined.

Lemma prune_error_part_witness :
  ∃ msg' p',
    prune never_compacted (pruned ["call_2"]) [message_of [failed_bash_part]] !! 0 = Some msg' ∧
    parts msg' !! 0 = Some (PTool p') ∧
    strings_redacted (input (state failed_bash_part)) (input (state p')).
Proof.
  destruct (prune_error_part never_compacted (pruned ["call_2"])
              [message_of [failed_bash_part]] 0 (message_of [failed_bash_part]) 0
              failed_bash_part)
    as (msg' & p' & H1 & H2 & _ & _ & _ & _ & _ & _ & Hi).
  - reflexivity.
  - reflexivity.
  - reflexivity.
  - apply (bool_decide_unpack _). vm_compute. exact I.
  - reflexivity.
  - exists msg', p'. auto.
Defined.

(** C2 as stated fails: the failed part of a message that is not compacted
    keeps its input when its call identifier is not in the pruned set. *)
Lemma prune_skips_unpruned_error_part :
  ¬ (∀ isMessageCompacted st msgs i msg j p,
       msgs !! i = Some msg →
       isMessageCompacted st msg = false →
       parts msg !! j = Some (PTool p) →
       status (state p) = error →
       ∃ msg' p',
         prune isMessageCompacted st msgs !! i = Some msg' ∧
         parts msg' !! j = Some (PTool p') ∧
         strings_redacted (input (state p)) (input (state p'))).
Proof.
  intros H.
  destruct (H never_compacted (pruned []) [message_of [failed_bash_part]] 0
              (message_of [failed_bash_part]) 0 failed_bash_part
              eq_refl eq_refl eq_refl eq_refl)
    as (msg' & p' & H1 & H2 & Hr).
  vm_compute in H1. injection H1 as <-.
  vm_compute in H2. injection H2 as <-.
  destruct Hr as (o' & Ho & _ & Hl).
  injection Ho as <-. specialize (Hl "command"). vm_compute in Hl. discriminate.
Qed.
End MutatorExamples.

(** ** The Semantic Janitor *)

Section SetFacts.
Import Janitor.

Lemma elem_of_set_add s x y : y ∈ set_add s x ↔ y ∈ s ∨ y = x.
Proof.
  unfold set_add. case_decide as Hx.
  - split; [auto|]. intros [?| ->]; done.
  - rewrite elem_of_app, list_elem_of_singleton. done.
Qed.

Lemma elem_of_foldl_set_add xs s y : y ∈ foldl set_add s xs ↔ y ∈ s ∨ y ∈ xs.
Proof.
  revert s. induction xs as [|x xs IH]; intros s; simpl.
  - rewrite elem_of_nil. tauto.
  - rewrite IH, elem_of_set_add, elem_of_cons. tauto.
Qed.

Lemma elem_of_set_of xs y : y ∈ set_of xs ↔ y ∈ xs.
Proof. unfold set_of. rewrite elem_of_foldl_set_add, elem_of_nil. tauto. Qed.






End SetFacts.

Section ScanFacts.
Import Host Janitor.

Lemma scan_inv_start : scan_inv scan_start.
Proof.
  split; simpl.
  - done.
  - intros q [? Hq]. by rewrite lookup_empty in Hq.
  - intros q kids c Hq. by rewrite lookup_empty in Hq.
  - intros _ q q' kids kids' c _ Hq. by rewrite lookup_empty in Hq.
  - intros _ q kids q' Hq. by rewrite lookup_empty in Hq.
Qed.

Lemma toolCallIds_scan_tool sc p :
  toolCallIds (scan_tool sc p) = toolCallIds sc ++ [callID p].
Proof.
  unfold scan_tool. case_decide; [done|].
  destruct (currentBatchId sc); [|done]. by destruct (startsWith _ _).
Qed.

Lemma NoDup_snoc_inv (l : list string) x : NoDup (l ++ [x]) → NoDup l ∧ x ∉ l.
Proof.
  intros (Hl & Hx & _)%NoDup_app. split; [done|].
  intros Hin. apply (Hx x Hin). by apply list_elem_of_singleton.
Qed.

(** A new batch: its identifier becomes a key with no children. *)
Lemma scan_inv_batch sc ids outs lg x :
  scan_inv sc →
  ids = toolCallIds sc ++ [x] →
  scan_inv {| toolCallIds := ids; toolOutputs := outs;
              batchToolChildren := <[x := []]> (batchToolChildren sc);
              currentBatchId := Some x; scan_log := lg |}.
Proof.
  intros [Hcur Hpar Hchild Hdis Hpnc] ->. split; simpl.
  - intros b [= <-]. rewrite lookup_insert_eq. eauto.
  - intros q Hq. apply elem_of_app.
    destruct (decide (x = q)) as [->|Hne].
    + right. by apply list_elem_of_singleton.
    + rewrite lookup_insert_ne in Hq by done. left. by apply Hpar.
  - intros q kids c Hq Hc. apply elem_of_app. left.
    destruct (decide (x = q)) as [->|Hne].
    + rewrite lookup_insert_eq in Hq. injection Hq as <-. by apply elem_of_nil in Hc.
    + rewrite lookup_insert_ne in Hq by done. exact (Hchild _ _ _ Hq Hc).
  - intros [Hnd Hx]%NoDup_snoc_inv q q' kids kids' c Hne Hq Hq' Hc.
    destruct (decide (x = q)) as [->|Hne1].
    { rewrite lookup_insert_eq in Hq. injection Hq as <-. by apply elem_of_nil in Hc. }
    rewrite lookup_insert_ne in Hq by done.
    destruct (decide (x = q')) as [->|Hne2].
    { rewrite lookup_insert_eq in Hq'. injection Hq' as <-. apply not_elem_of_nil. }
    rewrite lookup_insert_ne in Hq' by done.
    exact (Hdis Hnd _ _ _ _ _ Hne Hq Hq' Hc).
  - intros [Hnd Hx]%NoDup_snoc_inv q kids q' Hq Hq'.
    destruct (decide (x = q)) as [->|Hne1].
    { rewrite lookup_insert_eq in Hq. injection Hq as <-. apply not_elem_of_nil. }
    rewrite lookup_insert_ne in Hq by done.
    destruct (decide (x = q')) as [->|Hne2].
    { intros Hin. apply Hx. exact (Hchild _ _ _ Hq Hin). }
    rewrite lookup_insert_ne in Hq' by done.
    exact (Hpnc Hnd _ _ _ Hq Hq').
Qed.

(** A child of the current batch: appended to that batch's children. *)
Lemma scan_inv_child sc ids outs lg b x :
  scan_inv sc →
  currentBatchId sc = Some b →
  ids = toolCallIds sc ++ [x] →
  scan_inv {| toolCallIds := ids; toolOutputs := outs;
              batchToolChildren :=
                alter (fun children => children ++ [x]) b (batchToolChildren sc);
              currentBatchId := Some b; scan_log := lg |}.
Proof.
  intros [Hcur Hpar Hchild Hdis Hpnc] Hb ->.
  assert (∀ q, is_Some (alter (fun children => children ++ [x]) b
                          (batchToolChildren sc) !! q) →
               is_Some (batchToolChildren sc !! q)) as Hkeys.
  { intros q. rewrite lookup_alter. case_decide; subst.
    - by rewrite fmap_is_Some.
    - done. }
  assert (∀ q kids, alter (fun children => children ++ [x]) b
                      (batchToolChildren sc) !! q = Some kids →
            (q = b ∧ ∃ old, batchToolChildren sc !! b = Some old ∧ kids = old ++ [x]) ∨
            (q ≠ b ∧ batchToolChildren sc !! q = Some kids)) as Hlook.
  { intros q kids. rewrite lookup_alter. case_decide; subst.
    - intros (old & Ho & ->)%fmap_Some. left. eauto.
    - intros Hq. right. done. }
  split; simpl.
  - intros b' [= <-]. rewrite lookup_alter, decide_True by done.
    apply fmap_is_Some. by apply Hcur.
  - intros q Hq%Hkeys. apply elem_of_app. left. by apply Hpar.
  - intros q kids c Hq Hc. apply elem_of_app.
    destruct (Hlook _ _ Hq) as [(-> & old & Ho & ->)|[Hne Hq']].
    + apply elem_of_app in Hc as [Hc|Hc]; [left; exact (Hchild _ _ _ Ho Hc)|by right].
    + left. exact (Hchild _ _ _ Hq' Hc).
  - intros [Hnd Hx]%NoDup_snoc_inv q q' kids kids' c Hne Hq Hq' Hc.
    destruct (Hlook _ _ Hq) as [(-> & old & Ho & ->)|[Hne1 Hq1]];
      destruct (Hlook _ _ Hq') as [(-> & old' & Ho' & ->)|[Hne2 Hq2]]; try done.
    + apply elem_of_app in Hc as [Hc|Hc%list_elem_of_singleton].
      * exact (Hdis Hnd _ _ _ _ _ Hne Ho Hq2 Hc).
      * subst c. intros Hin. apply Hx. exact (Hchild _ _ _ Hq2 Hin).
    + intros [Hin|Hin%list_elem_of_singleton]%elem_of_app.
      * exact (Hdis Hnd _ _ _ _ _ Hne Hq1 Ho' Hc Hin).
      * subst c. apply Hx. exact (Hchild _ _ _ Hq1 Hc).
    + exact (Hdis Hnd _ _ _ _ _ Hne Hq1 Hq2 Hc).
  - intros [Hnd Hx]%NoDup_snoc_inv q kids q' Hq Hq'%Hkeys.
    destruct (Hlook _ _ Hq) as [(-> & old & Ho & ->)|[Hne1 Hq1]].
    + intros [Hin|Hin%list_elem_of_singleton]%elem_of_app.
      * exact (Hpnc Hnd _ _ _ Ho Hq' Hin).
      * subst q'. apply Hx. by apply Hpar.
    + exact (Hpnc Hnd _ _ _ Hq1 Hq').
Qed.

(** Any other tool call: the batches stay as they are. *)
Lemma scan_inv_other sc ids outs lg :
  scan_inv sc →
  (∃ x, ids = toolCallIds sc ++ [x]) →
  scan_inv {| toolCallIds := ids; toolOutputs := outs;
              batchToolChildren := batchToolChildren sc;
              currentBatchId := None; scan_log := lg |}.
Proof.
  intros [Hcur Hpar Hchild Hdis Hpnc] [x ->]. split; simpl.
  - done.
  - intros q Hq. apply elem_of_app. left. by apply Hpar.
  - intros q kids c Hq Hc. apply elem_of_app. left. exact (Hchild _ _ _ Hq Hc).
  - intros [Hnd _]%NoDup_snoc_inv. by apply Hdis.
  - intros [Hnd _]%NoDup_snoc_inv. by apply Hpnc.
Qed.

Lemma scan_inv_tool sc p : scan_inv sc → scan_inv (scan_tool sc p).
Proof.
  intros Hinv. unfold scan_tool. case_decide.
  - by apply scan_inv_batch.
  - destruct (currentBatchId sc) as [b|] eqn:Hb.
    + destruct (startsWith _ _).
      * by apply scan_inv_child.
      * apply scan_inv_other; eauto.
    + apply scan_inv_other; eauto.
Qed.

Lemma scan_inv_part sc part : scan_inv sc → scan_inv (scan_part sc part).
Proof.
  intros Hinv. destruct part as [p|]; simpl; [|done].
  destruct (truthy_string _); [by apply scan_inv_tool|done].
Qed.

Lemma scan_inv_foldl_parts ps sc : scan_inv sc → scan_inv (foldl scan_part sc ps).
Proof.
  revert sc. induction ps as [|part ps IH]; intros sc Hinv; simpl; [done|].
  by apply IH, scan_inv_part.
Qed.

Lemma scan_inv_foldl_messages ms sc :
  scan_inv sc → scan_inv (foldl scan_message sc ms).
Proof.
  revert sc. induction ms as [|m ms IH]; intros sc Hinv; simpl; [done|].
  by apply IH, scan_inv_foldl_parts.
Qed.

Lemma scan_inv_scan messages : scan_inv (scan messages).
Proof. apply scan_inv_foldl_messages, scan_inv_start. Qed.

(** The batch under the cursor is always recorded: the [children.push] of
    the source never meets a missing entry. *)
Lemma current_batch_recorded messages b :
  currentBatchId (scan messages) = Some b →
  is_Some (batchToolChildren (scan messages) !! b).
Proof. apply inv_current, scan_inv_scan. Qed.
End ScanFacts.

Section RunFacts.
Import Host Janitor.

Ltac run_unfold :=
  unfold run, run_among, run_body, fetch, oracle, toast, log, emit, emit_all,
    stateManager_get, stateManager_set, suspended, try_catch, mbind, M_bind,
    bind, ret, throw;
  simpl.

Lemma scan_log_tool_quiet sc p :
  quiet (scan_log sc) → quiet (scan_log (scan_tool sc p)).
Proof.
  intros Hq. unfold scan_tool. case_decide; simpl.
  - apply Forall_app. split; [done|]. by repeat constructor.
  - destruct (currentBatchId sc); [|done].
    destruct (startsWith _ _); simpl;
      (apply Forall_app; split; [done|]); by repeat constructor.
Qed.

Lemma scan_log_quiet messages : quiet (scan_log (scan messages)).
Proof.
  unfold scan. assert (quiet (scan_log scan_start)) as H by constructor.
  revert H. generalize scan_start.
  induction messages as [|m ms IH]; intros sc Hsc; simpl; [done|].
  apply IH. unfold scan_message. revert sc Hsc.
  induction (parts m) as [|part ps IHp]; intros sc Hsc; simpl; [done|].
  apply IHp. destruct part as [p|]; simpl; [|done].
  destruct (truthy_string _); [by apply scan_log_tool_quiet|done].
Qed.

Lemma unpruned_nil_iff already ids :
  unprunedToolCallIds already ids = [] ↔ ∀ id, id ∈ ids → id ∈ already.
Proof.
  unfold unprunedToolCallIds. induction ids as [|x ids IH].
  - split; [|done]. by intros _ id ?%elem_of_nil.
  - rewrite filter_cons. case_decide as Hx.
    + split; [done|]. intros H. destruct Hx. apply H, elem_of_cons. auto.
    + rewrite IH. split.
      * intros H id [->|?]%elem_of_cons; [|auto].
        destruct (decide (x ∈ already)); [done|contradiction].
      * intros H id Hid. apply H, elem_of_cons. auto.
Qed.

(** The run never raises to its caller. *)
Lemma run_returns_normally env sessionID w :
  ∃ w', run env sessionID w = (Normal tt, w').
Proof.
  run_unfold. destruct (session_messages env sessionID) as [messages|]; simpl; [|eauto].
  destruct (length messages <? 3)%nat; simpl; [eauto|].
  destruct (0 <? size _)%nat; simpl;
    (destruct (length (unprunedToolCallIds _ _) =? 0)%nat; simpl; [eauto|]);
    (destruct (generateObject env _ messages) as [r|]; simpl; [|eauto]);
    (destruct (0 <? length _)%nat; simpl; [|eauto]);
    destruct (showToast env _ _); simpl; eauto.
Qed.


(** C9. When the fetched history has fewer than 3 messages, or when every
    tool-call identifier found in it is already in the session's pruned
    set, the run returns with the State Store as it was, and everything it
    did is quiet: no oracle call, no write to the store, no notification. *)
Theorem run_exits_without_effect env sessionID w messages :
  session_messages env sessionID = Some messages →
  ((length messages < 3)%nat ∨
   ∀ id, id ∈ toolCallIds (scan messages) →
         id ∈ StateManager.get (store w) sessionID) →
  ∃ w' es,
    run env sessionID w = (Normal tt, w') ∧
    store w' = store w ∧
    trace w' = trace w ++ es ∧
    quiet es.
Proof.
  intros Hf Hcase. run_unfold. rewrite Hf. simpl.
  destruct (length messages <? 3)%nat eqn:Hlen.
  - eexists. simpl. rewrite <- !app_assoc. simpl.
    eexists. split; [reflexivity|]. simpl. split; [done|]. split; [reflexivity|].
    by repeat constructor.
  - destruct Hcase as [Hlt|Hall]; [apply Nat.ltb_ge in Hlen; lia|].
    apply unpruned_nil_iff in Hall.
    destruct (0 <? size _)%nat; simpl; rewrite Hall; simpl;
      (eexists; rewrite <- !app_assoc; simpl; eexists;
       split; [reflexivity|]; simpl; split; [done|]; split; [reflexivity|]);
      repeat (apply Forall_cons; split; [done|]);
      (apply Forall_app; split; [apply scan_log_quiet|]);
      by repeat constructor.
Qed.

(** C3. When the oracle call throws (a failure of the call, or a result
    that does not match the schema), the run returns normally and the
    State Store, so the session's pruned set, is what it was before the
    run. When the run got as far as the oracle call, all it did besides
    that call is quiet, and the failure is logged. *)
Theorem run_survives_oracle_failure env sessionID w messages :
  session_messages env sessionID = Some messages →
  generateObject env
    (unprunedToolCallIds (StateManager.get (store w) sessionID)
       (toolCallIds (scan messages))) messages = None →
  ∃ w',
    run env sessionID w = (Normal tt, w') ∧
    store w' = store w ∧
    StateManager.get (store w') sessionID = StateManager.get (store w) sessionID ∧
    ((3 ≤ length messages)%nat →
     unprunedToolCallIds (StateManager.get (store w) sessionID)
       (toolCallIds (scan messages)) ≠ [] →
     ∃ es,
       trace w' =
         trace w ++ es ++
         [EvOracle (unprunedToolCallIds (StateManager.get (store w) sessionID)
                      (toolCallIds (scan messages)));
          EvLog Error "Analysis failed"] ∧
       quiet es).
Proof.
  intros Hf Ho. run_unfold. rewrite Hf. simpl.
  destruct (length messages <? 3)%nat eqn:Hlen.
  { eexists. split; [reflexivity|]. simpl. repeat split; try done.
    intros Hge. apply Nat.ltb_lt in Hlen. lia. }
  destruct (0 <? size _)%nat; simpl;
    (destruct (length (unprunedToolCallIds _ _) =? 0)%nat eqn:Hz; simpl;
     [eexists; split; [reflexivity|]; simpl; repeat split; try done;
      intros _ Hne; apply Nat.eqb_eq in Hz;
      by destruct (unprunedToolCallIds _ _)
     |]);
    rewrite Ho; simpl;
    (eexists; split; [reflexivity|]); simpl; repeat split; try done;
    intros _ _; rewrite <- !app_assoc; simpl.
  - exists ([EvLog Info "Starting analysis"; EvLog Debug "Fetching session messages";
             EvFetch sessionID; EvLog Debug "Retrieved messages"] ++
            scan_log (scan messages) ++
            [EvLog Debug "Batch tool summary";
             EvLog Debug "Found tool calls in session";
             EvLog Debug "Starting shadow inference"]).
    split; [by rewrite <- !app_assoc|].
    apply Forall_app. split; [by repeat constructor|].
    apply Forall_app. split; [apply scan_log_quiet|by repeat constructor].
  - exists ([EvLog Info "Starting analysis"; EvLog Debug "Fetching session messages";
             EvFetch sessionID; EvLog Debug "Retrieved messages"] ++
            scan_log (scan messages) ++
            [EvLog Debug "Found tool calls in session";
             EvLog Debug "Starting shadow inference"]).
    split; [by rewrite <- !app_assoc|].
    apply Forall_app. split; [by repeat constructor|].
    apply Forall_app. split; [apply scan_log_quiet|by repeat constructor].
Qed.

(** The loop over the history logs at debug level only. *)
Lemma scan_log_tool_debug sc p :
  Forall (fun e => ∃ m, e = EvLog Debug m) (scan_log sc) →
  Forall (fun e => ∃ m, e = EvLog Debug m) (scan_log (scan_tool sc p)).
Proof.
  intros Hq. unfold scan_tool. case_decide; simpl.
  - apply Forall_app. split; [done|]. repeat constructor. eauto.
  - destruct (currentBatchId sc); [|done].
    destruct (startsWith _ _); simpl;
      (apply Forall_app; split; [done|]); repeat constructor; eauto.
Qed.

Lemma scan_log_debug messages :
  Forall (fun e => ∃ m, e = EvLog Debug m) (scan_log (scan messages)).
Proof.
  unfold scan.
  assert (Forall (fun e => ∃ m, e = EvLog Debug m) (scan_log scan_start)) as H
    by constructor.
  revert H. generalize scan_start.
  induction messages as [|m ms IH]; intros sc Hsc; simpl; [done|].
  apply IH. unfold scan_message. revert sc Hsc.
  induction (parts m) as [|part ps IHp]; intros sc Hsc; simpl; [done|].
  apply IHp. destruct part as [p|]; simpl; [|done].
  destruct (truthy_string _); [by apply scan_log_tool_debug|done].
Qed.

Lemma scan_log_no_error messages e :
  e ∈ scan_log (scan messages) → ∃ m, e = EvLog Debug m.
Proof.
  intros He. pose proof (scan_log_debug messages) as H.
  rewrite Forall_forall in H. by apply H.
Qed.

(** The expansion loop logs at debug level only. *)
Lemma expand_log_debug children ids e :
  e ∈ expand_log children ids →
  e = EvLog Debug "Expanding batch tool to include children".
Proof.
  unfold expand_log. induction ids as [|x ids IH]; simpl.
  - by intros ?%elem_of_nil.
  - intros [Hin|Hin]%elem_of_app; [|by apply IH].
    destruct (children !! x); [|by apply elem_of_nil in Hin].
    by apply list_elem_of_singleton in Hin.
Qed.

Ltac not_in_trace Hin :=
  repeat (rewrite elem_of_cons in Hin || rewrite elem_of_app in Hin
          || rewrite elem_of_nil in Hin);
  repeat match type of Hin with _ ∨ _ => destruct Hin as [Hin|Hin] end;
  try discriminate; try done;
  try (apply scan_log_no_error in Hin as [? ?]; discriminate);
  try (apply expand_log_debug in Hin; discriminate).

Ltac in_trace :=
  repeat (rewrite elem_of_cons || rewrite elem_of_app); tauto.

(** What a run among other tasks does when it reaches its commit. *)
Lemma run_among_commits others env sessionID w messages result :
  session_messages env sessionID = Some messages →
  (3 ≤ length messages)%nat →
  unprunedToolCallIds
    (StateManager.get (store_at_read others (store w)) sessionID)
    (toolCallIds (scan messages)) ≠ [] →
  generateObject env
    (unprunedToolCallIds
       (StateManager.get (store_at_read others (store w)) sessionID)
       (toolCallIds (scan messages))) messages = Some result →
  let final := expand (batchToolChildren (scan messages)) (pruned_tool_call_ids result) in
  let tokens := round_div4 (totalCharsSaved (toolOutputs (scan messages)) final) in
  let committed :=
    set_of (StateManager.get (store_at_read others (store w)) sessionID ++ final) in
  ∃ w' es,
    run_among others env sessionID w = (Normal tt, w') ∧
    trace w' = trace w ++ es ∧
    store w' =
      StateManager.run
        (during_set others ++ if decide (final = []) then [] else during_toast others)
        (StateManager.set (store_at_commit others (store w)) sessionID committed) ∧
    EvSet sessionID committed ∈ es ∧
    (EvLog Error "Analysis failed" ∉ es) ∧
    (final = [] → ∀ n t, EvToast n t ∉ es) ∧
    (final ≠ [] →
     EvToast (length final) tokens ∈ es ∧
     (showToast env (length final) tokens = false →
      EvLog Error "Failed to show toast notification" ∈ es) ∧
     (showToast env (length final) tokens = true →
      EvLog Info "Toast notification shown" ∈ es)).
Proof.
  intros Hf Hlen Hne Ho final tokens committed. subst final tokens committed.
  unfold store_at_commit, store_at_read in *.
  run_unfold. rewrite Hf. simpl.
  assert ((length messages <? 3)%nat = false) as Hl by (apply Nat.ltb_ge; lia).
  rewrite Hl.
  match type of Hne with
  | ?l ≠ [] => assert ((length l =? 0)%nat = false) as Hz
      by (apply Nat.eqb_neq; by destruct l)
  end.
  destruct (0 <? size _)%nat; simpl; rewrite Hz; simpl; rewrite Ho; simpl;
    (destruct (expand (batchToolChildren (scan messages))
                 (pruned_tool_call_ids result)) as [|x final] eqn:Hfin;
     simpl; [|destruct (showToast env _ _) eqn:Ht; simpl]);
    (eexists _, _; split; [reflexivity|]; simpl; rewrite <- !app_assoc; simpl;
     split; [reflexivity|]; split; [by rewrite run_app|];
     split; [in_trace|]; split; [intros Hin; not_in_trace Hin|]; split;
     [first [done | intros _ n t Hin; not_in_trace Hin]|]);
    first [done | intros _; split; [in_trace|]; split; intros; first [in_trace|congruence]].
Qed.

(** How far a run gets, and what has become of the store by then. *)
Lemma run_among_outcome others env sessionID w :
  ∃ w' es,
    run_among others env sessionID w = (Normal tt, w') ∧
    trace w' = trace w ++ es ∧
    (store w' = StateManager.run (during_fetch others) (store w) ∨
     store w' =
       StateManager.run (during_fetch others ++ during_get others) (store w) ∨
     store w' =
       StateManager.run
         (during_fetch others ++ during_get others ++ during_oracle others)
         (store w) ∨
     ∃ final post,
       (post = during_set others ∨ post = during_set others ++ during_toast others) ∧
       store w' =
         StateManager.run post
           (StateManager.set (store_at_commit others (store w)) sessionID
              (set_of (StateManager.get (store_at_read others (store w)) sessionID
                       ++ final)))).
Proof.
  unfold store_at_commit, store_at_read. run_unfold.
  destruct (session_messages env sessionID) as [messages|]; simpl.
  2:{ eexists _, _. split; [reflexivity|]. simpl. rewrite <- !app_assoc.
      split; [reflexivity|]. by left. }
  destruct (length messages <? 3)%nat; simpl.
  { eexists _, _. split; [reflexivity|]. simpl. rewrite <- !app_assoc.
    split; [reflexivity|]. by left. }
  destruct (0 <? size _)%nat; simpl;
    (destruct (length (unprunedToolCallIds _ _) =? 0)%nat; simpl;
     [eexists _, _; split; [reflexivity|]; simpl; rewrite <- !app_assoc;
      split; [reflexivity|]; right; left; by rewrite run_app|]);
    (destruct (generateObject env _ messages) as [r|]; simpl;
     [|eexists _, _; split; [reflexivity|]; simpl; rewrite <- !app_assoc;
       split; [reflexivity|]; right; right; left; by rewrite !run_app]);
    (destruct (0 <? length _)%nat; simpl; [destruct (showToast env _ _); simpl|]);
    (eexists _, _; split; [reflexivity|]; simpl; rewrite <- !app_assoc;
     split; [reflexivity|]; right; right; right; eexists _, _;
     first [by split; [left; reflexivity|]
           |by split; [right; reflexivity|rewrite run_app]]).
Qed.

Lemma leaves_alone_all s others :
  StateManager.leaves_alone s (all_others others) = true →
  StateManager.leaves_alone s (during_fetch others) = true ∧
  StateManager.leaves_alone s (during_get others) = true ∧
  StateManager.leaves_alone s (during_oracle others) = true ∧
  StateManager.leaves_alone s (during_set others) = true ∧
  StateManager.leaves_alone s (during_toast others) = true.
Proof.
  unfold all_others. rewrite !leaves_alone_app, !andb_true_iff. tauto.
Qed.

(** C10, as amended. A run that reaches its commit writes, for the
    session, the identifiers it read from the store earlier in the run
    united with the newly expanded ones: the list it hands to [set] holds
    exactly the identifiers of the two, and replaces what is stored at that
    moment. When no identifier was added to the session's list between the
    read and the commit, the commit holds every identifier stored before
    it; and when no other task names the session while the run is
    suspended, every identifier that [get] returned before the run is
    returned by [get] after it. *)
Theorem run_commit_keeps_pruned others env sessionID w messages result :
  session_messages env sessionID = Some messages →
  (3 ≤ length messages)%nat →
  unprunedToolCallIds
    (StateManager.get (store_at_read others (store w)) sessionID)
    (toolCallIds (scan messages)) ≠ [] →
  generateObject env
    (unprunedToolCallIds
       (StateManager.get (store_at_read others (store w)) sessionID)
       (toolCallIds (scan messages))) messages = Some result →
  let read := StateManager.get (store_at_read others (store w)) sessionID in
  let stored := StateManager.get (store_at_commit others (store w)) sessionID in
  let final := expand (batchToolChildren (scan messages)) (pruned_tool_call_ids result) in
  ∃ w' committed es,
    run_among others env sessionID w = (Normal tt, w') ∧
    trace w' = trace w ++ es ∧
    EvSet sessionID committed ∈ es ∧
    store w' =
      StateManager.run
        (during_set others ++ if decide (final = []) then [] else during_toast others)
        (StateManager.set (store_at_commit others (store w)) sessionID committed) ∧
    (∀ id, id ∈ committed ↔ id ∈ read ∨ id ∈ final) ∧
    ((∀ id, id ∈ stored → id ∈ read) → ∀ id, id ∈ stored → id ∈ committed) ∧
    (StateManager.leaves_alone sessionID (all_others others) = true →
     StateManager.get (store w') sessionID = committed ∧
     ∀ id, id ∈ StateManager.get (store w) sessionID →
           id ∈ StateManager.get (store w') sessionID).
Proof.
  intros Hf Hlen Hne Ho read stored final.
  destruct (run_among_commits others env sessionID w messages result Hf Hlen Hne Ho)
    as (w' & es & Hrun & Htr & Hstore & Hin & _).
  fold read final in Hstore, Hin.
  exists w', (set_of (read ++ final)), es.
  split; [done|]. split; [done|]. split; [done|]. split; [done|].
  assert (∀ id, id ∈ set_of (read ++ final) ↔ id ∈ read ∨ id ∈ final) as Hunion.
  { intros id. by rewrite elem_of_set_of, elem_of_app. }
  split; [done|]. split.
  { intros Hsub id Hid. apply Hunion. left. by apply Hsub. }
  intros (Hfe & Hge & Hor & Hse & Hto)%leaves_alone_all.
  assert (StateManager.get (store w') sessionID = set_of (read ++ final)) as Hget.
  { assert (StateManager.leaves_alone sessionID
              (during_set others ++
               if decide (final = []) then [] else during_toast others) = true)
      as Hp by (rewrite leaves_alone_app, Hse; by destruct (decide (final = []))).
    rewrite Hstore.
    rewrite (proj1 (same_entry _ _ sessionID (run_leaves_entry _ _ sessionID Hp))).
    apply get_set_same. }
  split; [done|].
  intros id Hid. rewrite Hget. apply Hunion. left. unfold read, store_at_read.
  by rewrite (proj1 (same_entry _ (store w) sessionID
                       (run_leaves_entry _ (store w) sessionID Hfe))).
Qed.

End RunFacts.

Section RunExamples.
Import Host Janitor Samples.

Lemma run_exits_without_effect_witness :
  ∃ w' es,
    run (env_of short_history (Some names_batch)) "ses_1" fresh_world = (Normal tt, w') ∧
    store w' = store fresh_world ∧
    trace w' = trace fresh_world ++ es ∧
    quiet es.
Proof.
  apply (run_exits_without_effect (env_of short_history (Some names_batch))
           "ses_1" fresh_world short_history).
  - reflexivity.
  - left. simpl. lia.
Defined.

Lemma run_survives_oracle_failure_witness :
  ∃ w',
    run (env_of history None) "ses_1" fresh_world = (Normal tt, w') ∧
    StateManager.get (store w') "ses_1" = StateManager.get (store fresh_world) "ses_1".
Proof.
  destruct (run_survives_oracle_failure (env_of history None) "ses_1"
              fresh_world history) as (w' & Hrun & _ & Hget & _).
  - reflexivity.
  - reflexivity.
  - exists w'. auto.
Defined.

Lemma run_commit_keeps_pruned_witness :
  ∃ w',
    run_among busy_elsewhere (env_of history (Some names_batch)) "ses_1"
      (world_with "ses_1" ["call_r"]) = (Normal tt, w') ∧
    "call_r" ∈ StateManager.get (store w') "ses_1".
Proof.
  destruct (run_commit_keeps_pruned busy_elsewhere
              (env_of history (Some names_batch)) "ses_1"
              (world_with "ses_1" ["call_r"]) history names_batch)
    as (w' & committed & es & Hrun & _ & _ & _ & _ & _ & Halone).
  - reflexivity.
  - simpl. lia.
  - vm_compute. discriminate.
  - reflexivity.
  - exists w'. split; [done|]. apply Halone; [reflexivity|].
    apply (bool_decide_unpack _). vm_compute. exact I.
Defined.

(** C10 as stated fails: a run that overlaps another run for the session
    commits the union with the list it read before the other run's commit,
    and drops what that run stored. Here the other run, which on its own
    commits [call_r], does so while this run awaits the oracle. *)
Lemma overlapping_run_drops_identifier :
  store (run (env_of history (Some names_read)) "ses_1" fresh_world).2 =
    StateManager.run (during_oracle overlapped) (store fresh_world) ∧
  "call_r" ∈ StateManager.get (store_at_commit overlapped (store fresh_world)) "ses_1" ∧
  ∃ w',
    run_among overlapped (env_of history (Some names_batch)) "ses_1" fresh_world
      = (Normal tt, w') ∧
    EvSet "ses_1" ["call_b"; "prt_1"; "prt_2"] ∈ trace w' ∧
    StateManager.get (store w') "ses_1" = ["call_b"; "prt_1"; "prt_2"] ∧
    "call_r" ∉ StateManager.get (store w') "ses_1".
Proof.
  split; [vm_compute; reflexivity|].
  split; [apply (bool_decide_unpack _); vm_compute; exact I|].
  eexists. split; [vm_compute; reflexivity|].
  split; [|split; [vm_compute; reflexivity|]].
  - cbn [trace]. repeat (rewrite elem_of_cons || rewrite elem_of_app). tauto.
  - apply (bool_decide_unpack _). vm_compute. exact I.
Qed.

End RunExamples.

(** ** Strings *)

Section StringFacts.

(** The ASCII mapping sends the empty string, and nothing else, to the
    empty string. *)
Lemma truthy_toLowerCase_ascii s :
  truthy_string (toLowerCase_ascii s) = truthy_string s.
Proof. by destruct s. Qed.

(** A character of the ASCII range is one code unit, so that on an ASCII
    string [str_length] is the number of characters. *)
Lemma str_length_ascii s :
  forallb (fun c => (nat_of_ascii c <? 128)%nat) (list_ascii_of_string s) = true →
  str_length s = String.length s.
Proof.
  induction s as [|c s IH]; simpl; [done|].
  intros [Hc Hs]%andb_true_iff. unfold code_units. rewrite Hc. simpl.
  by rewrite IH.
Qed.

Lemma prefix_app s t : String.prefix s (s +:+ t) = true.
Proof.
  induction s as [|c s IH]; simpl; [by destruct t|].
  destruct (ascii_dec c c); [done|congruence].
Qed.

Lemma prefix_refl s : String.prefix s s = true.
Proof.
  induction s as [|c s IH]; simpl; [done|].
  destruct (ascii_dec c c); [done|congruence].
Qed.

Lemma includes_unfold s sub :
  includes s sub =
  String.prefix sub s ||
  match s with EmptyString => false | String _ s' => includes s' sub end.
Proof. by destruct s. Qed.

Lemma includes_cons c s sub :
  includes (String c s) sub = String.prefix sub (String c s) || includes s sub.
Proof. reflexivity. Qed.

Lemma includes_self s : includes s s = true.
Proof. by rewrite includes_unfold, prefix_refl. Qed.

Lemma includes_app_r s t : includes (s +:+ t) t = true.
Proof.
  induction s as [|c s IH].
  - apply includes_self.
  - change (String c s +:+ t) with (String c (s +:+ t)).
    rewrite includes_cons, IH. apply orb_true_r.
Qed.

Lemma includes_suffix s sep t : includes (s +:+ sep +:+ t) t = true.
Proof.
  induction s as [|c s IH].
  - exact (includes_app_r sep t).
  - change (String c s +:+ sep +:+ t) with (String c (s +:+ sep +:+ t)).
    rewrite includes_cons, IH. apply orb_true_r.
Qed.

End StringFacts.

(** ** The Bedrock descriptor: replacing a tool output *)

Section ReplaceFacts.
Import Bedrock.
Context {host_case : Lowercase}.

Lemma is_result_for_spec toolId block :
  is_result_for (toLowerCase toolId) block = true ↔ names_result toolId block.
Proof.
  unfold is_result_for, names_result. split.
  - destruct (toolResult block) as [tr|]; [|done].
    destruct (tr_toolUseId tr) as [tid|] eqn:Htid; [|done].
    intros H%bool_decide_eq_true. eauto.
  - intros (tr & tid & -> & -> & H). by apply bool_decide_eq_true.
Qed.

Lemma replace_block_hit toolId text block :
  names_result toolId block →
  overwritten_block text block (replace_block (toLowerCase toolId) text block).
Proof.
  intros Hn. unfold replace_block.
  rewrite (proj2 (is_result_for_spec toolId block) Hn).
  destruct Hn as (tr & tid & Htr & Htid & _).
  unfold overwritten_block, pruned_block. simpl. repeat split; try done.
  exists tr, (pruned_result text tr). rewrite Htr. done.
Qed.

Lemma replace_block_miss toolId text block :
  ¬ names_result toolId block →
  replace_block (toLowerCase toolId) text block = block.
Proof.
  intros Hn. unfold replace_block.
  destruct (is_result_for _ _) eqn:H; [|done].
  by apply is_result_for_spec in H.
Qed.

Lemma replace_loop_fst idl text data :
  (replace_loop idl text data).1 = map (fun m => (replace_message idl text m).1) data.
Proof.
  induction data as [|m data IH]; simpl; [done|].
  destruct (replace_message idl text m) as [m' modified].
  destruct (replace_loop idl text data) as [rest' replaced].
  simpl in *. by rewrite IH.
Qed.

Lemma replace_loop_snd idl text data :
  (replace_loop idl text data).2 = existsb (fun m => (replace_message idl text m).2) data.
Proof.
  induction data as [|m data IH]; simpl; [done|].
  destruct (replace_message idl text m) as [m' modified].
  destruct (replace_loop idl text data) as [rest' replaced].
  simpl in *. by rewrite IH.
Qed.

(** A message is modified exactly when it is a user message whose content
    array holds a matching block. *)
Lemma replace_message_modified toolId text m :
  (replace_message (toLowerCase toolId) text m).2 = true ↔
  role m = "user" ∧
  ∃ blocks j block,
    content m = CArray blocks ∧ blocks !! j = Some block ∧ names_result toolId block.
Proof.
  unfold replace_message. case_decide as Hr.
  - destruct (content m) as [s|blocks|v] eqn:Hc; simpl.
    + split; [done|]. by intros (_ & ? & ? & ? & [=] & _).
    + destruct (existsb _ blocks) eqn:Hex; simpl.
      * split; [|done]. intros _. split; [done|].
        apply existsb_exists in Hex as (block & Hin & Hm).
        apply list_elem_of_In, list_elem_of_lookup in Hin as [j Hj].
        exists blocks, j, block. by rewrite <- is_result_for_spec.
      * split; [done|]. intros (_ & blocks' & j & block & [= <-] & Hj & Hn).
        rewrite <- Hex. apply existsb_exists. exists block. split.
        -- apply list_elem_of_In, list_elem_of_lookup. eauto.
        -- by apply is_result_for_spec.
    + split; [done|]. by intros (_ & ? & ? & ? & [=] & _).
  - simpl. split; [done|]. by intros [? _].
Qed.

(** What a message becomes. *)
Lemma replace_message_result toolId text m :
  let m' := (replace_message (toLowerCase toolId) text m).1 in
  role m' = role m ∧ tool_call_id m' = tool_call_id m ∧
  message_rest m' = message_rest m ∧
  (role m ≠ "user" → m' = m) ∧
  ((∀ blocks, content m ≠ CArray blocks) → m' = m) ∧
  (∀ blocks,
     role m = "user" → content m = CArray blocks →
     ∃ blocks',
       content m' = CArray blocks' ∧ length blocks' = length blocks ∧
       ∀ j block,
         blocks !! j = Some block →
         ∃ block',
           blocks' !! j = Some block' ∧
           (names_result toolId block → overwritten_block text block block') ∧
           (¬ names_result toolId block → block' = block)).
Proof.
  unfold replace_message. case_decide as Hr.
  - destruct (content m) as [s|blocks|v] eqn:Hc; simpl; repeat split; try done.
    + destruct (existsb _ blocks); by simpl.
    + destruct (existsb _ blocks); by simpl.
    + destruct (existsb _ blocks); by simpl.
    + intros H. by destruct (H blocks).
    + intros blocks' _ [= <-].
      destruct (existsb _ blocks) eqn:Hex; simpl.
      * eexists. split; [done|]. split; [by rewrite length_map|].
        intros j block Hj. eexists. rewrite list_lookup_fmap, Hj. split; [done|].
        split; [apply replace_block_hit|apply replace_block_miss].
      * exists blocks. split; [done|]. split; [done|].
        intros j block Hj. exists block. split; [done|]. split; [|done].
        intros Hn. exfalso.
        assert (existsb (is_result_for (toLowerCase toolId)) blocks = true) as Ht;
          [|congruence].
        apply existsb_exists. exists block. split.
        -- apply list_elem_of_In, list_elem_of_lookup. eauto.
        -- by apply is_result_for_spec.
  - simpl. repeat split; try done.
Qed.

Lemma detect_with_messages body data :
  detect body = true → detect (with_messages body data) = true.
Proof.
  unfold detect. simpl.
  intros [[-> ->]%andb_true_iff _]%andb_true_iff. reflexivity.
Qed.

(** C4. On the messages of a body that [detect] accepts,
    [replaceToolOutput] keeps the number of messages and leaves a body
    that [detect] still accepts; it returns [true] exactly when some
    [toolResult] block (a block of a user message's content array) has a
    [toolUseId] equal to the identifier up to case; each such block gets
    the placeholder text as its content and keeps all its other
    properties; every other block and every other message is unchanged. *)
Theorem replaceToolOutput_spec body data toolId prunedMessage :
  detect body = true →
  getDataArray body = Some data →
  let data' := (replaceToolOutput data toolId prunedMessage).1 in
  let replaced := (replaceToolOutput data toolId prunedMessage).2 in
  length data' = length data ∧
  detect (with_messages body data') = true ∧
  getDataArray (with_messages body data') = Some data' ∧
  (replaced = true ↔
   ∃ i m blocks j block,
     data !! i = Some m ∧ role m = "user" ∧ content m = CArray blocks ∧
     blocks !! j = Some block ∧ names_result toolId block) ∧
  (∀ i m,
     data !! i = Some m →
     ∃ m',
       data' !! i = Some m' ∧
       role m' = role m ∧ tool_call_id m' = tool_call_id m ∧
       message_rest m' = message_rest m ∧
       (role m ≠ "user" → m' = m) ∧
       ((∀ blocks, content m ≠ CArray blocks) → m' = m) ∧
       (∀ blocks,
          role m = "user" → content m = CArray blocks →
          ∃ blocks',
            content m' = CArray blocks' ∧ length blocks' = length blocks ∧
            ∀ j block,
              blocks !! j = Some block →
              ∃ block',
                blocks' !! j = Some block' ∧
                (names_result toolId block →
                 overwritten_block prunedMessage block block') ∧
                (¬ names_result toolId block → block' = block))).
Proof.
  intros Hd Hdata data' replaced. unfold data', replaced, replaceToolOutput.
  rewrite replace_loop_fst, replace_loop_snd.
  split; [by rewrite length_map|].
  split; [by apply detect_with_messages|].
  split; [done|]. split.
  - split.
    + intros (m & Hin & Hm)%existsb_exists.
      apply list_elem_of_In, list_elem_of_lookup in Hin as [i Hi].
      apply replace_message_modified in Hm as (Hr & blocks & j & block & ? & ? & ?).
      by exists i, m, blocks, j, block.
    + intros (i & m & blocks & j & block & Hi & Hr & Hc & Hj & Hn).
      apply existsb_exists. exists m. split.
      * apply list_elem_of_In, list_elem_of_lookup. eauto.
      * apply replace_message_modified. split; [done|]. by exists blocks, j, block.
  - intros i m Hi. eexists. rewrite list_lookup_fmap, Hi. split; [done|].
    apply replace_message_result.
Qed.
End ReplaceFacts.

Section ReplaceExamples.
Import Bedrock Samples.
Local Existing Instance ascii_case.

Lemma replaceToolOutput_spec_witness :
  (replaceToolOutput conversation "TOOLUSE_abc" "[pruned]").2 = true ∧
  length (replaceToolOutput conversation "TOOLUSE_abc" "[pruned]").1 = 3 ∧
  detect (with_messages (bedrock_body conversation)
            (replaceToolOutput conversation "TOOLUSE_abc" "[pruned]").1) = true.
Proof.
  destruct (replaceToolOutput_spec (bedrock_body conversation) conversation
              "TOOLUSE_abc" "[pruned]") as (Hlen & Hdet & _ & Hret & _).
  - reflexivity.
  - reflexivity.
  - split; [|split; [exact Hlen|exact Hdet]].
    apply Hret.
    exists 2, (message "user" (CArray [result_block "tooluse_AbC" "file body"]) None),
      [result_block "tooluse_AbC" "file body"], 0,
      (result_block "tooluse_AbC" "file body").
    repeat split; try reflexivity.
    eexists _, "tooluse_AbC". repeat split; reflexivity.
Defined.
End ReplaceExamples.

(** ** The Bedrock descriptor: the synthetic note *)

Section InjectFacts.
Import Bedrock.
Variables instruction nudgeText : string.
Local Open Scope nat_scope.

Local Abbreviation loop n messages :=
  (injectSynth_loop n messages instruction nudgeText).

Lemma genuine_user_dec m :
  genuine_user nudgeText m ∨ ¬ genuine_user nudgeText m.
Proof.
  unfold genuine_user. destruct (decide (role m = "user")) as [Hr|Hr].
  - destruct (isNudgeMessage m nudgeText).
    + right. intros [_ ?]. discriminate.
    + by left.
  - right. by intros [? _].
Qed.

Lemma loop_skip i messages msg :
  messages !! i = Some msg → ¬ genuine_user nudgeText msg →
  loop (S i) messages = loop i messages.
Proof.
  intros Hi Hg. simpl. rewrite Hi. case_decide as Hr; [|done].
  destruct (isNudgeMessage msg nudgeText) eqn:Hn; [done|].
  destruct Hg. by split.
Qed.

Lemma loop_out_of_range i messages :
  messages !! i = None → loop (S i) messages = (messages, false).
Proof. intros Hi. simpl. by rewrite Hi. Qed.

Lemma loop_hit i messages msg :
  messages !! i = Some msg → genuine_user nudgeText msg →
  loop (S i) messages =
  match content msg with
  | CString s =>
      if includes s instruction then (messages, false)
      else (<[i := with_content msg
                     (CString (s +:+ two_newlines +:+ instruction))]> messages, true)
  | CArray parts =>
      if existsb (has_instruction instruction) parts then (messages, false)
      else (<[i := with_content msg
                     (CArray (parts ++ [text_part instruction]))]> messages, true)
  | COther _ => (messages, true)
  end.
Proof. intros Hi [Hr Hn]. simpl. by rewrite Hi, decide_True, Hn. Qed.

(** The loop only ever writes below its bound. *)
Lemma loop_frame n messages j :
  n ≤ j → (loop n messages).1 !! j = messages !! j.
Proof.
  induction n as [|i IH]; intros Hj; [done|].
  destruct (messages !! i) as [msg|] eqn:Hi; [|by rewrite loop_out_of_range].
  destruct (genuine_user_dec msg) as [Hg|Hg].
  - rewrite (loop_hit _ _ _ Hi Hg).
    destruct (content msg) as [s|parts|v]; [| |done].
    + destruct (includes _ _); [done|]. simpl. apply list_lookup_insert_ne. lia.
    + destruct (existsb _ _); [done|]. simpl. apply list_lookup_insert_ne. lia.
  - rewrite (loop_skip _ _ _ Hi Hg). apply IH. lia.
Qed.

Lemma loop_length n messages : length (loop n messages).1 = length messages.
Proof.
  induction n as [|i IH]; [done|].
  destruct (messages !! i) as [msg|] eqn:Hi; [|by rewrite loop_out_of_range].
  destruct (genuine_user_dec msg) as [Hg|Hg].
  - rewrite (loop_hit _ _ _ Hi Hg).
    destruct (content msg) as [s|parts|v]; [| |done].
    + destruct (includes _ _); [done|]. apply length_insert.
    + destruct (existsb _ _); [done|]. apply length_insert.
  - by rewrite (loop_skip _ _ _ Hi Hg).
Qed.

(** A run that answers [false] has not touched the sequence. *)
Lemma loop_false_unchanged n messages :
  (loop n messages).2 = false → (loop n messages).1 = messages.
Proof.
  induction n as [|i IH]; [done|].
  destruct (messages !! i) as [msg|] eqn:Hi; [|by rewrite loop_out_of_range].
  destruct (genuine_user_dec msg) as [Hg|Hg].
  - rewrite (loop_hit _ _ _ Hi Hg).
    destruct (content msg) as [s|parts|v]; [| |done].
    + by destruct (includes _ _).
    + by destruct (existsb _ _).
  - by rewrite (loop_skip _ _ _ Hi Hg).
Qed.

(** The turns above the most recent genuine user turn are skipped. *)
Lemma loop_skip_above n i messages :
  S i ≤ n → n ≤ length messages →
  (∀ j m, i < j → messages !! j = Some m → ¬ genuine_user nudgeText m) →
  loop n messages = loop (S i) messages.
Proof.
  intros Hin Hn Habove. induction n as [|n IH]; [lia|].
  destruct (decide (n = i)) as [->|Hne]; [done|].
  destruct (lookup_lt_is_Some_2 messages n) as [m Hm]; [lia|].
  rewrite (loop_skip _ _ _ Hm); [apply IH; lia|].
  apply (Habove n); [lia|done].
Qed.

Lemma has_instruction_text_part :
  has_instruction instruction (text_part instruction) = true.
Proof.
  unfold has_instruction. simpl. by rewrite includes_self.
Qed.

Section Twice.
Hypothesis no_collision : ∀ s, s +:+ two_newlines +:+ instruction ≠ nudgeText.

Lemma loop_twice n messages :
  (∀ m, m ∈ messages → role m = "user" → ∀ v, content m ≠ COther v) →
  loop n (loop n messages).1 = ((loop n messages).1, false).
Proof.
  intros Hshape. induction n as [|i IH]; [done|].
  destruct (messages !! i) as [msg|] eqn:Hi;
    [|rewrite (loop_out_of_range _ _ Hi); cbn [fst];
      by rewrite (loop_out_of_range _ _ Hi)].
  destruct (genuine_user_dec msg) as [Hg|Hg].
  - pose proof Hg as [Hr Hn].
    rewrite (loop_hit _ _ _ Hi Hg).
    destruct (content msg) as [s|parts|v] eqn:Hc.
    + destruct (includes s instruction) eqn:Hinc; cbn [fst].
      * by rewrite (loop_hit _ _ _ Hi Hg), Hc, Hinc.
      * assert (i < length messages) as Hlt by by eapply lookup_lt_Some.
        erewrite loop_hit; [|by apply list_lookup_insert_eq|].
        -- cbn [content with_content]. by rewrite includes_suffix.
        -- split; [done|]. unfold isNudgeMessage. cbn [content with_content].
           by apply bool_decide_eq_false.
    + destruct (existsb (has_instruction instruction) parts) eqn:Hex; cbn [fst].
      * by rewrite (loop_hit _ _ _ Hi Hg), Hc, Hex.
      * assert (i < length messages) as Hlt by by eapply lookup_lt_Some.
        erewrite loop_hit; [|by apply list_lookup_insert_eq|].
        -- cbn [content with_content]. rewrite existsb_app. cbn [existsb].
           by rewrite has_instruction_text_part, orb_true_r.
        -- by split.
    + destruct (Hshape msg) with v; try done.
      apply list_elem_of_lookup. eauto.
  - rewrite (loop_skip _ _ _ Hi Hg).
    rewrite (loop_skip i _ msg); [done| |done].
    rewrite loop_frame by done. done.
Qed.
End Twice.
End InjectFacts.

Section InjectTheorems.
Import Bedrock Samples.
Local Open Scope nat_scope.

(** C7, as amended. [injectSynth] appends the instruction to the most
    recent user message whose string content is not exactly the nudge
    text; if that message already contains the instruction it returns
    [false] and leaves the sequence unchanged. Whenever it returns [false]
    the sequence is unchanged. Provided the nudge text is not some text
    followed by the separator and the instruction, and the content of
    every user message is a string or an array, a second run with the same
    arguments returns [false] and leaves the sequence as the first run
    left it. *)
Theorem injectSynth_idempotent messages instruction nudgeText :
  (∀ s, s +:+ two_newlines +:+ instruction ≠ nudgeText) →
  (∀ m, m ∈ messages → role m = "user" → ∀ v, content m ≠ COther v) →
  let first := injectSynth messages instruction nudgeText in
  let second := injectSynth first.1 instruction nudgeText in
  (∀ i msg s,
     messages !! i = Some msg →
     genuine_user nudgeText msg →
     (∀ j m, i < j → messages !! j = Some m → ¬ genuine_user nudgeText m) →
     content msg = CString s →
     first =
       if includes s instruction then (messages, false)
       else (<[i := with_content msg
                      (CString (s +:+ two_newlines +:+ instruction))]> messages,
             true)) ∧
  (first.2 = false → first.1 = messages) ∧
  second = (first.1, false).
Proof.
  intros Hnudge Hshape first second. split; [|split].
  - intros i msg s Hi Hg Habove Hc. unfold first, injectSynth.
    rewrite (loop_skip_above instruction nudgeText (length messages) i);
      [|by eapply lookup_lt_Some|done|done].
    by rewrite (loop_hit _ _ _ _ _ Hi Hg), Hc.
  - apply loop_false_unchanged.
  - unfold second, first, injectSynth. rewrite loop_length.
    by apply loop_twice.
Qed.

Lemma injectSynth_idempotent_witness :
  injectSynth
    (injectSynth [user_text "fix the bug"; user_text "keep going"]
       "<note>" "keep going").1 "<note>" "keep going"
  = ((injectSynth [user_text "fix the bug"; user_text "keep going"]
        "<note>" "keep going").1, false).
Proof.
  apply (injectSynth_idempotent [user_text "fix the bug"; user_text "keep going"]
           "<note>" "keep going").
  - intros s Heq.
    assert (includes (s +:+ two_newlines +:+ "<note>") "<note>" = true) as Hinc
      by apply includes_suffix.
    rewrite Heq in Hinc. vm_compute in Hinc. discriminate.
  - intros m Hm _ v.
    apply elem_of_cons in Hm as [->|Hm]; [done|].
    apply list_elem_of_singleton in Hm as ->. done.
Defined.

(** C7 as stated fails: when the message with the instruction appended is
    the nudge text itself, the second run skips that message and appends
    the instruction to an earlier one. *)
Lemma injectSynth_second_run_injects_again :
  ¬ (∀ messages instruction nudgeText,
       let first := injectSynth messages instruction nudgeText in
       let second := injectSynth first.1 instruction nudgeText in
       second = (first.1, false)).
Proof.
  intros H.
  specialize (H [user_text "plan the work"; user_text "go on"] "note"
                ("go on" +:+ two_newlines +:+ "note")).
  vm_compute in H. discriminate.
Qed.
End InjectTheorems.

(** ** The Bedrock descriptor: identifiers up to case *)

Section CaseFacts.
Import Bedrock.
Context {host_case : Lowercase}.

Lemma foldl_same_image {A B C} (f : A → B → A) (g : B → C) (l l' : list B) (a : A) :
  (∀ a x y, g x = g y → f a x = f a y) →
  map g l = map g l' → foldl f a l = foldl f a l'.
Proof.
  intros Hf. revert l' a.
  induction l as [|x l IH]; intros [|y l'] a Hmap; try done.
  injection Hmap as Hxy Hrest. simpl. rewrite (Hf a x y Hxy). by apply IH.
Qed.

Lemma existsb_same_image {B C} (f : B → bool) (g : B → C) (l l' : list B) :
  (∀ x y, g x = g y → f x = f y) →
  map g l = map g l' → existsb f l = existsb f l'.
Proof.
  intros Hf. revert l'.
  induction l as [|x l IH]; intros [|y l'] Hmap; try done.
  injection Hmap as Hxy Hrest. simpl. by rewrite (Hf x y Hxy), (IH l').
Qed.

Lemma map_same_image {B C} (f : B → B) (g : B → C) (l l' : list B) :
  (∀ x y, g x = g y → g (f x) = g (f y)) →
  map g l = map g l' → map g (map f l) = map g (map f l').
Proof.
  intros Hf. revert l'.
  induction l as [|x l IH]; intros [|y l'] Hmap; try done.
  injection Hmap as Hxy Hrest. simpl. by rewrite (Hf x y Hxy), (IH l').
Qed.

(** Two identifiers with the same lowercase are both empty or both not,
    when the mapping sends the empty string and nothing else to the empty
    string. *)
Lemma lower_id_truthy (o o' : option string) :
  (∀ s, truthy_string (toLowerCase s) = truthy_string s) →
  lower_id o = lower_id o' →
  match o, o' with
  | Some tid, Some tid' =>
      toLowerCase tid = toLowerCase tid' ∧ truthy_string tid = truthy_string tid'
  | None, None => True
  | _, _ => False
  end.
Proof.
  intros Hlaw. destruct o as [tid|], o' as [tid'|]; try done.
  intros [= Heq]. split; [done|]. by rewrite <- (Hlaw tid), <- (Hlaw tid'), Heq.
Qed.

Lemma cache_block_same st b b' :
  (∀ s, truthy_string (toLowerCase s) = truthy_string s) →
  lower_block b = lower_block b' → cache_block st b = cache_block st b'.
Proof.
  intros Hlaw Heq. apply (f_equal toolUse) in Heq. simpl in Heq.
  unfold cache_block.
  destruct (toolUse b) as [tu|], (toolUse b') as [tu'|]; try done.
  injection Heq as Hid Hname Hinput _.
  apply (lower_id_truthy _ _ Hlaw) in Hid.
  destruct (tu_toolUseId tu) as [tid|], (tu_toolUseId tu') as [tid'|]; try done.
  destruct Hid as [Hid Ht]. by rewrite Ht, Hid, Hname, Hinput.
Qed.

Lemma extract_block_same st outs b b' :
  (∀ s, truthy_string (toLowerCase s) = truthy_string s) →
  lower_block b = lower_block b' → extract_block st outs b = extract_block st outs b'.
Proof.
  intros Hlaw Heq. apply (f_equal toolResult) in Heq. simpl in Heq.
  unfold extract_block.
  destruct (toolResult b) as [tr|], (toolResult b') as [tr'|]; try done.
  injection Heq as Hid _ _.
  apply (lower_id_truthy _ _ Hlaw) in Hid.
  destruct (tr_toolUseId tr) as [tid|], (tr_toolUseId tr') as [tid'|]; try done.
  destruct Hid as [Hid Ht]. by rewrite Ht, Hid.
Qed.

Lemma is_result_for_same idl b b' :
  lower_block b = lower_block b' → is_result_for idl b = is_result_for idl b'.
Proof.
  intros Heq. apply (f_equal toolResult) in Heq. simpl in Heq.
  unfold is_result_for.
  destruct (toolResult b) as [tr|], (toolResult b') as [tr'|]; try done.
  injection Heq as Hid _ _. unfold lower_id in Hid.
  destruct (tr_toolUseId tr) as [tid|], (tr_toolUseId tr') as [tid'|]; try done.
  injection Hid as Hid. by rewrite Hid.
Qed.

Lemma lower_pruned_block text b :
  lower_block (pruned_block text b) = pruned_block text (lower_block b).
Proof.
  unfold pruned_block, lower_block. simpl. f_equal. by destruct (toolResult b).
Qed.

Lemma replace_block_same idl text b b' :
  lower_block b = lower_block b' →
  lower_block (replace_block idl text b) = lower_block (replace_block idl text b').
Proof.
  intros Heq. unfold replace_block. rewrite (is_result_for_same idl b b' Heq).
  destruct (is_result_for idl b'); [|done].
  by rewrite !lower_pruned_block, Heq.
Qed.

(** Two messages with the same image have the same role and differ at most
    in the case of the identifiers of their blocks. *)
Lemma lower_message_inv m m' :
  lower_message m = lower_message m' →
  role m = role m' ∧
  ((∃ blocks blocks',
      content m = CArray blocks ∧ content m' = CArray blocks' ∧
      map lower_block blocks = map lower_block blocks' ∧
      ∀ c, with_content m c = with_content m' c) ∨
   (m = m' ∧ ∀ blocks, content m ≠ CArray blocks)).
Proof.
  unfold lower_message.
  destruct (content m) as [s|blocks|v] eqn:Hc;
    destruct (content m') as [s'|blocks'|v'] eqn:Hc'; intros Heq;
    try (split; [by rewrite Heq|right; split; [done|by intros ?]]);
    try (apply (f_equal content) in Heq; simpl in Heq;
         rewrite ?Hc, ?Hc' in Heq; discriminate).
  pose proof (f_equal role Heq) as Hr.
  pose proof (f_equal tool_call_id Heq) as Ht.
  pose proof (f_equal message_rest Heq) as Hm.
  pose proof (f_equal content Heq) as Hb. simpl in *.
  split; [done|]. left. exists blocks, blocks'.
  split; [done|]. split; [done|]. split; [by injection Hb|].
  intros c. unfold with_content. by rewrite Hr, Ht, Hm.
Qed.

Lemma cache_message_same st m m' :
  (∀ s, truthy_string (toLowerCase s) = truthy_string s) →
  lower_message m = lower_message m' → cache_message st m = cache_message st m'.
Proof.
  intros Hlaw [Hr [(blocks & blocks' & Hc & Hc' & Hmap & _)|[-> _]]]%lower_message_inv;
    [|done].
  unfold cache_message. rewrite Hr, Hc, Hc'. case_decide; [|done].
  apply (foldl_same_image _ lower_block); [|done].
  intros a x y. by apply cache_block_same.
Qed.

Lemma extract_message_same st outs m m' :
  (∀ s, truthy_string (toLowerCase s) = truthy_string s) →
  lower_message m = lower_message m' →
  extract_message st outs m = extract_message st outs m'.
Proof.
  intros Hlaw [Hr [(blocks & blocks' & Hc & Hc' & Hmap & _)|[-> _]]]%lower_message_inv;
    [|done].
  unfold extract_message. rewrite Hr, Hc, Hc'. case_decide; [|done].
  apply (foldl_same_image _ lower_block); [|done].
  intros a x y. by apply extract_block_same.
Qed.

Lemma lower_with_content m blocks :
  lower_message (with_content m (CArray blocks)) =
  with_content m (CArray (map lower_block blocks)).
Proof. done. Qed.

Lemma replace_message_same idl text m m' :
  lower_message m = lower_message m' →
  lower_message (replace_message idl text m).1 =
    lower_message (replace_message idl text m').1 ∧
  (replace_message idl text m).2 = (replace_message idl text m').2.
Proof.
  intros Heq.
  destruct (lower_message_inv m m' Heq)
    as [Hr [(blocks & blocks' & Hc & Hc' & Hmap & Hwith)|[-> _]]]; [|done].
  unfold replace_message. rewrite Hr, Hc, Hc'. case_decide; [|done].
  rewrite (existsb_same_image (is_result_for idl) lower_block blocks blocks')
    by (done || apply is_result_for_same).
  destruct (existsb (is_result_for idl) blocks'); [|done].
  cbn [fst snd]. split; [|done].
  rewrite !lower_with_content, Hwith. do 2 f_equal.
  apply map_same_image; [|done]. intros x y. apply replace_block_same.
Qed.

Lemma replace_loop_same idl text data data' :
  lower_ids data = lower_ids data' →
  lower_ids (replace_loop idl text data).1 =
    lower_ids (replace_loop idl text data').1 ∧
  (replace_loop idl text data).2 = (replace_loop idl text data').2.
Proof.
  revert data'. induction data as [|m data IH]; intros [|m' data'] Heq; try done.
  injection Heq as Hm Hrest. simpl.
  destruct (replace_message_same idl text m m' Hm) as [Hm1 Hm2].
  destruct (IH data' Hrest) as [Hl1 Hl2].
  destruct (replace_message idl text m) as [m1 modified].
  destruct (replace_message idl text m') as [m1' modified'].
  destruct (replace_loop idl text data) as [rest replaced].
  destruct (replace_loop idl text data') as [rest' replaced'].
  simpl in *. unfold lower_ids in *. simpl. by rewrite Hm1, Hl1, Hm2, Hl2.
Qed.

(** C8, as amended. The Bedrock operations that look identifiers up or
    write them normalize them to lowercase: for two message arrays that
    differ only in the case of their [toolUseId]s, and two identifiers
    that differ only in case, [cacheToolParameters] leaves the same state
    (given that the generic caching it ends with does), and
    [extractToolOutputs] returns the same outputs; [replaceToolOutput]
    returns the same answer and leaves arrays that again differ only in the
    case of their [toolUseId]s, and on one array it does the same for both
    identifiers. This holds for the host's case mapping, of which the
    proof uses only that it sends the empty string, and no other, to the
    empty string. *)
Theorem descriptor_ignores_identifier_case
    (generic : list Message → PluginState → PluginState)
    (data data' : list Message) (st : PluginState)
    (toolId toolId' prunedMessage : string) :
  (∀ s, truthy_string (toLowerCase s) = truthy_string s) →
  (∀ d d' s, lower_ids d = lower_ids d' → generic d s = generic d' s) →
  lower_ids data = lower_ids data' →
  toLowerCase toolId = toLowerCase toolId' →
  cacheToolParameters generic data st = cacheToolParameters generic data' st ∧
  extractToolOutputs data st = extractToolOutputs data' st ∧
  (replaceToolOutput data toolId prunedMessage).2 =
    (replaceToolOutput data' toolId' prunedMessage).2 ∧
  lower_ids (replaceToolOutput data toolId prunedMessage).1 =
    lower_ids (replaceToolOutput data' toolId' prunedMessage).1 ∧
  replaceToolOutput data toolId prunedMessage =
    replaceToolOutput data toolId' prunedMessage.
Proof.
  intros Hlaw Hgeneric Hdata Hid.
  destruct (replace_loop_same (toLowerCase toolId) prunedMessage data data' Hdata)
    as [Hfst Hsnd].
  split; [|split; [|split; [|split]]].
  - unfold cacheToolParameters. rewrite (Hgeneric data data') by done. f_equal.
    apply (foldl_same_image _ lower_message); [|done].
    intros a x y. by apply cache_message_same.
  - unfold extractToolOutputs. apply (foldl_same_image _ lower_message); [|done].
    intros a x y. by apply extract_message_same.
  - unfold replaceToolOutput. by rewrite <- Hid.
  - unfold replaceToolOutput. by rewrite <- Hid.
  - unfold replaceToolOutput. by rewrite Hid.
Qed.
End CaseFacts.

Section CaseExamples.
Import Bedrock Samples.
Local Existing Instance ascii_case.

Lemma descriptor_ignores_identifier_case_witness :
  cacheToolParameters (fun _ s => s) conversation no_state =
    cacheToolParameters (fun _ s => s) conversation_upper no_state ∧
  extractToolOutputs conversation no_state =
    extractToolOutputs conversation_upper no_state ∧
  (replaceToolOutput conversation "tooluse_abc" "[pruned]").2 =
    (replaceToolOutput conversation_upper "TOOLUSE_ABC" "[pruned]").2.
Proof.
  destruct (descriptor_ignores_identifier_case (fun _ s => s)
              conversation conversation_upper no_state
              "tooluse_abc" "TOOLUSE_ABC" "[pruned]") as (H1 & H2 & H3 & _).
  - apply truthy_toLowerCase_ascii.
  - reflexivity.
  - reflexivity.
  - reflexivity.
  - auto.
Defined.

(** C8 as stated fails for [trackNewToolResults]: a result whose identifier
    was seen before is counted as new when it comes in another case. *)
Lemma trackNewToolResults_is_case_sensitive :
  ¬ (∀ rid rid' tracker protectedTools,
       toLowerCase rid = toLowerCase rid' →
       (trackNewToolResults [tool_message rid] tracker protectedTools).2 =
       (trackNewToolResults [tool_message rid'] tracker protectedTools).2).
Proof.
  intros H.
  specialize (H "CALL_1" "call_1" (tracker_seen ["call_1"]) ∅ eq_refl).
  vm_compute in H. discriminate.
Qed.
End CaseExamples.


(** * Further properties *)

(** ** The State Store: round trips, teardown, isolation *)

Section StoreFacts.
Import StateManager.

Lemma count_set_same (st : t) s ids :
  getLastPruneCount (set st s ids) s =
  (Z.of_nat (length ids) - Z.of_nat (length (get st s)))%Z.
Proof.
  unfold getLastPruneCount, set, get. rewrite lookup_insert_eq. simpl.
  by destruct (st !! s).
Qed.

Lemma count_set_other (st : t) s s' ids :
  s ≠ s' → getLastPruneCount (set st s ids) s' = getLastPruneCount st s'.
Proof. intros Hne. unfold getLastPruneCount, set. by rewrite lookup_insert_ne. Qed.

Lemma step_other_session (st : t) o s' :
  session_of o ≠ s' →
  get (step st o) s' = get st s' ∧
  getLastPruneCount (step st o) s' = getLastPruneCount st s'.
Proof.
  intros Hne. destruct o as [s|s ids|s|s|s]; simpl in *; try done.
  - by rewrite get_set_other, count_set_other.
  - unfold get, getLastPruneCount, resetLastPruneCount.
    by rewrite lookup_alter_ne.
  - unfold get, getLastPruneCount, clear. by rewrite lookup_delete_ne.
Qed.

(** X1. What [set] stores is what [get] returns, and the count it records
    is the length of the new list minus the length of the list stored
    before (nothing stored counts as length 0), so it is negative when the
    list shrinks. *)
Theorem set_get_round_trip (st : t) (s : string) (ids : list string) :
  get (set st s ids) s = ids ∧
  getLastPruneCount (set st s ids) s =
    (Z.of_nat (length ids) - Z.of_nat (length (get st s)))%Z ∧
  getLastPruneCount (set (set st s ids) s ids) s = 0%Z.
Proof.
  split; [apply get_set_same|]. split; [apply count_set_same|].
  rewrite count_set_same, get_set_same. lia.
Qed.

(** X2. Sessions do not share state: a sequence of operations none of which
    names the session [s] changes neither the list nor the count stored for
    [s]. *)
Theorem sessions_are_isolated (st : t) (ops : list op) (s : string) :
  leaves_alone s ops = true →
  get (run ops st) s = get st s ∧
  getLastPruneCount (run ops st) s = getLastPruneCount st s.
Proof.
  revert st. induction ops as [|o ops IH]; intros st Hal; [done|].
  simpl in Hal. apply andb_true_iff in Hal as [Ho Hrest].
  apply bool_decide_eq_true in Ho.
  destruct (step_other_session st o s Ho) as [Hg Hc].
  destruct (IH (step st o) Hrest) as [Hg' Hc'].
  simpl. unfold run in *. by rewrite Hg', Hc', Hg, Hc.
Qed.

Lemma sessions_are_isolated_witness :
  get (run [OpSet "b" ["x"]; OpClear "c"; OpResetLastPruneCount "b"]
         (set ∅ "a" ["p"; "q"])) "a" = ["p"; "q"] ∧
  getLastPruneCount (run [OpSet "b" ["x"]; OpClear "c"; OpResetLastPruneCount "b"]
                       (set ∅ "a" ["p"; "q"])) "a" = 2%Z.
Proof.
  destruct (sessions_are_isolated (set ∅ "a" ["p"; "q"])
              [OpSet "b" ["x"]; OpClear "c"; OpResetLastPruneCount "b"] "a")
    as [Hg Hc].
  - vm_compute. reflexivity.
  - rewrite Hg, Hc. rewrite get_set_same, count_set_same. split; reflexivity.
Defined.

(** X3. Teardown forgets the session: after [clear], [get] returns the empty
    list and the count is 0; clearing again changes nothing; and the next
    [set] counts from zero, as for a session never seen. *)
Theorem clear_forgets_session (st : t) (s : string) (ids : list string) :
  get (clear st s) s = [] ∧
  getLastPruneCount (clear st s) s = 0%Z ∧
  clear (clear st s) s = clear st s ∧
  getLastPruneCount (set (clear st s) s ids) s = Z.of_nat (length ids).
Proof.
  assert (get (clear st s) s = []) as Hg.
  { unfold get, clear. by rewrite lookup_delete_eq. }
  split; [done|]. split.
  { unfold getLastPruneCount, clear. by rewrite lookup_delete_eq. }
  split.
  { unfold clear. apply delete_delete_eq. }
  rewrite count_set_same, Hg. simpl. lia.
Qed.

(** X4. [resetLastPruneCount] zeroes the count of a stored session and
    keeps its list; it creates no entry for a session that has none, and
    leaves the lists of all sessions as they were. *)
Theorem resetLastPruneCount_keeps_ids (st : t) (s : string) :
  getLastPruneCount (resetLastPruneCount st s) s = 0%Z ∧
  (∀ s', get (resetLastPruneCount st s) s' = get st s') ∧
  (st !! s = None → resetLastPruneCount st s = st) ∧
  resetLastPruneCount (resetLastPruneCount st s) s = resetLastPruneCount st s.
Proof.
  split.
  { unfold getLastPruneCount, resetLastPruneCount. rewrite lookup_alter_eq.
    by destruct (st !! s). }
  split; [intros s'; apply get_reset|]. split.
  - intros Hnone. unfold resetLastPruneCount. apply map_eq. intros k.
    rewrite lookup_alter. case_decide; subst; [by rewrite Hnone|done].
  - unfold resetLastPruneCount. apply map_eq. intros k.
    destruct (decide (s = k)) as [->|Hne].
    + rewrite !lookup_alter_eq. by destruct (st !! k).
    + by rewrite !lookup_alter_ne.
Qed.
End StoreFacts.

(** ** The Structural Mutator: what it leaves alone, and running it twice *)

Section MutatorFrame.
Import Host.
Variable isMessageCompacted : SessionState → WithParts → bool.

Lemma prunePart_tool st p :
  ∃ p',
    prunePart st (PTool p) = PTool p' ∧
    callID p' = callID p ∧ tool p' = tool p ∧
    status (state p') = status (state p) ∧
    part_rest p' = part_rest p ∧ state_rest (state p') = state_rest (state p) ∧
    (callID p ∉ toolIds (prune_ st) → p' = p) ∧
    (status (state p) = pending ∨ status (state p) = running → p' = p).
Proof.
  destruct (decide (callID p ∈ toolIds (prune_ st))) as [Hin|Hin].
  - rewrite prunePart_pruned by done. eexists. split; [done|].
    destruct (decide (status (state p) = completed)) as [Hc|Hc].
    + rewrite (pruneError_not_error (pruneInput _)).
      2:{ unfold pruneInput, pruneOutput.
          repeat (case_bool_decide || case_decide || simpl); congruence. }
      unfold pruneInput, pruneOutput.
      repeat (case_bool_decide || case_decide || simpl);
        repeat split; try done; intros [?|?]; congruence.
    + rewrite pruneOutput_not_completed, pruneInput_not_completed by done.
      unfold pruneError. case_decide as He; simpl; repeat split; try done;
        intros [?|?]; congruence.
  - rewrite prunePart_unpruned by done. eexists. repeat split; done.
Qed.

(** X5. [prune] keeps the shape of the history: the number of messages,
    each message's [info] and number of parts, and each part's type. A
    compacted message is returned as it is; so is every part that is not a
    tool part, every tool part whose call identifier is not in the pruned
    set, and every tool part that is still pending or running. A tool part
    keeps its call identifier, tool name, status and untouched properties
    in every case. *)
Theorem prune_keeps_shape st (msgs : list WithParts) :
  length (prune isMessageCompacted st msgs) = length msgs ∧
  ∀ i msg,
    msgs !! i = Some msg →
    ∃ msg',
      prune isMessageCompacted st msgs !! i = Some msg' ∧
      info msg' = info msg ∧
      length (parts msg') = length (parts msg) ∧
      (isMessageCompacted st msg = true → msg' = msg) ∧
      ∀ j part,
        parts msg !! j = Some part →
        ∃ part',
          parts msg' !! j = Some part' ∧
          part_type part' = part_type part ∧
          match part with
          | POther _ _ => part' = part
          | PTool p =>
              ∃ p',
                part' = PTool p' ∧
                callID p' = callID p ∧ tool p' = tool p ∧
                status (state p') = status (state p) ∧
                part_rest p' = part_rest p ∧
                state_rest (state p') = state_rest (state p) ∧
                (callID p ∉ toolIds (prune_ st) → p' = p) ∧
                (status (state p) = pending ∨ status (state p) = running → p' = p)
          end.
Proof.
  split; [unfold prune, pruneMessages; by rewrite length_map|].
  intros i msg Hi. exists (pruneMessage isMessageCompacted st msg).
  split; [unfold prune, pruneMessages; by rewrite list_lookup_fmap, Hi|].
  unfold pruneMessage. destruct (isMessageCompacted st msg) eqn:Hc; simpl.
  - repeat split; try done. intros j part Hj. exists part.
    split; [done|]. split; [done|]. destruct part as [p|ty fs]; [|done].
    exists p. repeat split; done.
  - split; [done|]. split; [by rewrite length_map|]. split; [done|].
    intros j part Hj. exists (prunePart st part).
    split; [by rewrite list_lookup_fmap, Hj|].
    destruct part as [p|ty fs]; [|done].
    destruct (prunePart_tool st p) as (p' & Hp & Hrest).
    rewrite Hp. split; [done|]. by exists p'.
Qed.

Lemma set_field_same k v (o : obj) :
  lookup_field k o = v → is_undefined v = false → set_field k v o = o.
Proof.
  intros Hl Hv. induction o as [|[k0 v0] o IH]; simpl in *.
  - subst v. discriminate.
  - case_decide; subst; [done|]. by rewrite IH.
Qed.

Lemma redact_field_settles k k' i :
  redact_field k i = i → redact_field k (redact_field k' i) = redact_field k' i.
Proof.
  destruct i as [| | | | | |o]; try done. simpl.
  destruct (is_undefined (lookup_field k' o)) eqn:Hk'; simpl.
  { intros H. exact H. }
  intros Hfix. rewrite lookup_set_field.
  destruct (decide (k = k')) as [->|Hne].
  - simpl. f_equal. apply set_field_same; [|done].
    rewrite lookup_set_field. by rewrite decide_True.
  - destruct (is_undefined (lookup_field k o)) eqn:Hk; [done|].
    f_equal. apply set_field_same; [|done].
    rewrite lookup_set_field, decide_False by done.
    injection Hfix as Hfix. rewrite <- Hfix at 1.
    rewrite lookup_set_field. by rewrite decide_True.
Qed.

Lemma redact_field_idemp k i :
  redact_field k (redact_field k i) = redact_field k i.
Proof.
  destruct i as [| | | | | |o]; try done. simpl.
  destruct (is_undefined (lookup_field k o)) eqn:Hk; simpl; [by rewrite Hk|].
  rewrite lookup_set_field, decide_True by done. simpl. f_equal.
  apply set_field_same; [|done]. rewrite lookup_set_field. by rewrite decide_True.
Qed.

Lemma redact_string_idemp v : redact_string (redact_string v) = redact_string v.
Proof. by destruct v. Qed.

Lemma redact_error_input_idemp i :
  redact_error_input (redact_error_input i) = redact_error_input i.
Proof.
  destruct i as [| | | | |xs|o]; try done; simpl; f_equal; rewrite map_map;
    apply map_ext; intros x; simpl; by rewrite redact_string_idemp.
Qed.

Lemma pruneError_error p :
  status (state p) = error →
  pruneError p =
  with_state p (with_input (state p) (redact_error_input (input (state p)))).
Proof. intros Hst. unfold pruneError. by rewrite decide_True. Qed.

Lemma prunePart_idemp st part : prunePart st (prunePart st part) = prunePart st part.
Proof.
  destruct part as [p|ty fs]; [|done].
  destruct (decide (callID p ∈ toolIds (prune_ st))) as [Hin|Hin];
    [|by rewrite !prunePart_unpruned].
  rewrite (prunePart_pruned st p Hin).
  destruct (status (state p)) eqn:Hst.
  - rewrite pruneOutput_not_completed, pruneInput_not_completed by congruence.
    rewrite pruneError_not_error by congruence.
    rewrite prunePart_pruned by done.
    rewrite pruneOutput_not_completed, pruneInput_not_completed by congruence.
    by rewrite pruneError_not_error by congruence.
  - rewrite pruneOutput_not_completed, pruneInput_not_completed by congruence.
    rewrite pruneError_not_error by congruence.
    rewrite prunePart_pruned by done.
    rewrite pruneOutput_not_completed, pruneInput_not_completed by congruence.
    by rewrite pruneError_not_error by congruence.
  - destruct (decide (tool p = "write")) as [Hw|Hw];
      [|destruct (decide (tool p = "edit")) as [He|He]].
    + rewrite pruneOutput_content_tool, pruneInput_write by auto.
      rewrite pruneError_not_error by (simpl; congruence).
      rewrite prunePart_pruned by done.
      rewrite pruneOutput_content_tool, pruneInput_write by auto.
      rewrite pruneError_not_error by (simpl; congruence).
      unfold with_state, with_input. simpl. by rewrite redact_field_idemp.
    + rewrite pruneOutput_content_tool, pruneInput_edit by auto.
      rewrite pruneError_not_error by (simpl; congruence).
      rewrite prunePart_pruned by done.
      rewrite pruneOutput_content_tool, pruneInput_edit by auto.
      rewrite pruneError_not_error by (simpl; congruence).
      unfold with_state, with_input. simpl.
      rewrite (redact_field_settles "oldString" "newString")
        by apply redact_field_idemp.
      by rewrite redact_field_idemp.
    + rewrite pruneOutput_other_tool by done.
      rewrite pruneInput_other_tool by done.
      rewrite pruneError_not_error by (simpl; congruence).
      rewrite prunePart_pruned by done.
      rewrite pruneOutput_other_tool by done.
      rewrite pruneInput_other_tool by done.
      by rewrite pruneError_not_error by (simpl; congruence).
  - rewrite pruneOutput_not_completed, pruneInput_not_completed by congruence.
    rewrite (pruneError_error p) by done.
    set (q := with_state p _).
    assert (callID q ∈ toolIds (prune_ st)) as Hq by done.
    assert (status (state q) = error) as Hsq by done.
    rewrite prunePart_pruned by done.
    rewrite pruneOutput_not_completed, pruneInput_not_completed by congruence.
    rewrite (pruneError_error q) by done. subst q.
    unfold with_state, with_input. simpl. by rewrite redact_error_input_idemp.
Qed.

(** X6. Running [prune] on its own result changes nothing: a placeholder is
    never redacted again. This holds when being compacted depends on a
    message's [info] only, which [prune] does not touch. *)
Theorem prune_idempotent st (msgs : list WithParts) :
  (∀ m m', info m = info m' → isMessageCompacted st m = isMessageCompacted st m') →
  prune isMessageCompacted st (prune isMessageCompacted st msgs) =
  prune isMessageCompacted st msgs.
Proof.
  intros Hinfo. unfold prune, pruneMessages. rewrite map_map.
  apply map_ext. intros msg. unfold pruneMessage at 2.
  destruct (isMessageCompacted st msg) eqn:Hc.
  - unfold pruneMessage. by rewrite Hc.
  - unfold pruneMessage.
    rewrite (Hinfo _ msg) by done. rewrite Hc. simpl. f_equal.
    rewrite map_map. apply map_ext. intros part. apply prunePart_idemp.
Qed.
End MutatorFrame.

Section MutatorFrameExamples.
Import Host Samples.

Lemma prune_idempotent_witness :
  prune never_compacted (pruned ["call_1"; "call_2"])
    (prune never_compacted (pruned ["call_1"; "call_2"])
       [message_of [write_part; failed_bash_part]]) =
  prune never_compacted (pruned ["call_1"; "call_2"])
    [message_of [write_part; failed_bash_part]].
Proof.
  apply (prune_idempotent never_compacted (pruned ["call_1"; "call_2"])
           [message_of [write_part; failed_bash_part]]).
  intros m m' _. reflexivity.
Defined.
End MutatorFrameExamples.

(** ** The Semantic Janitor: every path of a run *)

Section RunPaths.
Import Host Janitor.

Ltac run_unfold :=
  unfold run, run_among, run_body, fetch, oracle, toast, log, emit, emit_all,
    stateManager_get, stateManager_set, suspended, try_catch, mbind, M_bind,
    bind, ret, throw;
  simpl.

Lemma oracle_calls_scan_log messages : oracle_calls (scan_log (scan messages)) = 0.
Proof.
  unfold oracle_calls. pose proof (scan_log_debug messages) as H.
  induction H as [|e es [m ->] _ IH]; simpl; [done|]. exact IH.
Qed.

Lemma oracle_calls_expand_log children ids :
  oracle_calls (expand_log children ids) = 0.
Proof.
  unfold oracle_calls, expand_log. induction ids as [|x ids IH]; simpl; [done|].
  rewrite List.filter_app, length_app, IH. by destruct (children !! x).
Qed.

Lemma oracle_calls_app es1 es2 :
  oracle_calls (es1 ++ es2) = (oracle_calls es1 + oracle_calls es2)%nat.
Proof. unfold oracle_calls. by rewrite List.filter_app, length_app. Qed.

(** X7. A run never raises and writes to its own session only. Whatever
    the orchestrator, the oracle, the notification and the other tasks do
    (a call that fails throws an [Error], and the logger does not throw),
    the run returns normally and only appends to the trace; the list and
    the count of every other session are what the operations of the other
    tasks made of them; and when no other task names the run's session
    while the run is suspended, every identifier stored for the session
    before the run is stored after it. *)
Theorem run_never_harms others env sessionID w :
  ∃ w' es ops,
    run_among others env sessionID w = (Normal tt, w') ∧
    trace w' = trace w ++ es ∧
    ops `prefix_of` all_others others ∧
    (∀ s, s ≠ sessionID →
          StateManager.get (store w') s =
            StateManager.get (StateManager.run ops (store w)) s ∧
          StateManager.getLastPruneCount (store w') s =
            StateManager.getLastPruneCount (StateManager.run ops (store w)) s) ∧
    (StateManager.leaves_alone sessionID (all_others others) = true →
     ∀ id, id ∈ StateManager.get (store w) sessionID →
           id ∈ StateManager.get (store w') sessionID).
Proof.
  destruct (run_among_outcome others env sessionID w)
    as (w' & es & Hrun & Htr & Hstore).
  exists w', es.
  assert (∀ ops, store w' = StateManager.run ops (store w) →
            (∀ s, s ≠ sessionID →
               StateManager.get (store w') s =
                 StateManager.get (StateManager.run ops (store w)) s ∧
               StateManager.getLastPruneCount (store w') s =
                 StateManager.getLastPruneCount (StateManager.run ops (store w)) s) ∧
            (StateManager.leaves_alone sessionID ops = true →
             ∀ id, id ∈ StateManager.get (store w) sessionID →
                   id ∈ StateManager.get (store w') sessionID)) as Hplain.
  { intros ops ->. split; [done|]. intros Hal id Hid.
    by rewrite (proj1 (same_entry _ (store w) sessionID
                         (run_leaves_entry ops (store w) sessionID Hal))). }
  destruct Hstore as [Hs|[Hs|[Hs|(final & post & Hpost & Hs)]]].
  - exists (during_fetch others). split; [done|]. split; [done|].
    split; [unfold all_others; by eexists|].
    destruct (Hplain _ Hs) as [Hother Hown].
    split; [done|]. intros (Hfe & _)%leaves_alone_all. by apply Hown.
  - exists (during_fetch others ++ during_get others).
    split; [done|]. split; [done|].
    split.
    { exists (during_oracle others ++ during_set others ++ during_toast others).
      unfold all_others. by rewrite <- ?app_assoc. }
    destruct (Hplain _ Hs) as [Hother Hown]. split; [done|].
    intros (Hfe & Hge & _)%leaves_alone_all. apply Hown.
    by rewrite leaves_alone_app, Hfe, Hge.
  - exists (during_fetch others ++ during_get others ++ during_oracle others).
    split; [done|]. split; [done|].
    split.
    { exists (during_set others ++ during_toast others).
      unfold all_others. by rewrite <- ?app_assoc. }
    destruct (Hplain _ Hs) as [Hother Hown]. split; [done|].
    intros (Hfe & Hge & Hor & _)%leaves_alone_all. apply Hown.
    by rewrite !leaves_alone_app, Hfe, Hge, Hor.
  - exists (during_fetch others ++ during_get others ++ during_oracle others ++ post).
    split; [done|]. split; [done|]. split.
    { unfold all_others. destruct Hpost as [->| ->].
      - exists (during_toast others). by rewrite <- ?app_assoc.
      - exists []. by rewrite app_nil_r, <- ?app_assoc. }
    split.
    + intros s Hne. apply same_entry. rewrite Hs.
      rewrite !app_assoc, run_app. apply run_entry_local.
      rewrite set_other_entry by done.
      unfold store_at_commit, store_at_read. by rewrite !run_app.
    + intros (Hfe & Hge & Hor & Hse & Hto)%leaves_alone_all id Hid.
      assert (StateManager.leaves_alone sessionID post = true) as Hp.
      { destruct Hpost as [->| ->]; [done|]. by rewrite leaves_alone_app, Hse, Hto. }
      rewrite Hs.
      rewrite (proj1 (same_entry _ _ sessionID (run_leaves_entry post _ sessionID Hp))).
      rewrite get_set_same, elem_of_set_of, elem_of_app. left.
      unfold store_at_read.
      by rewrite (proj1 (same_entry _ (store w) sessionID
                           (run_leaves_entry _ (store w) sessionID Hfe))).
Qed.

(** X8. When the history cannot be fetched, the run only logs: the store
    is untouched and the trace gains exactly the start, the fetch and the
    failure. *)
Theorem run_fetch_failure env sessionID w :
  session_messages env sessionID = None →
  run env sessionID w =
  (Normal tt,
   {| store := store w;
      trace := trace w ++
               [EvLog Info "Starting analysis";
                EvLog Debug "Fetching session messages";
                EvFetch sessionID;
                EvLog Error "Analysis failed"] |}).
Proof.
  intros Hf. run_unfold. rewrite Hf. simpl. by rewrite <- !app_assoc.
Qed.

Lemma oracle_calls_cons e es :
  oracle_calls (e :: es) =
  ((if is_oracle_call e then 1 else 0) + oracle_calls es)%nat.
Proof. unfold oracle_calls. simpl. by destruct (is_oracle_call e). Qed.

Ltac count_oracle_calls :=
  repeat (rewrite oracle_calls_cons || rewrite oracle_calls_app
          || rewrite oracle_calls_scan_log || rewrite oracle_calls_expand_log);
  unfold oracle_calls; simpl; lia.

Ltac find_oracle_call Hin :=
  repeat (rewrite elem_of_cons in Hin || rewrite elem_of_app in Hin
          || rewrite elem_of_nil in Hin);
  repeat match type of Hin with _ ∨ _ => destruct Hin as [Hin|Hin] end;
  try discriminate; try done;
  try (apply scan_log_no_error in Hin as [? ?]; discriminate);
  try (apply expand_log_debug in Hin; discriminate).

(** X9. The oracle is called at most once in a run, and only with a
    non-empty list of identifiers of tool calls of a fetched history of at
    least 3 messages, none of which is stored as pruned. *)
Theorem run_asks_about_unpruned_only env sessionID w :
  ∃ w' es,
    run env sessionID w = (Normal tt, w') ∧
    trace w' = trace w ++ es ∧
    (oracle_calls es ≤ 1)%nat ∧
    ∀ ids,
      EvOracle ids ∈ es →
      ids ≠ [] ∧
      ∃ messages,
        session_messages env sessionID = Some messages ∧
        (3 ≤ length messages)%nat ∧
        ∀ id, id ∈ ids →
              id ∈ toolCallIds (scan messages) ∧
              id ∉ StateManager.get (store w) sessionID.
Proof.
  run_unfold.
  destruct (session_messages env sessionID) as [messages|] eqn:Hf; simpl.
  2:{ eexists _, _. split; [reflexivity|]. simpl. rewrite <- !app_assoc.
      split; [reflexivity|]. split; [count_oracle_calls|].
      intros ids Hin. find_oracle_call Hin. }
  destruct (length messages <? 3)%nat eqn:Hlen; simpl.
  { eexists _, _. split; [reflexivity|]. simpl. rewrite <- !app_assoc.
    split; [reflexivity|]. split; [count_oracle_calls|].
    intros ids Hin. find_oracle_call Hin. }
  apply Nat.ltb_ge in Hlen.
  assert (∀ ids,
            EvOracle ids =
              EvOracle (unprunedToolCallIds (StateManager.get (store w) sessionID)
                          (toolCallIds (scan messages))) →
            (length (unprunedToolCallIds (StateManager.get (store w) sessionID)
                       (toolCallIds (scan messages))) =? 0)%nat = false →
            ids ≠ [] ∧
            ∃ messages0,
              Some messages = Some messages0 ∧ (3 ≤ length messages0)%nat ∧
              ∀ id, id ∈ ids →
                    id ∈ toolCallIds (scan messages0) ∧
                    id ∉ StateManager.get (store w) sessionID) as Hgood.
  { intros ids [= ->] Hz. split.
    - intros Hnil. rewrite Hnil in Hz. discriminate.
    - exists messages. split; [done|]. split; [done|].
      intros id Hid. unfold unprunedToolCallIds in Hid.
      apply list_elem_of_filter in Hid. tauto. }
  destruct (0 <? size _)%nat; simpl;
    (destruct (length (unprunedToolCallIds _ _) =? 0)%nat eqn:Hz; simpl;
     [eexists _, _; split; [reflexivity|]; simpl; rewrite <- !app_assoc;
      split; [reflexivity|]; split;
      [count_oracle_calls|intros ids Hin; find_oracle_call Hin]
     |]);
    (destruct (generateObject env _ messages) as [r|]; simpl;
     [destruct (0 <? length _)%nat; simpl; [destruct (showToast env _ _); simpl|]|]);
    (eexists _, _; split; [reflexivity|]; simpl; rewrite <- !app_assoc;
     split; [reflexivity|]; split;
     [count_oracle_calls
     |intros ids Hin; find_oracle_call Hin; by apply Hgood]).
Qed.
End RunPaths.

(** ** The Semantic Janitor: notification and the committed list *)

Section CommitFacts.
Import Host Janitor.

(** X10. After a commit a notification is attempted exactly when the
    expanded list is not empty, with the number of expanded identifiers and
    the token estimate: a quarter, rounded, of the total length (in UTF-16
    code units, as the code's [length] counts) of the cached outputs of the
    expanded identifiers. A notification that throws is logged on its own:
    the outer handler is not entered and the commit is not taken back. *)
Theorem run_notifies_when_new others env sessionID w messages result :
  session_messages env sessionID = Some messages →
  (3 ≤ length messages)%nat →
  unprunedToolCallIds
    (StateManager.get (store_at_read others (store w)) sessionID)
    (toolCallIds (scan messages)) ≠ [] →
  generateObject env
    (unprunedToolCallIds
       (StateManager.get (store_at_read others (store w)) sessionID)
       (toolCallIds (scan messages))) messages = Some result →
  let final := expand (batchToolChildren (scan messages)) (pruned_tool_call_ids result) in
  let tokens := round_div4 (totalCharsSaved (toolOutputs (scan messages)) final) in
  let committed :=
    set_of (StateManager.get (store_at_read others (store w)) sessionID ++ final) in
  ∃ w' es,
    run_among others env sessionID w = (Normal tt, w') ∧
    trace w' = trace w ++ es ∧
    (EvLog Error "Analysis failed" ∉ es) ∧
    store w' =
      StateManager.run
        (during_set others ++ if decide (final = []) then [] else during_toast others)
        (StateManager.set (store_at_commit others (store w)) sessionID committed) ∧
    (final = [] → ∀ n t, EvToast n t ∉ es) ∧
    (final ≠ [] →
     EvToast (length final) tokens ∈ es ∧
     (showToast env (length final) tokens = false →
      EvLog Error "Failed to show toast notification" ∈ es) ∧
     (showToast env (length final) tokens = true →
      EvLog Info "Toast notification shown" ∈ es)).
Proof.
  intros Hf Hlen Hne Ho final tokens committed.
  destruct (run_among_commits others env sessionID w messages result Hf Hlen Hne Ho)
    as (w' & es & Hrun & Htr & Hstore & _ & Hnoerr & Hnone & Hsome).
  by exists w', es.
Qed.




End CommitFacts.

Section CommitExamples.
Import Host Janitor Samples.

Lemma run_notifies_when_new_witness :
  ∃ w' es,
    run_among busy_elsewhere (env_of history (Some names_batch)) "ses_1" fresh_world
      = (Normal tt, w') ∧
    trace w' = trace fresh_world ++ es ∧
    EvToast 3 4 ∈ es.
Proof.
  destruct (run_notifies_when_new busy_elsewhere
              (env_of history (Some names_batch)) "ses_1"
              fresh_world history names_batch)
    as (w' & es & Hrun & Htr & _ & _ & _ & Hnew).
  - reflexivity.
  - simpl. lia.
  - vm_compute. discriminate.
  - reflexivity.
  - exists w', es. split; [done|]. split; [done|].
    apply Hnew. vm_compute. discriminate.
Defined.

Lemma run_fetch_failure_witness :
  run {| session_messages := fun _ => None;
         generateObject := fun _ _ => None;
         showToast := fun _ _ => true |} "ses_1" fresh_world =
  (Normal tt,
   {| store := ∅;
      trace := [EvLog Info "Starting analysis";
                EvLog Debug "Fetching session messages";
                EvFetch "ses_1";
                EvLog Error "Analysis failed"] |}).
Proof.
  apply (run_fetch_failure
           {| session_messages := fun _ => None;
              generateObject := fun _ _ => None;
              showToast := fun _ _ => true |} "ses_1" fresh_world).
  reflexivity.
Defined.
End CommitExamples.

(** ** The Semantic Janitor: what the scan records *)

Section ScanProperties.
Import Host Janitor.

Lemma scan_as_fold messages :
  scan messages = foldl scan_part scan_start (history_parts messages).
Proof.
  unfold scan, history_parts. generalize scan_start.
  induction messages as [|m ms IH]; intros sc; simpl; [done|].
  rewrite foldl_app. apply IH.
Qed.

Lemma toolCallIds_scan_part sc part :
  toolCallIds (scan_part sc part) = toolCallIds sc ++ option_list (tool_id part).
Proof.
  destruct part as [p|]; simpl; [|by rewrite app_nil_r].
  destruct (truthy_string (callID p)); simpl; [|by rewrite app_nil_r].
  apply toolCallIds_scan_tool.
Qed.

Lemma toolCallIds_foldl ps sc :
  toolCallIds (foldl scan_part sc ps) = toolCallIds sc ++ omap tool_id ps.
Proof.
  revert sc. induction ps as [|part ps IH]; intros sc; simpl.
  - by rewrite app_nil_r.
  - rewrite IH, toolCallIds_scan_part, <- app_assoc. f_equal.
    by destruct (tool_id part).
Qed.

Lemma toolOutputs_scan_tool sc p :
  toolOutputs (scan_tool sc p) =
  match status (state p), output (state p) with
  | completed, Some o =>
      if truthy_string o then <[callID p := o]> (toolOutputs sc) else toolOutputs sc
  | _, _ => toolOutputs sc
  end.
Proof.
  unfold scan_tool. case_decide; [done|].
  destruct (currentBatchId sc); [|done]. by destruct (startsWith _ _).
Qed.

Lemma toolOutputs_foldl ps seen sc :
  (∀ cid o, toolOutputs sc !! cid = Some o → output_of seen cid o) →
  ∀ cid o, toolOutputs (foldl scan_part sc ps) !! cid = Some o →
           output_of (seen ++ ps) cid o.
Proof.
  revert seen sc. induction ps as [|part ps IH]; intros seen sc Hsc cid o; simpl.
  - rewrite app_nil_r. apply Hsc.
  - replace (seen ++ part :: ps) with ((seen ++ [part]) ++ ps)
      by by rewrite <- app_assoc.
    apply IH. clear cid o. intros cid o Hl.
    assert (output_of seen cid o → output_of (seen ++ [part]) cid o) as Hmono.
    { intros (p & Hin & ?). exists p. split; [|done]. apply elem_of_app. auto. }
    destruct part as [p|]; simpl in Hl; [|by apply Hmono, Hsc].
    destruct (truthy_string (callID p)); [|by apply Hmono, Hsc].
    rewrite toolOutputs_scan_tool in Hl.
    destruct (status (state p)) eqn:Hst; try by apply Hmono, Hsc.
    destruct (output (state p)) as [o'|] eqn:Hout; [|by apply Hmono, Hsc].
    destruct (truthy_string o') eqn:Ht; [|by apply Hmono, Hsc].
    destruct (decide (callID p = cid)) as [<-|Hne].
    + rewrite lookup_insert_eq in Hl. injection Hl as <-.
      exists p. split; [|done]. apply elem_of_app. right.
      by apply list_elem_of_singleton.
    + rewrite lookup_insert_ne in Hl by done. by apply Hmono, Hsc.
Qed.

(** X12. The scan collects the call identifier of every tool part that has
    one, in the order of the history and with repeats, whatever the part's
    status and whether or not it belongs to a batch; and every output it
    caches for sizing is the non-empty output of a completed tool part with
    that identifier. *)
Theorem scan_collects_tool_calls (messages : list WithParts) :
  toolCallIds (scan messages) = omap tool_id (history_parts messages) ∧
  ∀ cid o,
    toolOutputs (scan messages) !! cid = Some o →
    ∃ p, PTool p ∈ history_parts messages ∧ callID p = cid ∧
         status (state p) = completed ∧ output (state p) = Some o ∧
         truthy_string o = true.
Proof.
  rewrite scan_as_fold. split; [apply toolCallIds_foldl|].
  apply (toolOutputs_foldl (history_parts messages) [] scan_start).
  intros cid o Hl. simpl in Hl. by rewrite lookup_empty in Hl.
Qed.

(** *** The batch relation *)

Lemma startsWith_truthy s p :
  truthy_string p = true → startsWith s p = true → truthy_string s = true.
Proof. destruct s, p; done. Qed.

Lemma scan_child sc k b :
  currentBatchId sc = Some b → is_batch_child k = true →
  currentBatchId (scan_part sc (PTool k)) = Some b ∧
  batchToolChildren (scan_part sc (PTool k)) =
    alter (fun children => children ++ [callID k]) b (batchToolChildren sc).
Proof.
  intros Hb [Hk Hprt]%andb_true_iff. apply bool_decide_eq_true in Hk.
  simpl. rewrite (startsWith_truthy _ "prt_") by done.
  unfold scan_tool. rewrite decide_False by done. by rewrite Hb, Hprt.
Qed.

Lemma scan_children kids sc b acc :
  currentBatchId sc = Some b →
  batchToolChildren sc !! b = Some acc →
  forallb is_batch_child kids = true →
  currentBatchId (foldl scan_part sc (map PTool kids)) = Some b ∧
  batchToolChildren (foldl scan_part sc (map PTool kids)) !! b =
    Some (acc ++ map callID kids).
Proof.
  revert sc acc. induction kids as [|k kids IH]; intros sc acc Hb Hacc Hkids.
  - simpl. by rewrite app_nil_r.
  - cbn [map foldl]. simpl in Hkids. apply andb_true_iff in Hkids as [Hk Hkids].
    destruct (scan_child sc k b Hb Hk) as [Hb' Hch].
    destruct (IH (scan_part sc (PTool k)) (acc ++ [callID k])) as [H1 H2];
      [done| |done|].
    + rewrite Hch, lookup_alter_eq, Hacc. done.
    + split; [done|]. rewrite H2, <- app_assoc. done.
Qed.

(** Once the cursor has left a batch, its children stay as recorded unless
    a later batch call carries the same identifier. *)
Lemma scan_keeps_closed rest sc b :
  currentBatchId sc ≠ Some b →
  forallb (fun p => negb (bool_decide (tool p = "batch") &&
                          bool_decide (callID p = b)))
          (omap scanned rest) = true →
  batchToolChildren (foldl scan_part sc rest) !! b = batchToolChildren sc !! b.
Proof.
  revert sc. induction rest as [|part rest IH]; intros sc Hb Hno; [done|].
  simpl. destruct part as [p|]; simpl in *; [|by apply IH].
  destruct (truthy_string (callID p)) eqn:Ht; [|by apply IH].
  simpl in Hno. apply andb_true_iff in Hno as [Hp Hno].
  unfold scan_tool. destruct (decide (tool p = "batch")) as [Hbatch|Hbatch].
  - assert (callID p ≠ b) as Hne.
    { intros Heq.
      rewrite (bool_decide_eq_true_2 _ Hbatch), (bool_decide_eq_true_2 _ Heq) in Hp.
      discriminate. }
    rewrite IH; simpl; [by rewrite lookup_insert_ne|congruence|done].
  - destruct (currentBatchId sc) as [b'|] eqn:Hcur.
    + destruct (startsWith _ _).
      * rewrite IH; simpl; [|done|done].
        rewrite lookup_alter_ne; [done|congruence].
      * by rewrite IH.
    + by rewrite IH.
Qed.

Lemma scan_closes rest sc b :
  currentBatchId sc = Some b →
  closes_batch b rest = true →
  batchToolChildren (foldl scan_part sc rest) !! b = batchToolChildren sc !! b.
Proof.
  unfold closes_batch. revert sc.
  induction rest as [|part rest IH]; intros sc Hb Hc; [done|].
  simpl. destruct part as [p|]; simpl in *; [|by apply IH].
  destruct (truthy_string (callID p)) eqn:Ht; [|by apply IH].
  simpl in Hc. apply andb_true_iff in Hc as [Hfirst Hno].
  apply andb_true_iff in Hno as [Hp Hno].
  apply negb_true_iff in Hfirst. unfold is_batch_child in Hfirst.
  unfold scan_tool. destruct (decide (tool p = "batch")) as [Hbatch|Hbatch].
  - assert (callID p ≠ b) as Hne.
    { intros Heq.
      rewrite (bool_decide_eq_true_2 _ Hbatch), (bool_decide_eq_true_2 _ Heq) in Hp.
      discriminate. }
    rewrite scan_keeps_closed; simpl; [by rewrite lookup_insert_ne|congruence|done].
  - rewrite Hb. rewrite bool_decide_eq_true_2 in Hfirst by done.
    simpl in Hfirst. unfold startsWith in *. rewrite Hfirst.
    by rewrite scan_keeps_closed.
Qed.

(** X13. The children recorded for a batch are the parallel calls that
    follow it: when the history holds a batch call, then a run of parallel
    calls (identifiers starting with "prt_", none of them a batch), and what
    follows closes the batch, the scan records for the batch exactly the
    identifiers of that run, in order. *)
Theorem batch_children_recorded messages pre b kids rest :
  history_parts messages = pre ++ PTool b :: map PTool kids ++ rest →
  tool b = "batch" →
  truthy_string (callID b) = true →
  forallb is_batch_child kids = true →
  closes_batch (callID b) rest = true →
  batchToolChildren (scan messages) !! callID b = Some (map callID kids).
Proof.
  intros Hparts Hbatch Ht Hkids Hrest.
  rewrite scan_as_fold, Hparts, foldl_app. simpl. rewrite foldl_app.
  set (sc0 := foldl scan_part scan_start pre).
  assert (currentBatchId (scan_part sc0 (PTool b)) = Some (callID b) ∧
          batchToolChildren (scan_part sc0 (PTool b)) !! callID b = Some [])
    as [Hcur Hnil].
  { simpl. rewrite Ht. unfold scan_tool. rewrite decide_True by done. simpl.
    by rewrite lookup_insert_eq. }
  destruct (scan_children kids _ _ [] Hcur Hnil Hkids) as [Hcur' Hch].
  by rewrite scan_closes.
Qed.

Lemma batches_sound_mono seen part sc :
  batches_sound seen sc → batches_sound (seen ++ [part]) sc.
Proof.
  intros H q kids Hq. destruct (H q kids Hq) as [(p & Hp & ?) Hk]. split.
  - exists p. split; [apply elem_of_app; auto|done].
  - intros c Hc. destruct (Hk c Hc) as (p' & Hp' & ?).
    exists p'. split; [apply elem_of_app; auto|done].
Qed.

Lemma batches_sound_step seen part sc :
  batches_sound seen sc → batches_sound (seen ++ [part]) (scan_part sc part).
Proof.
  intros H. pose proof (batches_sound_mono seen part sc H) as Hm.
  destruct part as [p|]; simpl; [|done].
  destruct (truthy_string (callID p)) eqn:Ht; [|done].
  assert (PTool p ∈ seen ++ [PTool p]) as Hin.
  { apply elem_of_app. right. by apply list_elem_of_singleton. }
  unfold scan_tool. case_decide as Hbatch.
  - intros q kids. simpl. destruct (decide (callID p = q)) as [<-|Hne].
    + rewrite lookup_insert_eq. intros [= <-]. split; [by exists p|].
      by intros c ?%elem_of_nil.
    + rewrite lookup_insert_ne by done. apply Hm.
  - destruct (currentBatchId sc) as [b|]; [|exact Hm].
    destruct (startsWith (callID p) "prt_") eqn:Hprt; [|exact Hm].
    intros q kids. simpl. rewrite lookup_alter.
    case_decide as Hq; [|apply Hm]. subst q.
    intros (old & Hold & ->)%fmap_Some.
    destruct (Hm b old Hold) as [Hpar Hkids]. split; [done|].
    intros c [Hc| ->%list_elem_of_singleton]%elem_of_app; [by apply Hkids|].
    exists p. split; [done|]. split; [done|].
    unfold is_batch_child. by rewrite bool_decide_eq_true_2, Hprt.
Qed.

Lemma batches_sound_foldl ps seen sc :
  batches_sound seen sc → batches_sound (seen ++ ps) (foldl scan_part sc ps).
Proof.
  revert seen sc. induction ps as [|part ps IH]; intros seen sc H; simpl.
  - by rewrite app_nil_r.
  - replace (seen ++ part :: ps) with ((seen ++ [part]) ++ ps)
      by by rewrite <- app_assoc.
    by apply IH, batches_sound_step.
Qed.

(** X14. Nothing else is recorded: every key of the batch relation is the
    identifier of a batch call of the history, and every recorded child is
    the identifier of a tool call of the history that is not a batch and
    starts with "prt_". *)
Theorem batch_relation_sound (messages : list WithParts) :
  ∀ q kids,
    batchToolChildren (scan messages) !! q = Some kids →
    (∃ p, PTool p ∈ history_parts messages ∧ tool p = "batch" ∧ callID p = q) ∧
    ∀ c, c ∈ kids →
         startsWith c "prt_" = true ∧
         ∃ p, PTool p ∈ history_parts messages ∧ callID p = c ∧ tool p ≠ "batch".
Proof.
  intros q kids Hq.
  pose proof (batches_sound_foldl (history_parts messages) [] scan_start) as H.
  rewrite <- scan_as_fold in H. simpl in H.
  destruct (H ltac:(intros ? ? Hl; simpl in Hl; by rewrite lookup_empty in Hl)
              q kids Hq) as [Hpar Hkids].
  split; [done|]. intros c Hc. destruct (Hkids c Hc) as (p & Hp & <- & Hchild).
  unfold is_batch_child in Hchild. apply andb_true_iff in Hchild as [Hnb Hprt].
  apply bool_decide_eq_true in Hnb. split; [done|]. by exists p.
Qed.
End ScanProperties.

Section ScanExamples.
Import Host Janitor Samples.

Lemma batch_children_recorded_witness :
  batchToolChildren (scan history) !! "call_b" = Some ["prt_1"; "prt_2"].
Proof.
  apply (batch_children_recorded history [] batch_part
           [child_part_1; child_part_2] [PTool read_part]);
    reflexivity.
Defined.

Lemma batch_relation_sound_witness :
  startsWith "prt_2" "prt_" = true ∧
  ∃ p, PTool p ∈ history_parts history ∧ callID p = "prt_2" ∧ tool p ≠ "batch".
Proof.
  destruct (batch_relation_sound history "call_b" ["prt_1"; "prt_2"]) as [_ H].
  - vm_compute. reflexivity.
  - apply H. apply (bool_decide_unpack _). vm_compute. exact I.
Defined.
End ScanExamples.

(** ** The Bedrock descriptor: replacing twice, and what replacing keeps *)

Section ReplaceAgain.
Import Bedrock.
Context {host_case : Lowercase}.

Lemma is_result_for_replace idl idl' text b :
  is_result_for idl (replace_block idl' text b) = is_result_for idl b.
Proof.
  unfold replace_block. destruct (is_result_for idl' b); [|done].
  unfold is_result_for, pruned_block. simpl. by destruct (toolResult b).
Qed.

Lemma replace_block_idemp idl text b :
  replace_block idl text (replace_block idl text b) = replace_block idl text b.
Proof.
  unfold replace_block at 1. rewrite is_result_for_replace.
  unfold replace_block. destruct (is_result_for idl b); [|done].
  unfold pruned_block. simpl. f_equal. by destruct (toolResult b).
Qed.

Lemma existsb_ext_map {A} (f : A → bool) (g : A → A) (l : list A) :
  (∀ x, f (g x) = f x) → existsb f (map g l) = existsb f l.
Proof.
  intros Hf. induction l as [|x l IH]; simpl; [done|]. by rewrite Hf, IH.
Qed.

Lemma replace_message_hit idl text m blocks :
  role m = "user" → content m = CArray blocks →
  existsb (is_result_for idl) blocks = true →
  replace_message idl text m =
  (with_content m (CArray (map (replace_block idl text) blocks)), true).
Proof.
  intros Hr Hc Hex. unfold replace_message. by rewrite decide_True, Hc, Hex.
Qed.

Lemma replace_message_miss idl text m :
  (role m = "user" → ∀ blocks, content m = CArray blocks →
                     existsb (is_result_for idl) blocks = false) →
  replace_message idl text m = (m, false).
Proof.
  intros H. unfold replace_message. case_decide as Hr; [|done].
  destruct (content m) as [s|blocks|v] eqn:Hc; [done| |done].
  by rewrite (H Hr blocks).
Qed.

(** The three ways a message can meet [replace_message]. *)
Lemma replace_message_cases idl text m :
  (∃ blocks, role m = "user" ∧ content m = CArray blocks ∧
             existsb (is_result_for idl) blocks = true ∧
             replace_message idl text m =
               (with_content m (CArray (map (replace_block idl text) blocks)), true)) ∨
  replace_message idl text m = (m, false).
Proof.
  destruct (decide (role m = "user")) as [Hr|Hr];
    [|right; apply replace_message_miss; by intros ?].
  destruct (content m) as [s|blocks|v] eqn:Hc;
    [right; apply replace_message_miss; intros _ ? Hc'; by rewrite Hc in Hc'
    | |right; apply replace_message_miss; intros _ ? Hc'; by rewrite Hc in Hc'].
  destruct (existsb (is_result_for idl) blocks) eqn:Hex.
  - left. exists blocks. by rewrite (replace_message_hit _ _ _ blocks).
  - right. apply replace_message_miss. intros _ blocks' Hc'.
    rewrite Hc in Hc'. by injection Hc' as <-.
Qed.

Lemma replace_message_idemp idl text m :
  replace_message idl text (replace_message idl text m).1 =
  replace_message idl text m.
Proof.
  destruct (replace_message_cases idl text m)
    as [(blocks & Hr & Hc & Hex & ->)| Hmiss].
  - simpl. rewrite (replace_message_hit _ _ _ (map (replace_block idl text) blocks));
      try done.
    + unfold with_content. simpl. do 3 f_equal.
      rewrite map_map. apply map_ext. intros b. apply replace_block_idemp.
    + by rewrite (existsb_ext_map _ _ _
                    (fun b => is_result_for_replace idl idl text b)).
  - rewrite Hmiss. simpl. exact Hmiss.
Qed.

(** X15. Replacing the same output again changes nothing more: the second
    call finds the body as the first left it, and gives the same answer
    (the block still carries its identifier). *)
Theorem replaceToolOutput_idempotent (data : list Message) (toolId text : string) :
  replaceToolOutput (replaceToolOutput data toolId text).1 toolId text =
  replaceToolOutput data toolId text.
Proof.
  unfold replaceToolOutput. generalize (toLowerCase toolId). intros idl.
  induction data as [|m data IH]; [done|]. simpl.
  pose proof (replace_message_idemp idl text m) as Hm.
  destruct (replace_message idl text m) as [m' modified] eqn:Em.
  destruct (replace_loop idl text data) as [rest' replaced] eqn:Er.
  simpl in *. by rewrite Hm, IH.
Qed.

Lemma extract_block_replace st idl text outs b :
  extract_block st outs (replace_block idl text b) = extract_block st outs b.
Proof.
  unfold replace_block. destruct (is_result_for idl b); [|done].
  unfold extract_block, pruned_block. simpl. by destruct (toolResult b).
Qed.

Lemma foldl_ext_map {A B} (f : A → B → A) (g : B → B) (l : list B) (a : A) :
  (∀ a x, f a (g x) = f a x) → foldl f a (map g l) = foldl f a l.
Proof.
  intros Hf. revert a. induction l as [|x l IH]; intros a; simpl; [done|].
  by rewrite Hf, IH.
Qed.

Lemma extract_message_replace st idl text outs m :
  extract_message st outs (replace_message idl text m).1 = extract_message st outs m.
Proof.
  destruct (replace_message_cases idl text m)
    as [(blocks & Hr & Hc & Hex & ->)| ->]; [|done].
  unfold extract_message. simpl. rewrite !decide_True, Hc by done.
  apply foldl_ext_map. intros. apply extract_block_replace.
Qed.

Lemma has_result_replace idl text b :
  bool_decide (is_Some (toolResult (replace_block idl text b))) =
  bool_decide (is_Some (toolResult b)).
Proof.
  unfold replace_block. destruct (is_result_for idl b); [|done].
  unfold pruned_block. simpl. by destruct (toolResult b).
Qed.

(** X16. Replacing an output keeps what the other operations read: the
    roles of the messages, the answer of [hasToolOutputs], the list
    [extractToolOutputs] returns, and the answer a later replacement for
    any identifier gives. *)
Theorem replaceToolOutput_keeps_listing
    (data : list Message) (st : PluginState) (toolId text toolId' text' : string) :
  let data' := (replaceToolOutput data toolId text).1 in
  map role data' = map role data ∧
  hasToolOutputs data' = hasToolOutputs data ∧
  extractToolOutputs data' st = extractToolOutputs data st ∧
  (replaceToolOutput data' toolId' text').2 = (replaceToolOutput data toolId' text').2.
Proof.
  intros data'. unfold data', replaceToolOutput.
  generalize (toLowerCase toolId) (toLowerCase toolId'). intros idl idl'.
  rewrite replace_loop_fst. split; [|split; [|split]].
  - rewrite map_map. apply map_ext. intros m.
    by destruct (replace_message_cases idl text m)
      as [(blocks & Hr & Hc & Hex & ->)| ->].
  - unfold hasToolOutputs. induction data as [|m data IH]; [done|].
    simpl. rewrite IH. f_equal.
    destruct (replace_message_cases idl text m)
      as [(blocks & Hr & Hc & Hex & ->)| ->]; [|done].
    simpl. rewrite Hc. f_equal.
    apply (existsb_ext_map (fun b => bool_decide (is_Some (toolResult b)))).
    intros b. apply has_result_replace.
  - unfold extractToolOutputs. generalize (@nil ToolOutput).
    induction data as [|m data IH]; intros outs; [done|].
    simpl. by rewrite extract_message_replace, IH.
  - rewrite !replace_loop_snd. induction data as [|m data IH]; [done|].
    simpl. rewrite IH. f_equal.
    destruct (replace_message_cases idl text m)
      as [(blocks & Hr & Hc & Hex & ->)| ->]; [|done].
    simpl. unfold replace_message. simpl. rewrite decide_True, Hc by done.
    rewrite (existsb_ext_map _ _ _ (fun b => is_result_for_replace idl' idl text b)).
    rewrite decide_True by done.
    by destruct (existsb (is_result_for idl') blocks).
Qed.

Lemma no_results_extract st blocks outs :
  existsb (fun b => bool_decide (is_Some (toolResult b))) blocks = false →
  foldl (extract_block st) outs blocks = outs.
Proof.
  revert outs. induction blocks as [|b blocks IHb]; intros outs Hm; [done|].
  simpl in Hm. apply orb_false_iff in Hm as [Hb Hbs]. simpl.
  rewrite IHb by done. unfold extract_block.
  destruct (toolResult b); [|done].
  rewrite bool_decide_eq_true_2 in Hb by eauto. discriminate.
Qed.

Lemma no_results_match idl blocks :
  existsb (fun b => bool_decide (is_Some (toolResult b))) blocks = false →
  existsb (is_result_for idl) blocks = false.
Proof.
  induction blocks as [|b blocks IHb]; intros Hm; [done|].
  simpl in Hm. apply orb_false_iff in Hm as [Hb Hbs]. simpl.
  rewrite IHb by done. unfold is_result_for.
  destruct (toolResult b); [|done].
  rewrite bool_decide_eq_true_2 in Hb by eauto. discriminate.
Qed.

(** X17. The cheap check is a sound short cut: when [hasToolOutputs]
    answers [false], [extractToolOutputs] lists nothing and
    [replaceToolOutput] finds nothing to replace, for any identifier. *)
Theorem hasToolOutputs_short_cut (data : list Message) :
  hasToolOutputs data = false →
  (∀ st, extractToolOutputs data st = []) ∧
  (∀ toolId text, replaceToolOutput data toolId text = (data, false)).
Proof.
  intros Hno. split.
  - intros st. unfold extractToolOutputs. generalize (@nil ToolOutput).
    induction data as [|m data IH]; intros outs; [done|].
    simpl in Hno. apply orb_false_iff in Hno as [Hm Hrest].
    simpl. rewrite (IH Hrest). unfold extract_message.
    destruct (decide (role m = "user")) as [Hr|Hr]; [|done].
    rewrite (bool_decide_eq_true_2 _ Hr) in Hm. simpl in Hm.
    destruct (content m) as [s|blocks|v]; [done| |done].
    by apply no_results_extract.
  - intros toolId text. unfold replaceToolOutput.
    generalize (toLowerCase toolId). intros idl.
    induction data as [|m data IH]; [done|].
    simpl in Hno. apply orb_false_iff in Hno as [Hm Hrest].
    simpl. rewrite (IH Hrest).
    rewrite replace_message_miss; [done|].
    intros Hr blocks Hc.
    rewrite (bool_decide_eq_true_2 _ Hr), Hc in Hm. simpl in Hm.
    by apply no_results_match.
Qed.
End ReplaceAgain.

Section ReplaceAgainExamples.
Import Bedrock Samples.
Local Existing Instance ascii_case.

Lemma hasToolOutputs_short_cut_witness :
  extractToolOutputs [user_text "hello"; message "assistant" (CString "hi") None]
    no_state = [] ∧
  replaceToolOutput [user_text "hello"; message "assistant" (CString "hi") None]
    "tooluse_abc" "[pruned]" =
  ([user_text "hello"; message "assistant" (CString "hi") None], false).
Proof.
  destruct (hasToolOutputs_short_cut
              [user_text "hello"; message "assistant" (CString "hi") None])
    as [He Hr].
  - reflexivity.
  - split; [apply He|apply Hr].
Defined.
End ReplaceAgainExamples.

(** ** The Bedrock descriptor: caching and listing *)

Section CacheFacts.
Import Bedrock.
Context {host_case : Lowercase}.

Lemma cache_block_lookup st block k :
  toolParameters (cache_block st block) !! k =
  if decide (cache_key block = Some k)
  then (fun tu => {| tool := tu_name tu; parameters := tu_input tu;
                     status := None; error := None |}) <$> toolUse block
  else toolParameters st !! k.
Proof.
  unfold cache_block, cache_key.
  destruct (toolUse block) as [tu|]; [|by rewrite decide_False].
  destruct (tu_toolUseId tu) as [tid|]; [|by rewrite decide_False].
  destruct (truthy_string tid); [|by rewrite decide_False]. simpl.
  destruct (decide (toLowerCase tid = k)) as [<-|Hne].
  - by rewrite lookup_insert_eq, decide_True.
  - rewrite lookup_insert_ne by done. rewrite decide_False; [done|congruence].
Qed.

Lemma cache_blocks_frame blocks st k :
  (is_Some (toolParameters st !! k) →
   is_Some (toolParameters (foldl cache_block st blocks) !! k)) ∧
  ((∀ b, b ∈ blocks → cache_key b ≠ Some k) →
   toolParameters (foldl cache_block st blocks) !! k = toolParameters st !! k) ∧
  (∀ b, b ∈ blocks → cache_key b = Some k →
        is_Some (toolParameters (foldl cache_block st blocks) !! k)).
Proof.
  revert st. induction blocks as [|b blocks IH]; intros st.
  { split; [done|]. split; [done|]. by intros b ?%elem_of_nil. }
  simpl. destruct (IH (cache_block st b)) as (Hkeep & Hframe & Hkey).
  assert (is_Some (toolParameters st !! k) →
          is_Some (toolParameters (cache_block st b) !! k)) as Hstep.
  { intros Hs. rewrite cache_block_lookup. case_decide as Hk; [|done].
    unfold cache_key in Hk. by destruct (toolUse b). }
  split; [auto|]. split.
  - intros Hno. rewrite Hframe.
    + rewrite cache_block_lookup, decide_False; [done|].
      apply Hno, elem_of_cons. auto.
    + intros b' Hb'. apply Hno, elem_of_cons. auto.
  - intros b' [->|Hb']%elem_of_cons Hk; [|by eapply Hkey].
    apply Hkeep. rewrite cache_block_lookup, decide_True by done.
    unfold cache_key in Hk. by destruct (toolUse b).
Qed.

Lemma cache_messages_frame data st k :
  (is_Some (toolParameters st !! k) →
   is_Some (toolParameters (foldl cache_message st data) !! k)) ∧
  ((∀ b, b ∈ blocks_of "assistant" data → cache_key b ≠ Some k) →
   toolParameters (foldl cache_message st data) !! k = toolParameters st !! k) ∧
  (∀ b, b ∈ blocks_of "assistant" data → cache_key b = Some k →
        is_Some (toolParameters (foldl cache_message st data) !! k)).
Proof.
  revert st. induction data as [|m data IH]; intros st.
  { split; [done|]. split; [done|]. by intros b ?%elem_of_nil. }
  simpl. destruct (IH (cache_message st m)) as (Hkeep & Hframe & Hkey).
  unfold blocks_of. simpl. fold (blocks_of "assistant" data).
  unfold cache_message in *.
  destruct (decide (role m = "assistant")) as [Hr|Hr]; [|by simpl].
  destruct (content m) as [s|blocks|v]; try by simpl.
  destruct (cache_blocks_frame blocks st k) as (Hkeep' & Hframe' & Hkey').
  split; [auto|]. split.
  - intros Hno. rewrite Hframe, Hframe'; [done| |].
    + intros b Hb. apply Hno, elem_of_app. auto.
    + intros b Hb. apply Hno, elem_of_app. auto.
  - intros b [Hb|Hb]%elem_of_app Hk; [|by eapply Hkey].
    apply Hkeep. by eapply Hkey'.
Qed.

(** X18. The caching scan only adds and supersedes. Before it hands over
    to the generic caching, [cacheToolParameters] has kept every entry it
    found, has left untouched every entry whose key is not the lowercase
    identifier of a [toolUse] block of an assistant message, and holds an
    entry for every such block. *)
Theorem cacheToolParameters_keeps_entries
    (generic : list Message → PluginState → PluginState)
    (data : list Message) (st : PluginState) :
  ∃ scanned,
    cacheToolParameters generic data st = generic data scanned ∧
    ∀ k,
      (is_Some (toolParameters st !! k) → is_Some (toolParameters scanned !! k)) ∧
      ((∀ b, b ∈ blocks_of "assistant" data → cache_key b ≠ Some k) →
       toolParameters scanned !! k = toolParameters st !! k) ∧
      (∀ b, b ∈ blocks_of "assistant" data → cache_key b = Some k →
            is_Some (toolParameters scanned !! k)).
Proof.
  exists (foldl cache_message st data). split; [done|].
  intros k. apply cache_messages_frame.
Qed.

(** Where a listed output comes from. *)
Lemma extract_blocks_spec st blocks outs out :
  out ∈ foldl (extract_block st) outs blocks →
  out ∈ outs ∨
  ∃ b tr tid,
    b ∈ blocks ∧ toolResult b = Some tr ∧ tr_toolUseId tr = Some tid ∧
    truthy_string tid = true ∧ id out = toLowerCase tid ∧
    toolName out = tool <$> toolParameters st !! toLowerCase tid.
Proof.
  revert outs. induction blocks as [|b blocks IH]; intros outs; simpl; [auto|].
  intros [Hin|(b' & tr & tid & Hb' & H)]%IH.
  - unfold extract_block in Hin.
    destruct (toolResult b) as [tr|] eqn:Htr; [|auto].
    destruct (tr_toolUseId tr) as [tid|] eqn:Htid; [|auto].
    destruct (truthy_string tid) eqn:Ht; [|auto].
    apply elem_of_app in Hin as [?| ->%list_elem_of_singleton]; [auto|].
    right. exists b, tr, tid. split; [apply elem_of_cons; auto|done].
  - right. exists b', tr, tid. split; [apply elem_of_cons; auto|done].
Qed.

Lemma extract_messages_spec st data outs out :
  out ∈ foldl (extract_message st) outs data →
  out ∈ outs ∨
  ∃ b tr tid,
    b ∈ blocks_of "user" data ∧ toolResult b = Some tr ∧
    tr_toolUseId tr = Some tid ∧ truthy_string tid = true ∧
    id out = toLowerCase tid ∧
    toolName out = tool <$> toolParameters st !! toLowerCase tid.
Proof.
  revert outs. induction data as [|m data IH]; intros outs; simpl; [auto|].
  unfold blocks_of. simpl. fold (blocks_of "user" data).
  intros [Hin|(b & tr & tid & Hb & H)]%IH.
  - unfold extract_message in Hin.
    destruct (decide (role m = "user")) as [Hr|Hr]; [|auto].
    destruct (content m) as [s|blocks|v]; [auto| |auto].
    apply extract_blocks_spec in Hin as [?|(b & tr & tid & Hb & H)]; [auto|].
    right. exists b, tr, tid. split; [apply elem_of_app; auto|done].
  - right. exists b, tr, tid. split; [apply elem_of_app; auto|done].
Qed.

(** X19. Listing after caching. Every output [extractToolOutputs] lists
    carries as identifier the lowercase of a non-empty [toolUseId] of a
    [toolResult] block of a user message; and when the same array holds a
    [toolUse] block of an assistant message with that identifier in any
    case, the output carries a tool name. This needs the generic caching
    to keep the entries it finds. *)
Theorem cached_tools_are_named
    (generic : list Message → PluginState → PluginState)
    (data : list Message) (st : PluginState) (out : ToolOutput) :
  (∀ d s k, is_Some (toolParameters s !! k) →
            is_Some (toolParameters (generic d s) !! k)) →
  out ∈ extractToolOutputs data (cacheToolParameters generic data st) →
  (∃ b tr tid,
     b ∈ blocks_of "user" data ∧ toolResult b = Some tr ∧
     tr_toolUseId tr = Some tid ∧ truthy_string tid = true ∧
     id out = toLowerCase tid) ∧
  ((∃ b, b ∈ blocks_of "assistant" data ∧ cache_key b = Some (id out)) →
   is_Some (toolName out)).
Proof.
  intros Hgeneric Hout. unfold extractToolOutputs in Hout.
  apply extract_messages_spec in Hout as [?%elem_of_nil|Hout]; [done|].
  destruct Hout as (b & tr & tid & Hb & Htr & Htid & Ht & Hid & Hname).
  split; [by exists b, tr, tid|].
  intros (b' & Hb' & Hk). rewrite Hname, <- Hid. apply fmap_is_Some.
  unfold cacheToolParameters. apply Hgeneric.
  destruct (cache_messages_frame data st (id out)) as (_ & _ & Hkey).
  by eapply Hkey.
Qed.
End CacheFacts.

Section CacheExamples.
Import Bedrock Samples.
Local Existing Instance ascii_case.

Lemma cached_tools_are_named_witness :
  is_Some (toolName {| id := "tooluse_abc"; toolName := Some "read" |}).
Proof.
  destruct (cached_tools_are_named (fun _ s => s) conversation no_state
              {| id := "tooluse_abc"; toolName := Some "read" |})
    as (_ & Hname).
  - intros d s k Hk. exact Hk.
  - assert (extractToolOutputs conversation
              (cacheToolParameters (fun _ s => s) conversation no_state) =
            [{| id := "tooluse_abc"; toolName := Some "read" |}]) as ->
      by (vm_compute; reflexivity).
    by apply list_elem_of_singleton.
  - apply Hname. exists (use_block "tooluse_AbC" "read"). split.
    + assert (blocks_of "assistant" conversation = [use_block "tooluse_AbC" "read"])
        as -> by reflexivity.
      by apply list_elem_of_singleton.
    + reflexivity.
Defined.
End CacheExamples.

(** ** The helpers shared with the chat-completions format: tracking *)

Section TrackFacts.
Import Bedrock.
Local Open Scope nat_scope.

Lemma track_part_as_fold prot acc part :
  track_part prot acc part =
  foldl (track_id prot) acc (option_list (part_result_id part)).
Proof.
  unfold track_part, part_result_id.
  destruct (b_type part) as [ty|]; [|done].
  destruct (tool_use_id part) as [rid|]; [|done].
  by destruct (bool_decide (ty = "tool_result") && truthy_string rid).
Qed.

Lemma track_message_as_fold prot acc m :
  track_message prot acc m = foldl (track_id prot) acc (message_result_ids m).
Proof.
  unfold track_message, message_result_ids.
  destruct (bool_decide (role m = "tool") && truthy (tool_call_id m)).
  { by destruct (tool_call_id m). }
  case_decide; [|done].
  destruct (content m) as [s|parts|v]; [done| |done].
  revert acc. induction parts as [|part parts IH]; intros acc; [done|].
  simpl. rewrite IH, track_part_as_fold.
  destruct (part_result_id part); simpl; done.
Qed.

(** Tracking is a fold over the result identifiers it meets. *)
Lemma track_as_fold prot messages acc :
  foldl (track_message prot) acc messages =
  foldl (track_id prot) acc (result_ids messages).
Proof.
  revert acc. induction messages as [|m messages IH]; intros acc; [done|].
  simpl. unfold result_ids. simpl. fold (result_ids messages).
  by rewrite foldl_app, IH, track_message_as_fold.
Qed.

Lemma track_id_spec prot t n rid :
  let r := track_id prot (t, n) rid in
  getToolName r.1 = getToolName t ∧
  seenToolResultIds r.1 = {[rid]} ∪ seenToolResultIds t ∧
  toolResultCount r.1 + n = toolResultCount t + r.2 ∧
  n ≤ r.2 ∧
  size (seenToolResultIds t) + r.2 ≤ size (seenToolResultIds r.1) + n ∧
  (prot = ∅ → size (seenToolResultIds t) + r.2 = size (seenToolResultIds r.1) + n) ∧
  (rid ∈ seenToolResultIds t → r = (t, n)).
Proof.
  unfold track_id. destruct (decide (rid ∈ seenToolResultIds t)) as [Hin|Hin]; simpl.
  { split; [done|]. split; [set_unfold; intros x; split; [tauto|];
                            intros [->|?]; tauto|].
    repeat split; try lia. }
  assert (size ({[rid]} ∪ seenToolResultIds t) = S (size (seenToolResultIds t)))
    as Hsize.
  { rewrite size_union by set_solver. by rewrite size_singleton. }
  destruct (negb _ || _) eqn:Hcount; simpl; rewrite Hsize;
    repeat split; try done; try lia.
  intros ->. exfalso. apply orb_false_iff in Hcount as [Htruthy Hprot].
  destruct (match getToolName t with Some f => f rid | None => None end);
    [|done].
  rewrite bool_decide_eq_true_2 in Hprot by set_solver. discriminate.
Qed.

Lemma track_ids_spec prot ids t n :
  let r := foldl (track_id prot) (t, n) ids in
  getToolName r.1 = getToolName t ∧
  seenToolResultIds r.1 = list_to_set ids ∪ seenToolResultIds t ∧
  toolResultCount r.1 + n = toolResultCount t + r.2 ∧
  n ≤ r.2 ∧
  size (seenToolResultIds t) + r.2 ≤ size (seenToolResultIds r.1) + n ∧
  (prot = ∅ → size (seenToolResultIds t) + r.2 = size (seenToolResultIds r.1) + n) ∧
  ((∀ rid, rid ∈ ids → rid ∈ seenToolResultIds t) → r = (t, n)).
Proof.
  revert t n. induction ids as [|rid ids IH]; intros t n.
  { simpl. split; [done|]. split; [set_unfold; tauto|].
    repeat split; try lia. }
  cbn [foldl].
  destruct (track_id_spec prot t n rid) as (Hg & Hs & Hc & Hle & Hsz & Heq & Hsame).
  destruct (track_id prot (t, n) rid) as [t1 n1] eqn:E1.
  destruct (IH t1 n1) as (Hg' & Hs' & Hc' & Hle' & Hsz' & Heq' & Hsame').
  destruct (foldl (track_id prot) (t1, n1) ids) as [t2 n2] eqn:E2.
  cbn [fst snd] in *.
  split; [congruence|]. split.
  { rewrite Hs', Hs. cbn [list_to_set]. apply set_eq. intros x.
    rewrite !elem_of_union. tauto. }
  split; [lia|]. split; [lia|]. split; [lia|]. split.
  - intros Hp. specialize (Heq Hp). specialize (Heq' Hp). lia.
  - intros Hall.
    assert (rid ∈ seenToolResultIds t) as Hrid by (apply Hall; left).
    specialize (Hsame Hrid). injection Hsame as -> ->.
    apply Hsame'. intros r Hr. apply Hall. by right.
Qed.

(** X20. Tracking keeps its books: the tracker's counter grows by exactly
    the number returned; the identifiers met are all marked as seen and
    none is forgotten; the number returned is at most the number of
    identifiers newly marked, and equal to it when no tool is protected;
    and a second pass over the same messages finds nothing new and leaves
    the tracker as it is. *)
Theorem trackNewToolResults_accounting
    (messages : list Message) (tracker : ToolTracker) (protectedTools : gset string) :
  let r := trackNewToolResults messages tracker protectedTools in
  toolResultCount r.1 = toolResultCount tracker + r.2 ∧
  seenToolResultIds r.1 =
    list_to_set (result_ids messages) ∪ seenToolResultIds tracker ∧
  getToolName r.1 = getToolName tracker ∧
  size (seenToolResultIds tracker) + r.2 ≤ size (seenToolResultIds r.1) ∧
  (protectedTools = ∅ →
   size (seenToolResultIds tracker) + r.2 = size (seenToolResultIds r.1)) ∧
  trackNewToolResults messages r.1 protectedTools = (r.1, 0).
Proof.
  unfold trackNewToolResults. rewrite track_as_fold.
  destruct (track_ids_spec protectedTools (result_ids messages) tracker 0)
    as (Hg & Hs & Hc & _ & Hsz & Heq & _).
  destruct (foldl (track_id protectedTools) (tracker, 0) (result_ids messages))
    as [t1 n1] eqn:E. simpl in *.
  split; [lia|]. split; [done|]. split; [done|]. split; [lia|].
  split; [intros Hp; specialize (Heq Hp); lia|].
  rewrite track_as_fold.
  destruct (track_ids_spec protectedTools (result_ids messages) t1 0)
    as (_ & _ & _ & _ & _ & _ & Hsame).
  apply Hsame. intros rid Hrid. rewrite Hs. apply elem_of_union_l.
  by apply elem_of_list_to_set.
Qed.

(** X21. The tracker does not see Bedrock results: on messages none of
    which has the role "tool" and whose content blocks are not typed
    "tool_result", as in a Converse body, nothing is counted and the
    tracker is left as it is. *)
Theorem trackNewToolResults_ignores_toolResult_blocks
    (messages : list Message) (tracker : ToolTracker) (protectedTools : gset string) :
  Forall (fun m => role m ≠ "tool") messages →
  Forall (fun b => b_type b ≠ Some "tool_result") (blocks_of "user" messages) →
  trackNewToolResults messages tracker protectedTools = (tracker, 0).
Proof.
  intros Hroles Hblocks. unfold trackNewToolResults. rewrite track_as_fold.
  assert (result_ids messages = []) as ->; [|done].
  induction messages as [|m messages IH]; [done|].
  apply Forall_cons in Hroles as [Hr Hroles].
  unfold blocks_of in Hblocks. simpl in Hblocks.
  fold (blocks_of "user" messages) in Hblocks.
  apply Forall_app in Hblocks as [Hb Hblocks].
  unfold result_ids. simpl. fold (result_ids messages).
  rewrite (IH Hroles Hblocks), app_nil_r.
  unfold message_result_ids. rewrite (bool_decide_eq_false_2 _ Hr). simpl.
  destruct (decide (role m = "user")) as [Hu|Hu]; [|done].
  destruct (content m) as [s|parts|v]; [done| |done].
  induction Hb as [|part parts Hpart _ IHp]; [done|].
  cbn [omap list_omap]. rewrite IHp. unfold part_result_id.
  destruct (b_type part) as [ty|]; [|done].
  destruct (tool_use_id part); [|done].
  rewrite bool_decide_eq_false_2; [done|congruence].
Qed.
End TrackFacts.

Section TrackExamples.
Import Bedrock Samples.

Lemma trackNewToolResults_ignores_toolResult_blocks_witness :
  trackNewToolResults conversation (tracker_seen []) ∅ = (tracker_seen [], 0).
Proof.
  apply (trackNewToolResults_ignores_toolResult_blocks conversation
           (tracker_seen []) ∅).
  - repeat constructor; discriminate.
  - repeat constructor; discriminate.
Defined.
End TrackExamples.

(** ** The helpers shared with the chat-completions format: injection *)

Section InjectFrame.
Import Bedrock.
Variables instruction nudgeText : string.
Local Open Scope nat_scope.

Local Abbreviation loop n messages :=
  (injectSynth_loop n messages instruction nudgeText).

(** What a run of the loop can have done. *)
Lemma loop_cases n messages :
  loop n messages = (messages, false) ∨
  (loop n messages = (messages, true) ∧
   ∃ i msg v, messages !! i = Some msg ∧ genuine_user nudgeText msg ∧
              content msg = COther v) ∨
  ∃ i msg c,
    messages !! i = Some msg ∧ genuine_user nudgeText msg ∧
    loop n messages = (<[i := with_content msg c]> messages, true) ∧
    ((∃ s, content msg = CString s ∧
           c = CString (s +:+ two_newlines +:+ instruction)) ∨
     (∃ parts, content msg = CArray parts ∧
               c = CArray (parts ++ [text_part instruction]))).
Proof.
  induction n as [|i IH]; [by left|].
  destruct (messages !! i) as [msg|] eqn:Hi;
    [|left; by rewrite loop_out_of_range].
  destruct (genuine_user_dec nudgeText msg) as [Hg|Hg].
  - rewrite (loop_hit _ _ _ _ _ Hi Hg).
    destruct (content msg) as [s|parts|v] eqn:Hc.
    + destruct (includes s instruction); [by left|].
      right; right. exists i, msg, (CString (s +:+ two_newlines +:+ instruction)).
      repeat split; try done; try apply Hg. left. by exists s.
    + destruct (existsb _ parts); [by left|].
      right; right. exists i, msg, (CArray (parts ++ [text_part instruction])).
      repeat split; try done; try apply Hg. right. by exists parts.
    + right; left. split; [done|]. by exists i, msg, v.
  - by rewrite (loop_skip _ _ _ _ _ Hi Hg).
Qed.

(** Without a genuine user turn the loop runs to its end. *)
Lemma loop_no_user n messages :
  (∀ m, m ∈ messages → ¬ genuine_user nudgeText m) →
  loop n messages = (messages, false).
Proof.
  intros Hnone. induction n as [|i IH]; [done|].
  destruct (messages !! i) as [msg|] eqn:Hi; [|by rewrite loop_out_of_range].
  rewrite (loop_skip _ _ _ _ _ Hi); [done|].
  apply Hnone. by eapply list_elem_of_lookup_2.
Qed.

(** The loop over a prefix does not look at what follows it. *)
Lemma loop_app n messages suffix :
  n ≤ length messages →
  loop n (messages ++ suffix) =
  ((loop n messages).1 ++ suffix, (loop n messages).2).
Proof.
  induction n as [|i IH]; intros Hn; [done|].
  destruct (lookup_lt_is_Some_2 messages i) as [msg Hi]; [lia|].
  assert ((messages ++ suffix) !! i = Some msg) as Hi'
    by (rewrite lookup_app_l; [done|lia]).
  destruct (genuine_user_dec nudgeText msg) as [Hg|Hg].
  - rewrite (loop_hit _ _ _ _ _ Hi Hg), (loop_hit _ _ _ _ _ Hi' Hg).
    destruct (content msg) as [s|parts|v]; [| |done].
    + destruct (includes s instruction); [done|].
      cbn [fst snd]. by rewrite insert_app_l by lia.
    + destruct (existsb _ parts); [done|].
      cbn [fst snd]. by rewrite insert_app_l by lia.
  - rewrite (loop_skip _ _ _ _ _ Hi Hg), (loop_skip _ _ _ _ _ Hi' Hg).
    apply IH. lia.
Qed.
End InjectFrame.

Section InjectTurns.
Import Bedrock.
Local Open Scope nat_scope.

(** X22. When the most recent user turn that is not the nudge has an array
    as content, [injectSynth] appends one text part holding the instruction
    to that array, unless a text part of the array already contains the
    instruction, in which case it returns [false] and changes nothing.
    When the content of that turn is neither a string nor an array,
    [injectSynth] returns [true] although it has changed nothing. *)
Theorem injectSynth_array_content
    (messages : list Message) (instruction nudgeText : string)
    (i : nat) (msg : Message) :
  messages !! i = Some msg →
  genuine_user nudgeText msg →
  (∀ j m, i < j → messages !! j = Some m → ¬ genuine_user nudgeText m) →
  (∀ parts, content msg = CArray parts →
     injectSynth messages instruction nudgeText =
       if existsb (has_instruction instruction) parts then (messages, false)
       else (<[i := with_content msg
                      (CArray (parts ++ [text_part instruction]))]> messages,
             true)) ∧
  (∀ v, content msg = COther v →
     injectSynth messages instruction nudgeText = (messages, true)).
Proof.
  intros Hi Hg Habove.
  assert (injectSynth messages instruction nudgeText =
          injectSynth_loop (S i) messages instruction nudgeText) as ->.
  { unfold injectSynth. apply loop_skip_above; [|done|done].
    by eapply lookup_lt_Some. }
  rewrite (loop_hit _ _ _ _ _ Hi Hg).
  split; [intros parts Hc|intros v Hc]; by rewrite Hc.
Qed.

(** X23. [injectSynth] keeps the number of messages, and of every message
    the role and all properties other than [content]; a message that is not
    a user turn, or is the nudge, is left exactly as it was; at most one
    message changes; and when no message is a user turn other than the
    nudge, it returns [false] and changes nothing. *)
Theorem injectSynth_frame
    (messages : list Message) (instruction nudgeText : string) :
  let r := injectSynth messages instruction nudgeText in
  length r.1 = length messages ∧
  (∀ j m, messages !! j = Some m →
     ∃ m', r.1 !! j = Some m' ∧ role m' = role m ∧
           tool_call_id m' = tool_call_id m ∧
           message_rest m' = message_rest m ∧
           (¬ genuine_user nudgeText m → m' = m)) ∧
  (∀ i j, r.1 !! i ≠ messages !! i → r.1 !! j ≠ messages !! j → i = j) ∧
  ((∀ m, m ∈ messages → ¬ genuine_user nudgeText m) → r = (messages, false)).
Proof.
  intros r. subst r. unfold injectSynth.
  split; [apply loop_length|].
  split; [|split; [|apply loop_no_user]].
  - intros j m Hj.
    destruct (loop_cases instruction nudgeText (length messages) messages)
      as [->|[[-> _]|(i & msg & c & Hi & Hg & -> & _)]];
      try (exists m; by repeat split).
    cbn [fst]. destruct (decide (i = j)) as [->|Hne].
    + assert (msg = m) as -> by congruence.
      exists (with_content m c).
      rewrite list_lookup_insert_eq by (by eapply lookup_lt_Some).
      repeat split; try done.
    + exists m. by rewrite list_lookup_insert_ne.
  - intros i j Hi Hj.
    destruct (loop_cases instruction nudgeText (length messages) messages)
      as [E|[[E _]|(k & msg & c & Hk & Hg & E & _)]];
      rewrite E in Hi, Hj; cbn [fst] in Hi, Hj; try done.
    destruct (decide (k = i)) as [->|Hki];
      [|by rewrite list_lookup_insert_ne in Hi].
    destruct (decide (i = j)) as [->|Hij]; [done|].
    by rewrite list_lookup_insert_ne in Hj.
Qed.

(** X24. After [injectPrunableList] has appended a non-empty list as a new
    user message, [injectSynth] finds that message first: unless the list
    is exactly the nudge text, the instruction is appended to the list
    message (or nothing is done when the list already contains it), and
    the earlier messages are left alone; when the list is exactly the nudge
    text, the list message is skipped and [injectSynth] does to the earlier
    messages what it does without the list. *)
Theorem injectSynth_after_injectPrunableList
    (messages : list Message) (injection instruction nudgeText : string) :
  truthy_string injection = true →
  let added := {| role := "user"; content := CString injection;
                  tool_call_id := None; message_rest := [] |} in
  let listed := (injectPrunableList messages injection).1 in
  let alone := injectSynth messages instruction nudgeText in
  listed = messages ++ [added] ∧
  (injection ≠ nudgeText →
   injectSynth listed instruction nudgeText =
     if includes injection instruction then (listed, false)
     else (messages ++
           [with_content added
              (CString (injection +:+ two_newlines +:+ instruction))], true)) ∧
  (injection = nudgeText →
   injectSynth listed instruction nudgeText = (alone.1 ++ [added], alone.2)).
Proof.
  intros Htruthy added listed alone.
  assert (listed = messages ++ [added]) as Hlisted.
  { unfold listed, injectPrunableList. by rewrite Htruthy. }
  assert ((messages ++ [added]) !! length messages = Some added) as Hlast.
  { rewrite lookup_app_r by lia. by rewrite Nat.sub_diag. }
  split; [done|]. rewrite Hlisted. unfold injectSynth.
  rewrite length_app. cbn [length]. rewrite Nat.add_1_r.
  split; intros Hnudge.
  - rewrite (loop_hit _ _ _ _ _ Hlast).
    + cbn [content added]. destruct (includes injection instruction); [done|].
      f_equal. rewrite insert_app_r_alt by lia. by rewrite Nat.sub_diag.
    + split; [done|]. unfold isNudgeMessage. cbn [content added].
      by apply bool_decide_eq_false_2.
  - rewrite (loop_skip _ _ _ _ _ Hlast).
    + apply loop_app. lia.
    + intros [_ Hn]. unfold isNudgeMessage in Hn. cbn [content added] in Hn.
      by rewrite bool_decide_eq_true_2 in Hn.
Qed.
End InjectTurns.

Section InjectTurnsExamples.
Import Bedrock Samples.
Local Open Scope nat_scope.

Lemma injectSynth_array_content_witness :
  (∀ parts, CArray [result_block "tooluse_AbC" "file body"] = CArray parts →
     injectSynth conversation "<note>" "go on" =
       if existsb (has_instruction "<note>") parts then (conversation, false)
       else (<[2 := with_content
                      (message "user"
                         (CArray [result_block "tooluse_AbC" "file body"]) None)
                      (CArray (parts ++ [text_part "<note>"]))]> conversation,
             true)) ∧
  (∀ v, CArray [result_block "tooluse_AbC" "file body"] = COther v →
     injectSynth conversation "<note>" "go on" = (conversation, true)).
Proof.
  apply (injectSynth_array_content conversation "<note>" "go on" 2
           (message "user" (CArray [result_block "tooluse_AbC" "file body"]) None)).
  - reflexivity.
  - split; reflexivity.
  - intros j m Hj Hm. apply lookup_lt_Some in Hm. simpl in Hm. lia.
Defined.

Lemma injectSynth_after_injectPrunableList_witness :
  injectSynth (injectPrunableList conversation "<prunable>call_1</prunable>").1
    "<note>" "go on" =
  (conversation ++
   [user_text ("<prunable>call_1</prunable>" +:+ two_newlines +:+ "<note>")],
   true).
Proof.
  apply (injectSynth_after_injectPrunableList conversation
           "<prunable>call_1</prunable>" "<note>" "go on").
  - reflexivity.
  - discriminate.
Defined.
End InjectTurnsExamples.

(** ** Injection and the tool outputs *)

Section InjectOutputs.
Import Bedrock.
Context {host_case : Lowercase}.
Local Open Scope nat_scope.

Lemma foldl_insert_same {A B} (f : B → A → B) (l : list A) i x y acc :
  l !! i = Some x → (∀ b, f b y = f b x) →
  foldl f acc (<[i := y]> l) = foldl f acc l.
Proof.
  revert i acc. induction l as [|a l IH]; intros [|i] acc Hi Hxy; try done.
  - injection Hi as ->. simpl. by rewrite Hxy.
  - simpl. by apply IH.
Qed.

Lemma existsb_insert_same {A} (f : A → bool) (l : list A) i x y :
  l !! i = Some x → f y = f x → existsb f (<[i := y]> l) = existsb f l.
Proof.
  revert i. induction l as [|a l IH]; intros [|i] Hi Hxy; try done.
  - injection Hi as ->. simpl. by rewrite Hxy.
  - simpl. f_equal. by apply IH.
Qed.

(** The message [injectSynth] writes, seen by the functions that read tool
    outputs. *)
Lemma injected_message_outputs instruction msg c :
  role msg = "user" →
  ((∃ s, content msg = CString s ∧
         c = CString (s +:+ two_newlines +:+ instruction)) ∨
   (∃ parts, content msg = CArray parts ∧
             c = CArray (parts ++ [text_part instruction]))) →
  (∀ st outs, extract_message st outs (with_content msg c) =
              extract_message st outs msg) ∧
  (∀ prot acc, track_message prot acc (with_content msg c) =
               track_message prot acc msg) ∧
  (bool_decide (role (with_content msg c) = "user") &&
   match content (with_content msg c) with
   | CArray blocks => existsb (fun b => bool_decide (is_Some (toolResult b))) blocks
   | _ => false
   end) =
  (bool_decide (role msg = "user") &&
   match content msg with
   | CArray blocks => existsb (fun b => bool_decide (is_Some (toolResult b))) blocks
   | _ => false
   end).
Proof.
  intros Hr [(s & Hc & ->)|(parts & Hc & ->)];
    unfold extract_message, track_message; cbn [with_content role content tool_call_id];
    rewrite Hc, Hr; cbn [bool_decide andb].
  - repeat split; intros; by repeat case_decide.
  - split; [|split].
    + intros st outs. case_decide; [|done]. by rewrite foldl_app.
    + intros prot acc.
      destruct (bool_decide ("user" = "tool") && truthy (tool_call_id msg));
        [done|].
      case_decide; [|done]. by rewrite foldl_app.
    + rewrite existsb_app. cbn. by rewrite !orb_false_r.
Qed.

(** X25. Injection does not touch the tool outputs: the messages
    [injectSynth] leaves behind, and the messages [injectPrunableList]
    leaves behind, list the same tool outputs as before, count the same new
    tool results and leave the tracker as the messages before would, and
    hold a tool output exactly when the messages before did. *)
Theorem injection_keeps_tool_outputs
    (messages : list Message) (instruction nudgeText injection : string)
    (st : PluginState) (tracker : ToolTracker) (protectedTools : gset string) :
  let synth := (injectSynth messages instruction nudgeText).1 in
  let listed := (injectPrunableList messages injection).1 in
  (extractToolOutputs synth st = extractToolOutputs messages st ∧
   trackNewToolResults synth tracker protectedTools =
     trackNewToolResults messages tracker protectedTools ∧
   hasToolOutputs synth = hasToolOutputs messages) ∧
  (extractToolOutputs listed st = extractToolOutputs messages st ∧
   trackNewToolResults listed tracker protectedTools =
     trackNewToolResults messages tracker protectedTools ∧
   hasToolOutputs listed = hasToolOutputs messages).
Proof.
  intros synth listed. split.
  - subst synth. unfold injectSynth.
    destruct (loop_cases instruction nudgeText (length messages) messages)
      as [->|[[-> _]|(i & msg & c & Hi & [Hr _] & -> & Hc)]]; try done.
    cbn [fst].
    destruct (injected_message_outputs instruction msg c Hr Hc)
      as (Hextract & Htrack & Hhas).
    unfold extractToolOutputs, trackNewToolResults, hasToolOutputs.
    split; [|split].
    + by apply foldl_insert_same with (x := msg).
    + by apply foldl_insert_same with (x := msg).
    + by apply existsb_insert_same with (x := msg).
  - subst listed. unfold injectPrunableList.
    destruct (truthy_string injection); [|done]. cbn [fst].
    unfold extractToolOutputs, trackNewToolResults, hasToolOutputs.
    rewrite !foldl_app, existsb_app. cbn. by rewrite !orb_false_r.
Qed.
End InjectOutputs.

(** ** Token estimation (lib/tokenizer.ts) *)

Section TokenizerFacts.
Import Tokenizer.
Variable encode : string → option (list nat).

Lemma count_all_Some texts :
  Forall (fun text => is_Some (encode text)) texts →
  count_all encode texts =
  Some (map (fun text => from_option length 0 (encode text)) texts).
Proof.
  induction 1 as [|text texts [tokens Ht] _ IH]; [done|].
  simpl. by rewrite Ht, IH.
Qed.

Lemma count_all_None texts :
  Exists (fun text => encode text = None) texts → count_all encode texts = None.
Proof.
  induction 1 as [text texts Ht|text texts _ IH]; simpl.
  - by rewrite Ht.
  - rewrite IH. by destruct (encode text).
Qed.

Lemma count_all_length texts counts :
  count_all encode texts = Some counts → length counts = length texts.
Proof.
  revert counts. induction texts as [|text texts IH]; intros counts; simpl.
  - by intros [= <-].
  - destruct (encode text); [|done].
    destruct (count_all encode texts) as [rest|]; [|done].
    intros [= <-]. simpl. f_equal. by apply IH.
Qed.

(** X26. [estimateTokensBatch] returns one count per text, in order. When
    the tokenizer accepts every text, each count is the number of tokens of
    its text. When the tokenizer throws on any one text, every count of the
    batch, also those of the texts it accepts, is the character estimate: a
    quarter, rounded, of the text's length in UTF-16 code units. *)
Theorem estimateTokensBatch_counts (texts : list string) :
  length (estimateTokensBatch encode texts) = length texts ∧
  (Forall (fun text => is_Some (encode text)) texts →
   estimateTokensBatch encode texts =
     map (fun text => from_option length 0 (encode text)) texts) ∧
  (Exists (fun text => encode text = None) texts →
   estimateTokensBatch encode texts =
     map (fun text => Janitor.round_div4 (str_length text)) texts).
Proof.
  unfold estimateTokensBatch. split; [|split].
  - destruct (count_all encode texts) as [counts|] eqn:E.
    + by apply count_all_length.
    + by rewrite length_map.
  - intros Hall. by rewrite count_all_Some.
  - intros Hone. by rewrite count_all_None.
Qed.
End TokenizerFacts.

(** ** Replacing several outputs *)

Section ReplaceOrder.
Import Bedrock.
Context {host_case : Lowercase}.

Lemma with_content_same m :
  with_content m (content m) = m.
Proof. by destruct m. Qed.

Lemma replace_block_miss_all idl text blocks :
  existsb (is_result_for idl) blocks = false →
  map (replace_block idl text) blocks = blocks.
Proof.
  induction blocks as [|b blocks IH]; [done|]. simpl.
  intros [Hb Hbs]%orb_false_iff. rewrite (IH Hbs). unfold replace_block.
  by rewrite Hb.
Qed.

(** The message a turn of the loop leaves, without the flag. *)
Lemma replace_message_fst idl text m :
  (replace_message idl text m).1 =
  if decide (role m = "user") then
    match content m with
    | CArray blocks => with_content m (CArray (map (replace_block idl text) blocks))
    | _ => m
    end
  else m.
Proof.
  unfold replace_message. case_decide; [|done].
  destruct (content m) as [s|blocks|v] eqn:Hc; [done| |done].
  destruct (existsb (is_result_for idl) blocks) eqn:Hex; [done|].
  cbn [fst]. rewrite replace_block_miss_all by done.
  by rewrite <- Hc, with_content_same.
Qed.

Lemma replace_message_fst_twice idl text idl' text' m :
  (replace_message idl' text' (replace_message idl text m).1).1 =
  if decide (role m = "user") then
    match content m with
    | CArray blocks =>
        with_content m
          (CArray (map (fun b => replace_block idl' text' (replace_block idl text b))
                     blocks))
    | _ => m
    end
  else m.
Proof.
  rewrite (replace_message_fst idl text m).
  destruct (decide (role m = "user")) as [Hr|Hr].
  - destruct (content m) as [s|blocks|v] eqn:Hc.
    + rewrite replace_message_fst, decide_True, Hc; done.
    + rewrite replace_message_fst. cbn [with_content role content].
      rewrite decide_True by done. unfold with_content. cbn. by rewrite map_map.
    + rewrite replace_message_fst, decide_True, Hc; done.
  - by rewrite replace_message_fst, decide_False.
Qed.

Lemma is_result_for_one idl idl' b :
  idl ≠ idl' → is_result_for idl b = true → is_result_for idl' b = false.
Proof.
  unfold is_result_for. destruct (toolResult b) as [tr|]; [|done].
  destruct (tr_toolUseId tr) as [tid|]; [|done].
  intros Hne Hb%bool_decide_eq_true. apply bool_decide_eq_false_2. congruence.
Qed.

Lemma replace_block_commute idl text idl' text' b :
  idl ≠ idl' →
  replace_block idl' text' (replace_block idl text b) =
  replace_block idl text (replace_block idl' text' b).
Proof.
  intros Hne.
  unfold replace_block at 1 3. rewrite !is_result_for_replace.
  unfold replace_block.
  destruct (is_result_for idl b) eqn:Ha.
  - by rewrite (is_result_for_one idl idl' b).
  - done.
Qed.

Lemma replace_block_last idl text text' b :
  replace_block idl text' (replace_block idl text b) = replace_block idl text' b.
Proof.
  unfold replace_block at 1. rewrite is_result_for_replace.
  unfold replace_block. destruct (is_result_for idl b); [|done].
  unfold pruned_block. cbn. f_equal. by destruct (toolResult b).
Qed.

(** X27. Replacements can be made in any order: for two identifiers that
    differ by more than case, replacing one output and then the other
    leaves the same messages as replacing them the other way round; for two
    identifiers that are equal up to case, the later replacement wins, as
    if the earlier one had not been made. *)
Theorem replaceToolOutput_order
    (data : list Message) (toolId text toolId' text' : string) :
  let after id t d := (replaceToolOutput d id t).1 in
  (toLowerCase toolId ≠ toLowerCase toolId' →
   after toolId' text' (after toolId text data) =
   after toolId text (after toolId' text' data)) ∧
  (toLowerCase toolId = toLowerCase toolId' →
   after toolId' text' (after toolId text data) = after toolId' text' data).
Proof.
  intros after. subst after. cbv beta. unfold replaceToolOutput.
  rewrite !replace_loop_fst, !map_map.
  split; intros Hid; apply map_ext; intros m.
  - rewrite !replace_message_fst_twice.
    case_decide; [|done]. destruct (content m) as [s|blocks|v]; [done| |done].
    do 2 f_equal. apply map_ext. intros b. by apply replace_block_commute.
  - rewrite replace_message_fst_twice, replace_message_fst, Hid.
    case_decide; [|done]. destruct (content m) as [s|blocks|v]; [done| |done].
    do 2 f_equal. apply map_ext. intros b. apply replace_block_last.
Qed.
End ReplaceOrder.

(** ** The Semantic Janitor: runs that do not commit *)

Section RunWithoutCommit.
Import Host Janitor.

Ltac run_unfold :=
  unfold run, run_among, run_body, fetch, oracle, toast, log, emit, emit_all,
    stateManager_get, stateManager_set, suspended, try_catch, mbind, M_bind,
    bind, ret, throw;
  simpl.

Ltac not_in_trace Hin :=
  repeat (rewrite elem_of_cons in Hin || rewrite elem_of_app in Hin
          || rewrite elem_of_nil in Hin);
  repeat match type of Hin with _ ∨ _ => destruct Hin as [Hin|Hin] end;
  try discriminate; try done;
  try (apply scan_log_no_error in Hin as [? ?]; discriminate);
  try (apply expand_log_debug in Hin; discriminate).

(** X28. A run that does not reach its commit writes nothing, also among
    other tasks. When the history cannot be fetched, or has fewer than 3
    messages, or holds no tool call that is missing from the list the run
    read, or when the oracle call fails, the run returns normally, the
    store is what the operations of the other tasks that fell into its
    [await]s made of it, and the trace holds no write and no
    notification. *)
Theorem run_without_commit_writes_nothing others env sessionID w :
  (session_messages env sessionID = None ∨
   ∃ messages,
     session_messages env sessionID = Some messages ∧
     ((length messages < 3)%nat ∨
      (∀ id, id ∈ toolCallIds (scan messages) →
             id ∈ StateManager.get (store_at_read others (store w)) sessionID) ∨
      generateObject env
        (unprunedToolCallIds
           (StateManager.get (store_at_read others (store w)) sessionID)
           (toolCallIds (scan messages))) messages = None)) →
  ∃ w' es ops,
    run_among others env sessionID w = (Normal tt, w') ∧
    trace w' = trace w ++ es ∧
    store w' = StateManager.run ops (store w) ∧
    ops `prefix_of`
      (during_fetch others ++ during_get others ++ during_oracle others) ∧
    (∀ s ids, EvSet s ids ∉ es) ∧
    (∀ n t, EvToast n t ∉ es).
Proof.
  unfold store_at_read. intros Hcase. run_unfold.
  destruct (session_messages env sessionID) as [messages|] eqn:Hf; simpl.
  2:{ eexists _, _, (during_fetch others). split; [reflexivity|]. simpl.
      rewrite <- !app_assoc. split; [reflexivity|]. split; [done|].
      split; [by eexists|].
      split; [intros s ids Hin|intros n t Hin]; not_in_trace Hin. }
  destruct Hcase as [?|(messages' & [= <-] & Hcase)]; [done|].
  destruct (length messages <? 3)%nat eqn:Hlen; simpl.
  { eexists _, _, (during_fetch others). split; [reflexivity|]. simpl.
    rewrite <- !app_assoc. split; [reflexivity|]. split; [done|].
    split; [by eexists|].
    split; [intros s ids Hin|intros n t Hin]; not_in_trace Hin. }
  apply Nat.ltb_ge in Hlen.
  destruct Hcase as [Hlt|Hcase]; [lia|].
  destruct (0 <? size _)%nat; simpl;
    (destruct (length (unprunedToolCallIds _ _) =? 0)%nat eqn:Hz; simpl;
     [eexists _, _, (during_fetch others ++ during_get others);
      split; [reflexivity|]; simpl; rewrite <- !app_assoc;
      split; [reflexivity|]; split; [by rewrite run_app|];
      split; [exists (during_oracle others); by rewrite <- ?app_assoc|];
      split; [intros s ids Hin|intros n t Hin]; not_in_trace Hin
     |]);
    (destruct Hcase as [Hall|Ho];
     [apply unpruned_nil_iff in Hall; rewrite Hall in Hz; discriminate|]);
    rewrite Ho; simpl;
    (eexists _, _, (during_fetch others ++ during_get others ++ during_oracle others);
     split; [reflexivity|]; simpl; rewrite <- !app_assoc;
     split; [reflexivity|]; split; [by rewrite !run_app|];
     split; [by exists []; rewrite app_nil_r|];
     split; [intros s ids Hin|intros n t Hin]; not_in_trace Hin).
Qed.
End RunWithoutCommit.

Section RunWithoutCommitExamples.
Import Host Janitor Samples.

Lemma run_without_commit_writes_nothing_witness :
  ∃ w' es ops,
    run_among overlapped (env_of history None) "ses_1" fresh_world = (Normal tt, w') ∧
    trace w' = trace fresh_world ++ es ∧
    store w' = StateManager.run ops (store fresh_world) ∧
    ops `prefix_of`
      (during_fetch overlapped ++ during_get overlapped ++ during_oracle overlapped) ∧
    (∀ s ids, EvSet s ids ∉ es) ∧
    (∀ n t, EvToast n t ∉ es).
Proof.
  apply (run_without_commit_writes_nothing overlapped (env_of history None)
           "ses_1" fresh_world).
  right. exists history. split; [reflexivity|]. right. right. reflexivity.
Defined.
End RunWithoutCommitExamples.
